(** * configbuilder: a shallow embedding of [configs/config.py]

    The development follows the Python module top-down: the string helpers
    ([is_url], [clean_opt]), the exception classes, the two path resolvers
    registered by [BaseConfig._register_resolvers], the loader entry points
    [BaseConfig.new] / [BaseConfig.load], [BaseConfig.asdict], and the
    example dataclasses. *)

From Stdlib Require Import Ascii String OrderedTypeEx SpecFloat ZArith.
From stdpp Require Import gmap strings list sorting.

Local Open Scope string_scope.
Local Open Scope list_scope.

#[local] Set Warnings "-register-all".

(** ** Python exceptions

    Only the classes that the module raises, catches, or lets through are
    represented.  [OmegaConfBaseException] stands for that class and all of
    its subclasses; the [kind] field records which subclass was raised.
    [NotModelled] is no Python exception: it marks a run that leaves the part
    of the OmegaConf library this development describes, and a statement
    below about a failing run says where the run may end in it. *)

Inductive omegaconf_kind :=
| ValidationError
| KeyValidationError
| ConfigKeyError
| ConfigTypeError
| InterpolationResolutionError
| InterpolationValidationError
| MissingMandatoryValue.

Inductive exn :=
| ValueError (msg : string)
| TypeError (msg : string)
| FileNotFoundError (msg : string)
| PermissionError (msg : string)
| YAMLError (msg : string)
| OmegaConfBaseException (kind : omegaconf_kind) (msg : string)
| ConfigurationError (msg : string)
| CliError (msg : string)
| NotModelled (what : string).

(** [str(e)] for an exception built from a single message argument. *)
Definition exn_str (e : exn) : string :=
  match e with
  | ValueError m | TypeError m | FileNotFoundError m | PermissionError m
  | YAMLError m
  | OmegaConfBaseException _ m | ConfigurationError m | CliError m
  | NotModelled m => m
  end.

(** [isinstance(e, OmegaConfBaseException)]. *)
Definition is_omegaconf_exception (e : exn) : bool :=
  match e with OmegaConfBaseException _ _ => true | _ => false end.

(** A computation that either raises ([inl]) or returns ([inr]). *)
Definition result (A : Type) : Type := exn + A.

Definition ret {A} (a : A) : result A := inr a.
Definition raise {A} (e : exn) : result A := inl e.
Definition bind {A B} (m : result A) (k : A -> result B) : result B :=
  match m with inl e => inl e | inr a => k a end.

Notation "x <-- m ;; k" := (bind m (fun x => k))
  (at level 100, m at next level, right associativity).

(** ** Python [str] primitives used by the module *)

Module PyStr.

(** [c in s] for a one-character needle. *)
Fixpoint contains (c : ascii) (s : string) : bool :=
  match s with
  | EmptyString => false
  | String a s' => if Ascii.eqb a c then true else contains c s'
  end.

(** [s.split(c, 1)]: at most one split, at the first occurrence of [c]. *)
Fixpoint split1 (c : ascii) (s : string) : list string :=
  match s with
  | EmptyString => [EmptyString]
  | String a s' =>
      if Ascii.eqb a c then [EmptyString; s']
      else match split1 c s' with
           | h :: t => String a h :: t
           | [] => []
           end
  end.

(** [s.lstrip(c)], [s.rstrip(c)] and [s.strip(c)] for a one-character set. *)
Fixpoint lstrip (c : ascii) (s : string) : string :=
  match s with
  | EmptyString => EmptyString
  | String a s' => if Ascii.eqb a c then lstrip c s' else s
  end.

Fixpoint rstrip (c : ascii) (s : string) : string :=
  match s with
  | EmptyString => EmptyString
  | String a s' =>
      match rstrip c s' with
      | EmptyString => if Ascii.eqb a c then EmptyString else String a EmptyString
      | r => String a r
      end
  end.

Definition strip (c : ascii) (s : string) : string := rstrip c (lstrip c s).

(** [s.replace(c, d)] for one-character [c] and [d]. *)
Fixpoint replace (c d : ascii) (s : string) : string :=
  match s with
  | EmptyString => EmptyString
  | String a s' => String (if Ascii.eqb a c then d else a) (replace c d s')
  end.

(** [c * n]. *)
Fixpoint repeat (c : ascii) (n : nat) : string :=
  match n with O => EmptyString | S n' => String c (repeat c n') end.

(** [p in s] for a substring [p]. *)
Fixpoint contains_sub (p s : string) : bool :=
  String.prefix p s
  || match s with
     | EmptyString => false
     | String _ s' => contains_sub p s'
     end.

(** [s.find(c)] for a one-character needle: the index of the first
    occurrence, or [None] for Python's [-1]. *)
Fixpoint find (c : ascii) (s : string) : option nat :=
  match s with
  | EmptyString => None
  | String a s' =>
      if Ascii.eqb a c then Some 0
      else match find c s' with Some i => Some (S i) | None => None end
  end.

(** [s[:i]] and [s[i:]]. *)
Fixpoint take (i : nat) (s : string) : string :=
  match i, s with
  | S i', String a s' => String a (take i' s')
  | _, _ => EmptyString
  end.

Fixpoint drop (i : nat) (s : string) : string :=
  match i, s with
  | S i', String _ s' => drop i' s'
  | _, _ => s
  end.

(** [sep.join(l)]. *)
Fixpoint join (sep : string) (l : list string) : string :=
  match l with
  | [] => EmptyString
  | [x] => x
  | x :: rest => x +:+ sep +:+ join sep rest
  end.

End PyStr.

(** ** [clean_opt] *)

(** The tuple assignment [name, val = arg.split("=", 1)] raises [ValueError]
    unless the split produced exactly two pieces. *)
Definition unpack2 (l : list string) : result (string * string) :=
  match l with
  | [a; b] => ret (a, b)
  | [] | [_] => raise (ValueError "not enough values to unpack (expected 2, got 1)")
  | _ => raise (ValueError "too many values to unpack (expected 2)")
  end.

Definition clean_opt (arg : string) : result string :=
  let arg := if negb (PyStr.contains "=" arg) then arg +:+ "=True" else arg in
  p <-- unpack2 (PyStr.split1 "=" arg) ;;
  let '(name, val) := p in
  let name := PyStr.replace "-" "_" (PyStr.strip "-" name) in
  ret (name +:+ "=" +:+ val).

(** The normalisation as the specification words it: only leading dashes are
    stripped from the key, every remaining dash becomes an underscore, and
    the value is left alone ("True" when there is no "="). *)
Definition clean_opt_spec (arg : string) : string :=
  let arg := if negb (PyStr.contains "=" arg) then arg +:+ "=True" else arg in
  match PyStr.split1 "=" arg with
  | [name; val] =>
      PyStr.replace "-" "_" (PyStr.lstrip "-" name) +:+ "=" +:+ val
  | _ => arg
  end.


(** ** [is_url]

    [re.match(r"[a-z0-9]+://.*", str(path)) is not None].  The pattern is
    anchored at the start of the string only; since [:] is outside the
    class, the greedy run of class characters is the scheme, and the
    trailing [.*] accepts the empty string. *)

Module Re.

Inductive regex :=
| Class (p : ascii -> bool)
| Cat (r1 r2 : regex)
| Plus (r : regex)
| Star (r : regex).

Inductive matches : regex -> string -> Prop :=
| MClass p c : p c = true -> matches (Class p) (String c EmptyString)
| MCat r1 r2 s1 s2 :
    matches r1 s1 -> matches r2 s2 -> matches (Cat r1 r2) (s1 +:+ s2)
| MPlus1 r s : matches r s -> matches (Plus r) s
| MPlusS r s1 s2 :
    matches r s1 -> matches (Plus r) s2 -> matches (Plus r) (s1 +:+ s2)
| MStar0 r : matches (Star r) EmptyString
| MStarS r s1 s2 :
    matches r s1 -> matches (Star r) s2 -> matches (Star r) (s1 +:+ s2).



End Re.

(** Every character of [s] satisfies [p]. *)
Fixpoint str_forallb (p : ascii -> bool) (s : string) : bool :=
  match s with
  | EmptyString => true
  | String c s' => p c && str_forallb p s'
  end.

(** The class [[a-z0-9]]. *)
Definition scheme_char (c : ascii) : bool :=
  let n := nat_of_ascii c in
  ((97 <=? n) && (n <=? 122) || (48 <=? n) && (n <=? 57))%nat.



(** Drop the longest run of scheme characters. *)
Fixpoint skip_scheme (s : string) : string :=
  match s with
  | String c s' => if scheme_char c then skip_scheme s' else s
  | EmptyString => EmptyString
  end.

Definition is_url (path : string) : bool :=
  match path with
  | String c s' =>
      scheme_char c && String.prefix "://" (skip_scheme s')
  | EmptyString => false
  end.

(** The URL shape, spelled out: a non-empty scheme of lower-case letters and
    digits, then "://", then anything. *)
Definition url_shape (s : string) : Prop :=
  exists scheme rest,
    s = scheme +:+ "://" +:+ rest
    /\ scheme <> ""
    /\ str_forallb scheme_char scheme = true.

(** ** The filesystem, as the resolvers see it *)

Record filesystem := {
  (** [glob.glob(pattern)]: the matches, in the order the OS lists them. *)
  fs_glob : string -> list string;
  (** [Path(p).exists()]. *)
  fs_exists : string -> bool
}.

(** Every call that reaches the filesystem is logged. *)
Inductive fs_access :=
| AccGlob (pattern : string)
| AccExists (path : string).

(** State (the access log) and errors. *)
Definition io (A : Type) : Type := list fs_access -> list fs_access * result A.

Definition io_ret {A} (a : A) : io A := fun log => (log, inr a).
Definition io_raise {A} (e : exn) : io A := fun log => (log, inl e).
Definition io_bind {A B} (m : io A) (k : A -> io B) : io B :=
  fun log => match m log with
             | (log', inl e) => (log', inl e)
             | (log', inr a) => k a log'
             end.

Notation "x <~~ m ;; k" := (io_bind m (fun x => k))
  (at level 100, m at next level, right associativity).

Definition glob (fs : filesystem) (pattern : string) : io (list string) :=
  fun log => (log ++ [AccGlob pattern], inr (fs_glob fs pattern)).

Definition path_exists (fs : filesystem) (p : string) : io bool :=
  fun log => (log ++ [AccExists p], inr (fs_exists fs p)).

(** Run from an empty log. *)
Definition run_io {A} (m : io A) : list fs_access * result A := m [].

(** ** [sorted] on a list of [str]: code-point lexicographic order *)

Definition str_le (a b : string) : Prop := String.leb a b = true.

#[global] Instance str_le_dec a b : Decision (str_le a b).
Proof. unfold str_le. apply _. Defined.

Definition sorted (l : list string) : list string := merge_sort str_le l.

(** ** [BaseConfig._register_resolvers]: the two closures over
    [validate_paths] *)

Section Resolvers.
Variable fs : filesystem.
Variable validate_paths : bool.

(** The [for] loop of [path_glob]; [out] is the accumulator list. *)
Fixpoint path_glob_loop (out : list string) (paths : list string)
  : io (list string) :=
  match paths with
  | [] => io_ret out
  | path :: rest =>
      g <~~ glob fs path ;;
      let matches := sorted g in
      if bool_decide (matches = []) && validate_paths then
        io_raise (FileNotFoundError (path +:+ " does not match any files or dirs"))
      else path_glob_loop (out ++ matches) rest
  end.

Definition path_glob (paths : list string) : io (list string) :=
  path_glob_loop [] paths.

(** The [for] loop of [path_choose]; [None] when it falls through. *)
Fixpoint path_choose_loop (paths : list string) : io (option string) :=
  match paths with
  | [] => io_ret None
  | path :: rest =>
      if is_url path then io_ret (Some path)
      else
        e <~~ path_exists fs path ;;
        if e then io_ret (Some path) else path_choose_loop rest
  end.

Definition path_choose (paths : list string) : io string :=
  r <~~ path_choose_loop paths ;;
  match r with
  | Some path => io_ret path
  | None =>
      if validate_paths then io_raise (FileNotFoundError (PyStr.join ", " paths))
      else io_ret ""
  end.
End Resolvers.

(** The predicates the resolvers' contracts are stated with. *)

(** The pattern expands to zero matches. *)
Definition no_match (fs : filesystem) (p : string) : bool :=
  bool_decide (fs_glob fs p = []).



(** ** Python values

    What a dataclass field, a YAML document or a keyword argument can hold.
    A [float] is an IEEE-754 datum; no arithmetic is ever done on one. *)

(** An [Enum] class with string values: its name and its members as
    (member name, member value) pairs, in declaration order. *)
Record enum_decl := {
  enum_name : string;
  enum_members : list (string * string)
}.

#[global] Instance enum_decl_eq_dec : EqDecision enum_decl.
Proof. solve_decision. Defined.

Inductive scalar :=
| SNone
| SBool (b : bool)
| SInt (z : Z)
| SFloat (f : spec_float)
| SStr (s : string)
| SEnum (e : enum_decl) (member : string).

Inductive pyval :=
| VScalar (s : scalar)
| VList (l : list pyval)
| VDict (d : list (string * pyval))
| VObj (cls : string) (attrs : list (string * pyval)).

Abbreviation VNone := (VScalar SNone).

(** Plain data: no dataclass instance anywhere inside. *)
Fixpoint plain (v : pyval) : bool :=
  match v with
  | VScalar _ => true
  | VList l => forallb plain l
  | VDict d =>
      (fix go (d : list (string * pyval)) : bool :=
         match d with
         | [] => true
         | (_, x) :: d' => plain x && go d'
         end) d
  | VObj _ _ => false
  end.

(** *** [dict] with [str] keys

    An insertion-ordered association list; the operations keep the keys
    distinct, as a Python [dict] does. *)

Section Dict.
Context {V : Type}.

Fixpoint dict_get (k : string) (d : list (string * V)) : option V :=
  match d with
  | [] => None
  | (k', v) :: d' => if String.eqb k' k then Some v else dict_get k d'
  end.

(** [k in d]. *)
Definition dict_contains (k : string) (d : list (string * V)) : bool :=
  match dict_get k d with Some _ => true | None => false end.

(** [d[k] = v]: overwrite in place, or append a new entry. *)
Fixpoint dict_set (k : string) (v : V) (d : list (string * V))
  : list (string * V) :=
  match d with
  | [] => [(k, v)]
  | (k', v') :: d' =>
      if String.eqb k' k then (k, v) :: d' else (k', v') :: dict_set k v d'
  end.

(** [del d[k]] (the key is present when this runs). *)
Fixpoint dict_del (k : string) (d : list (string * V)) : list (string * V) :=
  match d with
  | [] => []
  | (k', v') :: d' =>
      if String.eqb k' k then d' else (k', v') :: dict_del k d'
  end.

(** [dict(pairs)]: later pairs overwrite earlier ones with the same key. *)
Definition dict_of_pairs (pairs : list (string * V)) : list (string * V) :=
  fold_left (fun d kv => dict_set kv.1 kv.2 d) pairs [].

Definition dict_keys (d : list (string * V)) : list string := map fst d.
End Dict.

(** ** Dataclass declarations

    A field has a name, an annotation and a default: a plain value, a
    [default_factory] ([list], or the dataclass the field is annotated
    with), or none. *)

Inductive prim := PInt | PFloat | PBool | PStr.

Inductive default_spec :=
| Default (v : scalar)
| DefaultFactoryList
| DefaultFactoryClass
| NoDefault.

Inductive ty :=
| TAny
| TPrim (p : prim)
| TEnum (e : enum_decl)
| TOptional (t : ty)
| TList (t : ty)
| TDict (t : ty)
| TClass (name : string) (fields : list (string * (ty * default_spec))).

(** [OptionSelector(StrEnum)]. *)
Definition OptionSelector : enum_decl := {|
  enum_name := "OptionSelector";
  enum_members :=
    [("default", "default"); ("option_a", "option_a"); ("option_b", "option_b")]
|}.

Definition ConfigClassA : ty :=
  TClass "ConfigClassA"
    [("list_a", (TOptional (TList (TPrim PStr)), Default SNone))].

Definition ConfigClassB : ty :=
  TClass "ConfigClassB"
    [("label", (TPrim PStr, Default (SFloat (S754_zero false))));
     ("list_b", (TOptional (TList (TPrim PStr)), Default SNone))].

Definition ConfigClassC : ty :=
  TClass "ConfigClassC"
    [("a", (TPrim PInt, Default (SInt 0)));
     ("b", (TOptional (TPrim PFloat), Default SNone));
     ("c", (TPrim PBool, Default (SBool false)));
     ("option_selector", (TEnum OptionSelector, Default (SEnum OptionSelector "default")));
     ("config_class_a", (ConfigClassA, DefaultFactoryClass));
     ("config_class_b", (TList ConfigClassB, DefaultFactoryList))].

(** [isinstance(v, <annotation>)] for the scalar annotations: what a static
    checker would accept for the field. *)
Definition scalar_has_type (t : ty) (s : scalar) : bool :=
  match t, s with
  | TAny, _ => true
  | TOptional _, SNone => true
  | (TPrim PInt | TOptional (TPrim PInt)), SInt _ => true
  | (TPrim PFloat | TOptional (TPrim PFloat)), SFloat _ => true
  | (TPrim PBool | TOptional (TPrim PBool)), SBool _ => true
  | (TPrim PStr | TOptional (TPrim PStr)), (SStr _ | SEnum _ _) => true
  | (TEnum e | TOptional (TEnum e)), SEnum e' m =>
      bool_decide (e' = e) && bool_decide (m ∈ map fst (enum_members e))
  | _, _ => false
  end.

(** The declaration of field [f] of a dataclass. *)
Definition field_decl (t : ty) (f : string) : option (ty * default_spec) :=
  match t with
  | TClass _ fields => dict_get f fields
  | _ => None
  end.

(** [obj.f] on a dataclass instance. *)
Definition getattr (obj : pyval) (f : string) : option pyval :=
  match obj with
  | VObj _ attrs => dict_get f attrs
  | _ => None
  end.

(** The generated [__init__]: keyword arguments win over defaults; a field
    with neither is a [TypeError], and so is an unknown keyword.  Nothing is
    type-checked. *)
Fixpoint dataclass_init (t : ty) (kwargs : list (string * pyval))
  : result pyval :=
  match t with
  | TClass name fields =>
      let fix go (fs : list (string * (ty * default_spec)))
        : result (list (string * pyval)) :=
        match fs with
        | [] => ret []
        | (f, (ft, d)) :: fs' =>
            v <-- match dict_get f kwargs with
                  | Some v => ret v
                  | None =>
                      match d with
                      | Default s => ret (VScalar s)
                      | DefaultFactoryList => ret (VList [])
                      | DefaultFactoryClass => dataclass_init ft []
                      | NoDefault =>
                          raise (TypeError
                            (name +:+ ".__init__() missing 1 required positional argument: '"
                             +:+ f +:+ "'"))
                      end
                  end ;;
            rest <-- go fs' ;;
            ret ((f, v) :: rest)
        end in
      match List.find (fun k => negb (dict_contains k fields)) (dict_keys kwargs) with
      | Some k =>
          raise (TypeError
            (name +:+ ".__init__() got an unexpected keyword argument '"
             +:+ k +:+ "'"))
      | None => attrs <-- go fields ;; ret (VObj name attrs)
      end
  | _ => raise (TypeError "object is not callable")
  end.

(** ** [dataclasses.asdict] and [BaseConfig.asdict] *)

Fixpoint asdict_inner (obj : pyval) : pyval :=
  match obj with
  | VObj _ attrs =>
      VDict (dict_of_pairs
               ((fix go (l : list (string * pyval)) :=
                   match l with
                   | [] => []
                   | (f, v) :: l' => (f, asdict_inner v) :: go l'
                   end) attrs))
  | VList l => VList (map asdict_inner l)
  | VDict d =>
      VDict (dict_of_pairs
               ((fix go (l : list (string * pyval)) :=
                   match l with
                   | [] => []
                   | (k, v) :: l' => (k, asdict_inner v) :: go l'
                   end) d))
  | VScalar s => VScalar s
  end.

Definition dataclasses_asdict (obj : pyval) : result (list (string * pyval)) :=
  match obj with
  | VObj _ _ =>
      match asdict_inner obj with
      | VDict d => ret d
      | _ => raise (TypeError "asdict() should be called on dataclass instances")
      end
  | _ => raise (TypeError "asdict() should be called on dataclass instances")
  end.

(** The [for name in exclude] loop over the mutable [out]. *)
Definition asdict_exclude_loop (out : list (string * pyval))
    (exclude : list string) : list (string * pyval) :=
  fold_left
    (fun out name => if dict_contains name out then dict_del name out else out)
    exclude out.

Definition asdict (self : pyval) (exclude : option (list string))
  : result (list (string * pyval)) :=
  out <-- dataclasses_asdict self ;;
  match exclude with
  | Some names => ret (asdict_exclude_loop out names)
  | None => ret out
  end.

(** ** OmegaConf, as far as [BaseConfig] uses it

    The library is not part of this repository.  What follows describes the
    behaviour of OmegaConf as released in 2.4 ([register_new_resolver(...,
    replace=True)] exists from 2.1 on) on the calls made by [new] and
    [load]: configuration trees whose nodes carry their declared type,
    validation on assignment, the recursive merge of an untyped tree into a
    typed one, dot-list parsing, and materialisation into dataclass
    instances.  The pieces of the library that are parsers or evaluators of
    their own (YAML scalars, key paths, interpolation, conversions between
    primitive types) are taken as parameters.  Where a run is marked
    [NotModelled] nothing is said about what the library does. *)

(** A configuration node: a value node (holding a converted value or
    [None]), a missing value ["???"], an unresolved interpolation, a
    [DictConfig] or a [ListConfig].  [t] is the declared type of the slot
    the node sits in ([TAny] in an untyped configuration). *)
Inductive node :=
| NVal (t : ty) (v : scalar)
| NMissing (t : ty)
| NInterp (t : ty) (s : string)
| NDict (t : ty) (items : list (string * node))
| NList (t : ty) (items : list node).

Definition type_of (n : node) : ty :=
  match n with
  | NVal t _ | NMissing t | NInterp t _ | NDict t _ | NList t _ => t
  end.

Definition retype (t : ty) (n : node) : node :=
  match n with
  | NVal _ v => NVal t v
  | NMissing _ => NMissing t
  | NInterp _ s => NInterp t s
  | NDict _ items => NDict t items
  | NList _ items => NList t items
  end.

Definition is_missing (n : node) : bool :=
  match n with NMissing _ => true | _ => false end.

(** [Optional[...]] peeled off. *)
Fixpoint base (t : ty) : ty :=
  match t with
  | TOptional t' => base t'
  | _ => t
  end.

Definition is_optional (t : ty) : bool :=
  match t with TAny | TOptional _ => true | _ => false end.

Definition is_container_ty (t : ty) : bool :=
  match base t with
  | TList _ | TDict _ | TClass _ _ => true
  | _ => false
  end.

(** [is_structured_config]: a dataclass. *)
Definition is_structured (t : ty) : bool :=
  match base t with TClass _ _ => true | _ => false end.

(** The element type of a container annotation. *)
Definition element_type (t : ty) : ty :=
  match base t with
  | TList et | TDict et => et
  | _ => TAny
  end.

(** A custom resolver and the process-wide table of them. *)
Definition resolver : Type := list string -> io pyval.
Definition registry : Type := list (string * resolver).

(** The parts of the library taken as given. *)
Record externals := {
  (** [yaml.load] of the text after [=] in a dot-list entry: the parser's
      error message, or the value. *)
  yaml_load : string -> string + pyval;
  (** [split_key]: a dotted key cut into its segments. *)
  split_key : string -> list string;
  (** A value node converting a value that is not already of its type
      (["5"] for an [int], [1] for a [bool], ...); [None] when it refuses. *)
  coerce : prim -> scalar -> option scalar;
  (** Evaluation of an interpolation string against the root configuration
      with the registered resolvers: an error message, or the result. *)
  resolve : registry -> node -> string -> string + pyval
}.

(** What [open] and the YAML parser make of a path. *)
Inductive file_state :=
| Missing
| Unreadable
| Malformed (msg : string)
| Parsed (doc : pyval).

Definition omegaconf_error {A} (k : omegaconf_kind) (msg : string) : result A :=
  raise (OmegaConfBaseException k msg).

Module om.
Section WithExternals.
Variable X : externals.

(** [EnumNode.validate_and_convert_to_enum]: a member, or a member's name,
    optionally prefixed by the enumeration's class name and a dot. *)
Definition strip_enum_prefix (e : enum_decl) (s : string) : string :=
  let p := enum_name e +:+ "." in
  if String.prefix p s then PyStr.drop (String.length p) s else s.

Definition enum_convert (e : enum_decl) (s : scalar) : result scalar :=
  match s with
  | SEnum e' m =>
      if bool_decide (e' = e) && dict_contains m (enum_members e) then ret s
      else raise (NotModelled "a member of another enumeration")
  | SStr str =>
      let name := strip_enum_prefix e str in
      if dict_contains name (enum_members e) then ret (SEnum e name)
      else omegaconf_error ValidationError
             ("Invalid value '" +:+ str +:+ "', expected one of ["
              +:+ PyStr.join ", " (map fst (enum_members e)) +:+ "]")
  | _ =>
      omegaconf_error ValidationError
        ("Invalid value, expected one of ["
         +:+ PyStr.join ", " (map fst (enum_members e)) +:+ "]")
  end.

(** [IntegerNode], [FloatNode], [BooleanNode], [StringNode]. *)
Definition convert_prim (p : prim) (s : scalar) : result scalar :=
  match p, s with
  | PInt, SInt _ | PFloat, SFloat _ | PBool, SBool _ | PStr, SStr _ => ret s
  | _, _ =>
      match coerce X p s with
      | Some s' => ret s'
      | None => omegaconf_error ValidationError "Value could not be converted"
      end
  end.

(** The value a slot declared [t] stores when the plain value [s] is
    assigned to it. *)
Definition validate_value (t : ty) (s : scalar) : result scalar :=
  match s with
  | SNone =>
      if is_optional t then ret SNone
      else omegaconf_error ValidationError "field is not Optional"
  | _ =>
      match base t with
      | TAny => ret s
      | TPrim p => convert_prim p s
      | TEnum e => enum_convert e s
      | _ => omegaconf_error ValidationError
               "Invalid value assigned to a container field"
      end
  end.

Definition validate_scalar (t : ty) (s : scalar) : result node :=
  s' <-- validate_value t s ;; ret (NVal t s').

(** [_node_wrap] of a scalar: ["???"] is the missing marker, a string holding
    ["${"] is an interpolation, anything else is validated. *)
Definition wrap_scalar (t : ty) (s : scalar) : result node :=
  match s with
  | SStr str =>
      if String.eqb str "???" then ret (NMissing t)
      else if PyStr.contains_sub "${" str then ret (NInterp t str)
      else validate_scalar t s
  | _ => validate_scalar t s
  end.

(** [om.structured(cls)]: one typed node per field, holding the field's
    default.  A default that does not fit the annotation is refused here. *)
Fixpoint structured (t : ty) : result node :=
  match t with
  | TClass name fields =>
      let fix go (fs : list (string * (ty * default_spec)))
        : result (list (string * node)) :=
        match fs with
        | [] => ret []
        | (f, (ft, d)) :: fs' =>
            n <-- match d with
                  | Default s => wrap_scalar ft s
                  | DefaultFactoryList =>
                      match base ft with
                      | TList _ | TAny => ret (NList ft [])
                      | _ => omegaconf_error ValidationError
                               "Invalid value assigned: list"
                      end
                  | DefaultFactoryClass =>
                      n <-- structured ft ;; ret (retype ft n)
                  | NoDefault => ret (NMissing ft)
                  end ;;
            rest <-- go fs' ;;
            ret ((f, n) :: rest)
        end in
      items <-- go fields ;;
      ret (NDict t items)
  | TOptional t' => n <-- structured t' ;; ret (retype t n)
  | _ => omegaconf_error ValidationError "not a structured config class"
  end.

(** [OmegaConf.create] of plain data: an untyped tree. *)
Fixpoint create (v : pyval) : result node :=
  match v with
  | VScalar s => wrap_scalar TAny s
  | VList l =>
      items <-- (fix go (l : list pyval) : result (list node) :=
                   match l with
                   | [] => ret []
                   | x :: l' =>
                       n <-- create x ;; r <-- go l' ;; ret (n :: r)
                   end) l ;;
      ret (NList TAny items)
  | VDict d =>
      items <-- (fix go (l : list (string * pyval))
                   : result (list (string * node)) :=
                   match l with
                   | [] => ret []
                   | (k, x) :: l' =>
                       n <-- create x ;; r <-- go l' ;; ret ((k, n) :: r)
                   end) d ;;
      ret (NDict TAny (dict_of_pairs items))
  | VObj _ _ => raise (NotModelled "a dataclass instance as input data")
  end.

(** The slot a merge writes into when the destination has no node yet: a
    prototype of the element type when that is a dataclass, else an empty
    slot of that type. *)
Definition blank (et : ty) (src : node) : result node :=
  if is_structured et && negb (is_missing src) then structured et
  else ret (NMissing et).

(** [expand]: a [None] or missing container slot is opened up before
    something is merged into it. *)
Definition expand (d : node) : result node :=
  match d with
  | NVal t SNone | NMissing t =>
      match base t with
      | TClass _ _ => structured t
      | TDict _ => ret (NDict t [])
      | TList _ => ret (NList t [])
      | _ => ret d
      end
  | NInterp _ _ =>
      raise (NotModelled "merging a container into an interpolated node")
  | _ => ret d
  end.

(** [BaseContainer._map_merge] / [_list_merge], one destination node at a
    time: what the slot holding [d] holds after [src] is merged into it.
    A scalar is validated against the slot's type, a missing value changes
    nothing, an interpolation is stored unevaluated, a mapping is merged key
    by key, a list replaces the list.  A list met by a mapping (or the other
    way round) below the top level is not described. *)
Fixpoint merge_node (d : node) (src : node) {struct src} : result node :=
  match src with
  | NVal _ s => validate_scalar (type_of d) s
  | NMissing _ => ret d
  | NInterp _ str => ret (NInterp (type_of d) str)
  | NDict _ sitems =>
      d' <-- expand d ;;
      match d' with
      | NDict td ditems =>
          items <--
            (fix go (acc : list (string * node)) (l : list (string * node))
               : result (list (string * node)) :=
               match l with
               | [] => ret acc
               | (k, sk) :: l' =>
                   dk <-- match dict_get k acc with
                          | Some dk => ret dk
                          | None =>
                              if is_structured td then
                                omegaconf_error ConfigKeyError
                                  ("Key '" +:+ k +:+ "' not in struct")
                              else blank (element_type td) sk
                          end ;;
                   r <-- merge_node dk sk ;;
                   go (dict_set k r acc) l'
               end) ditems sitems ;;
          ret (NDict td items)
      | NList _ _ =>
          raise (NotModelled "merging a mapping into a list below the top level")
      | _ =>
          match base (type_of d') with
          | TAny => ret src
          | _ => omegaconf_error ValidationError
                   "Invalid value assigned: a mapping"
          end
      end
  | NList _ sitems =>
      d' <-- expand d ;;
      match d' with
      | NList tl _ =>
          items <--
            (fix go (l : list node) : result (list node) :=
               match l with
               | [] => ret []
               | si :: l' =>
                   b <-- blank (element_type tl) si ;;
                   r <-- merge_node b si ;;
                   rest <-- go l' ;;
                   ret (r :: rest)
               end) sitems ;;
          ret (NList tl items)
      | NDict _ _ =>
          raise (NotModelled "merging a list into a mapping below the top level")
      | _ =>
          match base (type_of d') with
          | TAny => ret src
          | _ => omegaconf_error ValidationError
                   "Invalid value assigned: a list"
          end
      end
  end.

(** [om.merge(target, other)].  A list merged onto a mapping, or a mapping
    onto a list, is the builtin [TypeError], which is no exception of the
    library's family; so is the [ValueError] for something that is neither
    a mapping nor a list. *)
Definition merge (target other : node) : result node :=
  match other with
  | NDict _ _ =>
      match target with
      | NList _ _ => raise (TypeError "Cannot merge DictConfig with ListConfig")
      | _ => merge_node target other
      end
  | NList _ _ =>
      match target with
      | NDict _ _ => raise (TypeError "Cannot merge DictConfig with ListConfig")
      | _ => merge_node target other
      end
  | NVal _ SNone => raise (ValueError "Cannot merge with a None config")
  | _ => raise (ValueError "Invalid input. Supports one of [dict,list,DictConfig,ListConfig,dataclass,dataclass instance,attr class,attr class instance]")
  end.


(** [OmegaConf.update(cfg, key, value)] with its default [merge=True], along
    the segments of the key: intermediate nodes that are no containers are
    replaced by empty mappings; at the last segment a container value is
    merged into a container already there, anything else is stored. *)
Fixpoint update_path (n : node) (ks : list string) (v : pyval) {struct ks}
  : result node :=
  match ks, n with
  | [], _ => raise (NotModelled "a key without segments")
  | [k], NDict t items =>
      match v, dict_get k items with
      | (VList _ | VDict _), Some ((NDict _ _ | NList _ _) as child) =>
          other <-- create v ;;
          r <-- merge_node child other ;;
          ret (NDict t (dict_set k r items))
      | _, _ =>
          new <-- create v ;;
          ret (NDict t (dict_set k new items))
      end
  | k :: rest, NDict t items =>
      let child :=
        match dict_get k items with
        | Some ((NDict _ _ | NList _ _) as c) => c
        | _ => NDict TAny []
        end in
      r <-- update_path child rest v ;;
      ret (NDict t (dict_set k r items))
  | _, _ => raise (NotModelled "a dot-list key that indexes a list")
  end.

Definition update (cfg : node) (key : string) (value : pyval) : result node :=
  update_path cfg (split_key X key) value.

(** One entry of a dot-list: [key=value] with the value read as YAML, or a
    bare [key] standing for [None].  The library lets a backslash escape an
    [=]; how it reads an entry that holds a backslash is not described
    (["092"] is the backslash). *)
Definition parse_dotlist_entry (arg : string) : result (string * pyval) :=
  if PyStr.contains "092" arg then
    raise (NotModelled "a dot-list entry that holds a backslash")
  else
    match PyStr.find "=" arg with
    | None => ret (arg, VNone)
    | Some idx =>
        match yaml_load X (PyStr.drop (S idx) arg) with
        | inl msg => raise (YAMLError msg)
        | inr v => ret (PyStr.take idx arg, v)
        end
    end.

(** [merge_with_dotlist]: the entries are applied in list order. *)
Fixpoint merge_with_dotlist (conf : node) (dotlist : list string)
  : result node :=
  match dotlist with
  | [] => ret conf
  | arg :: rest =>
      kv <-- parse_dotlist_entry arg ;;
      conf' <-- update conf kv.1 kv.2 ;;
      merge_with_dotlist conf' rest
  end.

(** [om.from_dotlist(dotlist)]. *)
Definition from_dotlist (dotlist : list string) : result node :=
  merge_with_dotlist (NDict TAny []) dotlist.

(** [cfg[key]]: a sub-configuration, or the plain value of a value node. *)
Definition getitem (reg : registry) (cfg : node) (key : string)
  : result node :=
  match cfg with
  | NDict _ items =>
      match dict_get key items with
      | None => omegaconf_error ConfigKeyError ("Missing key " +:+ key)
      | Some (NMissing _) =>
          omegaconf_error MissingMandatoryValue
            ("Missing mandatory value: " +:+ key)
      | Some (NInterp _ s) =>
          match resolve X reg cfg s with
          | inl msg => omegaconf_error InterpolationResolutionError msg
          | inr v => create v
          end
      | Some child => ret child
      end
  | NList _ _ =>
      omegaconf_error KeyValidationError
        "ListConfig indices must be integers or slices, not str"
  | _ => raise (NotModelled "indexing a value")
  end.

(** The call of the dataclass with one keyword argument per field, a
    [TypeError] being reported as OmegaConf reports it. *)
Definition instantiate (t : ty) (kwargs : list (string * pyval))
  : result pyval :=
  match dataclass_init t kwargs with
  | inl (TypeError msg) =>
      omegaconf_error ConfigTypeError ("Could not create instance: " +:+ msg)
  | r => r
  end.

(** [om.to_object]: interpolations are resolved (and, in a typed value
    node, validated), a missing value is an error, a structured mapping
    becomes an instance of its dataclass. *)
Fixpoint to_object_node (reg : registry) (root : node) (n : node)
  : result pyval :=
  match n with
  | NVal _ s => ret (VScalar s)
  | NMissing _ =>
      omegaconf_error MissingMandatoryValue "Missing mandatory value"
  | NInterp t str =>
      match resolve X reg root str with
      | inl msg => omegaconf_error InterpolationResolutionError msg
      | inr v =>
          match base t, v with
          | (TPrim _ | TEnum _), VScalar s =>
              s' <-- validate_value t s ;; ret (VScalar s')
          | (TPrim _ | TEnum _), _ =>
              omegaconf_error InterpolationValidationError
                "Invalid interpolation result"
          | _, _ =>
              if plain v then ret v
              else raise (NotModelled "a resolver that returns an object")
          end
      end
  | NDict t items =>
      children <--
        (fix go (l : list (string * node)) : result (list (string * pyval)) :=
           match l with
           | [] => ret []
           | (k, c) :: l' =>
               v <-- to_object_node reg root c ;;
               r <-- go l' ;;
               ret ((k, v) :: r)
           end) items ;;
      match base t with
      | TClass _ _ => instantiate (base t) children
      | _ => ret (VDict children)
      end
  | NList _ items =>
      children <--
        (fix go (l : list node) : result (list pyval) :=
           match l with
           | [] => ret []
           | c :: l' =>
               v <-- to_object_node reg root c ;;
               r <-- go l' ;;
               ret (v :: r)
           end) items ;;
      ret (VList children)
  end.

Definition to_object (reg : registry) (conf : node) : result pyval :=
  to_object_node reg conf conf.

(** [om.load(path)]: [read] is what [open] and the YAML parser make of a
    path. *)
Definition load (read : string -> file_state) (path : string) : result node :=
  match read path with
  | Missing =>
      raise (FileNotFoundError
               ("[Errno 2] No such file or directory: '" +:+ path +:+ "'"))
  | Unreadable =>
      raise (PermissionError
               ("[Errno 13] Permission denied: '" +:+ path +:+ "'"))
  | Malformed msg => raise (YAMLError msg)
  | Parsed VNone => ret (NDict TAny [])
  | Parsed ((VDict _ | VList _) as doc) => create doc
  | Parsed _ => raise (NotModelled "a YAML document that is a bare scalar")
  end.

End WithExternals.
End om.

(** ** [BaseConfig] *)

Section BaseConfig.
Variable X : externals.
(** The filesystem, the files as YAML documents, and the resolver table of
    the process before the call. *)
Variable fs : filesystem.
Variable read : string -> file_state.
Variable reg : registry.

(** [_register_resolvers]: both names are (re)bound, [replace=True]. *)
Definition register_resolvers (validate_paths : bool) : registry :=
  let path_glob' : resolver := fun paths =>
    r <~~ path_glob fs validate_paths paths ;;
    io_ret (VList (map (fun p => VScalar (SStr p)) r)) in
  let path_choose' : resolver := fun paths =>
    r <~~ path_choose fs validate_paths paths ;;
    io_ret (VScalar (SStr r)) in
  dict_set "path.choose" path_choose' (dict_set "path.glob" path_glob' reg).

Definition update_legacy_settings (config : node) : node := config.

(** [try: ... except OmegaConfBaseException as e: raise
    ConfigurationError(str(e))]. *)
Definition except_omegaconf {A} (body : result A) : result A :=
  match body with
  | inl e =>
      if is_omegaconf_exception e then raise (ConfigurationError (exn_str e))
      else raise e
  | inr a => ret a
  end.

Definition new (cls : ty) (kwargs : list (string * pyval)) : result pyval :=
  let reg' := register_resolvers true in
  conf <-- om.structured X cls ;;
  except_omegaconf
    (conf <-- match kwargs with
              | [] => ret conf
              | _ => other <-- om.create X (VDict kwargs) ;;
                     om.merge X conf other
              end ;;
     om.to_object X reg' conf).

Definition load (cls : ty) (path : string) (overrides : option (list string))
    (key : option string) (validate_paths : bool) : result pyval :=
  let reg' := register_resolvers validate_paths in
  schema <-- om.structured X cls ;;
  except_omegaconf
    (raw <-- om.load X read path ;;
     raw <-- match key with
             | Some k => om.getitem X reg' raw k
             | None => ret raw
             end ;;
     let raw := update_legacy_settings raw in
     conf <-- om.merge X schema raw ;;
     conf <-- match overrides with
              | Some ((_ :: _) as dotlist) =>
                  other <-- om.from_dotlist X dotlist ;;
                  om.merge X conf other
              | _ => ret conf
              end ;;
     om.to_object X reg' conf).

End BaseConfig.

(** The stages of [load], named. *)
Section LoadStages.
Variable X : externals.
Variable read : string -> file_state.

(** Steps 2 to 4: parse the file, descend to [key], migrate. *)
Definition load_document (reg' : registry) (path : string)
    (key : option string) : result node :=
  raw <-- om.load X read path ;;
  raw <-- match key with
          | Some k => om.getitem X reg' raw k
          | None => ret raw
          end ;;
  ret (update_legacy_settings raw).

(** Step 6: the dot-list, when there is one, is merged onto [conf]. *)
Definition apply_overrides (conf : node) (overrides : option (list string))
  : result node :=
  match overrides with
  | Some ((_ :: _) as dotlist) =>
      other <-- om.from_dotlist X dotlist ;;
      om.merge X conf other
  | _ => ret conf
  end.

(** The [kwargs] of [new], when there are any, are merged onto [conf]. *)
Definition apply_kwargs (conf : node) (kwargs : list (string * pyval))
  : result node :=
  match kwargs with
  | [] => ret conf
  | _ => other <-- om.create X (VDict kwargs) ;; om.merge X conf other
  end.
End LoadStages.

(** What an [except OmegaConfBaseException] clause makes of an exception. *)
Definition reraise (e : exn) : exn :=
  if is_omegaconf_exception e then ConfigurationError (exn_str e) else e.

(** An error of the library's own family, or a run outside the model. *)
Definition library_error (e : exn) : Prop :=
  is_omegaconf_exception e = true \/ exists what, e = NotModelled what.

(** ** Sample surroundings, for concrete runs *)

Module Sample.

(** A YAML reader that knows a few scalars, keys without dots, no
    conversions and no resolvers. *)
Definition X : externals := {|
  yaml_load := fun s =>
    if String.eqb s "true" then inr (VScalar (SBool true))
    else if String.eqb s "5" then inr (VScalar (SInt 5))
    else if String.eqb s "7" then inr (VScalar (SInt 7))
    else if String.eqb s "{}" then inr (VDict [])
    else if String.eqb s "{list_a: [x]}" then
      inr (VDict [("list_a", VList [VScalar (SStr "x")])])
    else inr (VScalar (SStr s));
  split_key := fun k => [k];
  coerce := fun _ _ => None;
  resolve := fun _ _ _ => inl "no such resolver"
|}.

Definition fs : filesystem :=
  {| fs_glob := fun _ => []; fs_exists := fun _ => false |}.

Definition read (p : string) : file_state :=
  if String.eqb p "a5.yaml" then Parsed (VDict [("a", VScalar (SInt 5))])
  else if String.eqb p "prefixed.yaml" then
    Parsed (VDict [("option_selector", VScalar (SStr "OptionSelector.option_a"))])
  else if String.eqb p "outside.yaml" then
    Parsed (VDict [("option_selector", VScalar (SStr "option_c"))])
  else if String.eqb p "a5_outside.yaml" then
    Parsed (VDict [("a", VScalar (SInt 5));
                   ("option_selector", VScalar (SStr "option_c"))])
  else if String.eqb p "scalar_section.yaml" then
    Parsed (VDict [("training", VScalar (SInt 5))])
  else if String.eqb p "empty.yaml" then Parsed VNone
  else Missing.

(** A configuration class whose default does not fit its annotation. *)
Definition BadDefault : ty :=
  TClass "BadDefault"
    [("mode", (TEnum OptionSelector, Default (SStr "fastest")))].

End Sample.

(** ** What a well-formed configuration is

    The predicates the statements about [new] and [load] are written with. *)

(** A declaration is well formed when no class in it declares a field
    twice. *)
Fixpoint wf_ty (t : ty) : bool :=
  match t with
  | TOptional t' | TList t' | TDict t' => wf_ty t'
  | TClass _ fields =>
      bool_decide (NoDup (dict_keys fields))
      && (fix go (fs : list (string * (ty * default_spec))) : bool :=
            match fs with
            | [] => true
            | (_, (ft, _)) :: fs' => wf_ty ft && go fs'
            end) fields
  | _ => true
  end.

(** A value fits an enumeration-typed slot when it is a member of that
    enumeration, or [None] where the slot is declared [Optional]; it fits a
    container-typed slot when it is [None]; any value fits a slot of another
    type. *)
Definition scalar_ok (t : ty) (s : scalar) : Prop :=
  match base t with
  | TEnum e =>
      (s = SNone /\ is_optional t = true)
      \/ exists m, s = SEnum e m /\ m ∈ map fst (enum_members e)
  | TList _ | TDict _ | TClass _ _ => s = SNone
  | _ => True
  end.

(** Annotations a [DictConfig], respectively a [ListConfig], can carry. *)
Definition dict_kind (t : ty) : Prop :=
  match base t with
  | TAny | TDict _ | TClass _ _ => True
  | _ => False
  end.

Definition list_kind (t : ty) : Prop :=
  match base t with
  | TAny | TList _ => True
  | _ => False
  end.

(** The declared type of the entry [k] of a mapping declared [t]. *)
Definition child_type (t : ty) (k : string) : option ty :=
  match base t with
  | TClass _ fields =>
      match dict_get k fields with
      | Some (ft, _) => Some ft
      | None => None
      end
  | _ => Some (element_type t)
  end.

(** A node sits rightly in a slot declared [st]. *)
Definition slot_ok (st : ty) (c : node) : Prop :=
  base st = TAny \/ type_of c = st.

(** Every field of a dataclass-typed mapping is there. *)
Definition fields_present (t : ty) (items : list (string * node)) : Prop :=
  match base t with
  | TClass _ fields => forall f, f ∈ dict_keys fields -> f ∈ dict_keys items
  | _ => True
  end.

(** A configuration tree that agrees with the types it is annotated with. *)
Inductive node_ok : node -> Prop :=
| ok_val t s : wf_ty t = true -> scalar_ok t s -> node_ok (NVal t s)
| ok_missing t : wf_ty t = true -> node_ok (NMissing t)
| ok_interp t s : wf_ty t = true -> node_ok (NInterp t s)
| ok_dict t items :
    wf_ty t = true ->
    dict_kind t ->
    fields_present t items ->
    (forall k c, (k, c) ∈ items ->
       node_ok c /\ exists st, child_type t k = Some st /\ slot_ok st c) ->
    node_ok (NDict t items)
| ok_list t items :
    wf_ty t = true ->
    list_kind t ->
    (forall c, c ∈ items -> node_ok c /\ slot_ok (element_type t) c) ->
    node_ok (NList t items).

(** A materialised value that agrees with the declared type [t]: every
    enumeration-typed field of every dataclass instance in it holds a member
    of its enumeration, or [None] if it is declared [Optional].  (Nothing is asked of a slot declared
    [Any], nor of plain data that an interpolation put in a container
    slot.) *)
Inductive well_valued : ty -> pyval -> Prop :=
| wv_any t v : base t = TAny -> well_valued t v
| wv_scalar t s : scalar_ok t s -> well_valued t (VScalar s)
| wv_plain t v :
    is_container_ty t = true -> plain v = true -> well_valued t v
| wv_obj t name fields cname attrs :
    base t = TClass name fields ->
    (forall f v, (f, v) ∈ attrs ->
       exists ft d, dict_get f fields = Some (ft, d) /\ well_valued ft v) ->
    well_valued t (VObj cname attrs)
| wv_list t et l :
    base t = TList et ->
    (forall v, v ∈ l -> well_valued et v) ->
    well_valued t (VList l)
| wv_dict t et d :
    base t = TDict et ->
    (forall k v, (k, v) ∈ d -> well_valued et v) ->
    well_valued t (VDict d).

(** An untyped tree, as the library builds one from plain data: every
    annotation is [Any] and no mapping in it holds a key twice. *)
Fixpoint untyped (n : node) : bool :=
  match n with
  | NVal t _ | NMissing t | NInterp t _ =>
      match t with TAny => true | _ => false end
  | NDict t items =>
      match t with TAny => true | _ => false end
      && bool_decide (NoDup (dict_keys items))
      && (fix go (l : list (string * node)) : bool :=
            match l with
            | [] => true
            | (_, c) :: l' => untyped c && go l'
            end) items
  | NList t items =>
      match t with TAny => true | _ => false end && forallb untyped items
  end.

(** [obj.k1.k2...]: attribute access through dataclass instances. *)
Fixpoint attr_at (obj : pyval) (ks : list string) : option pyval :=
  match ks with
  | [] => Some obj
  | k :: ks' =>
      match getattr obj k with
      | Some v => attr_at v ks'
      | None => None
      end
  end.

(** The declared type of the field reached by the same path. *)
Fixpoint field_type_at (t : ty) (ks : list string) : option ty :=
  match ks with
  | [] => Some t
  | k :: ks' =>
      match field_decl (base t) k with
      | Some (ft, _) => field_type_at ft ks'
      | None => None
      end
  end.

(** The two loops of [merge_node], by name. *)
Definition merge_items (X : externals) (td : ty) :=
  fix go (acc : list (string * node)) (l : list (string * node))
    : result (list (string * node)) :=
    match l with
    | [] => ret acc
    | (k, sk) :: l' =>
        dk <-- match dict_get k acc with
               | Some dk => ret dk
               | None =>
                   if is_structured td then
                     omegaconf_error ConfigKeyError
                       ("Key '" +:+ k +:+ "' not in struct")
                   else om.blank X (element_type td) sk
               end ;;
        r <-- om.merge_node X dk sk ;;
        go (dict_set k r acc) l'
    end.

Definition merge_list_items (X : externals) (tl : ty) :=
  fix go (l : list node) : result (list node) :=
    match l with
    | [] => ret []
    | si :: l' =>
        b <-- om.blank X (element_type tl) si ;;
        r <-- om.merge_node X b si ;;
        rest <-- go l' ;;
        ret (r :: rest)
    end.

(** The loop of [structured] over the fields of a class, by name. *)
Definition structured_field (X : externals) (ft : ty) (d : default_spec)
  : result node :=
  match d with
  | Default s => om.wrap_scalar X ft s
  | DefaultFactoryList =>
      match base ft with
      | TList _ | TAny => ret (NList ft [])
      | _ => omegaconf_error ValidationError "Invalid value assigned: list"
      end
  | DefaultFactoryClass => n <-- om.structured X ft ;; ret (retype ft n)
  | NoDefault => ret (NMissing ft)
  end.

Definition structured_fields (X : externals) :=
  fix go (fs : list (string * (ty * default_spec)))
    : result (list (string * node)) :=
    match fs with
    | [] => ret []
    | (f, (ft, d)) :: fs' =>
        n <-- structured_field X ft d ;;
        rest <-- go fs' ;;
        ret ((f, n) :: rest)
    end.

(** The loop of the generated [__init__] over the fields, by name. *)
Definition init_fields (name : string) (kwargs : list (string * pyval)) :=
  fix go (fs : list (string * (ty * default_spec)))
    : result (list (string * pyval)) :=
    match fs with
    | [] => ret []
    | (f, (ft, d)) :: fs' =>
        v <-- match dict_get f kwargs with
              | Some v => ret v
              | None =>
                  match d with
                  | Default s => ret (VScalar s)
                  | DefaultFactoryList => ret (VList [])
                  | DefaultFactoryClass => dataclass_init ft []
                  | NoDefault =>
                      raise (TypeError
                        (name +:+ ".__init__() missing 1 required positional argument: '"
                         +:+ f +:+ "'"))
                  end
              end ;;
        rest <-- go fs' ;;
        ret ((f, v) :: rest)
    end.

(** The two loops of [to_object_node], by name. *)
Definition to_object_items (X : externals) (reg : registry) (root : node) :=
  fix go (l : list (string * node)) : result (list (string * pyval)) :=
    match l with
    | [] => ret []
    | (k, c) :: l' =>
        v <-- om.to_object_node X reg root c ;;
        r <-- go l' ;;
        ret ((k, v) :: r)
    end.

Definition to_object_list (X : externals) (reg : registry) (root : node) :=
  fix go (l : list node) : result (list pyval) :=
    match l with
    | [] => ret []
    | c :: l' =>
        v <-- om.to_object_node X reg root c ;;
        r <-- go l' ;;
        ret (v :: r)
    end.

(** The entries of a mapping declared [td] sit rightly in their slots. *)
Definition entries_ok (td : ty) (items : list (string * node)) : Prop :=
  forall k c, (k, c) ∈ items ->
    node_ok c /\ exists st, child_type td k = Some st /\ slot_ok st c.

(** What the merge of one node is to keep: the tree well formed, and the
    annotation of a slot that is not declared [Any]. *)
Definition merge_keeps (X : externals) (src : node) : Prop :=
  forall d r,
    node_ok d -> node_ok src -> om.merge_node X d src = inr r ->
    node_ok r /\ (base (type_of d) = TAny \/ type_of r = type_of d).

(** ** Looking a dotted key up *)

(** [cfg.k1.k2...] on the tree, through mappings. *)
Fixpoint node_at (n : node) (ks : list string) : option node :=
  match ks with
  | [] => Some n
  | k :: ks' =>
      match n with
      | NDict _ items =>
          match dict_get k items with
          | Some c => node_at c ks'
          | None => None
          end
      | _ => None
      end
  end.

(** A scalar that is stored as it is: neither the missing marker nor an
    interpolation. *)
Definition literal (s : scalar) : bool :=
  match s with
  | SStr str =>
      negb (String.eqb str "???") && negb (PyStr.contains_sub "${" str)
  | _ => true
  end.

(** Two key paths of which neither leads through the other. *)
Fixpoint disjoint_paths (p q : list string) : bool :=
  match p, q with
  | k :: p', k' :: q' => if String.eqb k k' then disjoint_paths p' q' else true
  | _, _ => false
  end.


(** No entry of the dot-list addresses the key path, a part of it, or
    something below it. *)
Definition leaves_alone (X : externals) (dotlist : list string)
    (ks : list string) : Prop :=
  forall o k v, o ∈ dotlist -> om.parse_dotlist_entry X o = inr (k, v) ->
    disjoint_paths (split_key X k) ks = true.

(** ** The entry point, [main.py]

    [sys.argv] is the program name followed by the arguments (the
    interpreter always supplies the name when it runs a script).  Standard
    output is the list of the objects printed, in order: [print(cfg)] adds
    [cfg] to it (the text written is [repr(cfg)], which is not spelled
    out). *)

(** [[f(s) for s in l]] with an [f] that may raise. *)
Fixpoint map_result {A B} (f : A -> result B) (l : list A) : result (list B) :=
  match l with
  | [] => ret []
  | a :: l' => b <-- f a ;; r <-- map_result f l' ;; ret (b :: r)
  end.

Section Main.
Variable X : externals.
Variable fs : filesystem.
Variable read : string -> file_state.
Variable reg : registry.

(** [main(cfg)]: what it prints. *)
Definition main (cfg : pyval) : list pyval := [cfg].

(** The [__main__] block: the usage error, or what the run prints. *)
Definition script (prog : string) (args : list string)
  : result (list pyval) :=
  match args with
  | [] => raise (CliError ("Usage: " +:+ prog +:+ " [CONFIG_PATH] [OPTIONS]"))
  | yaml_path :: args_list =>
      opts <-- map_result clean_opt args_list ;;
      cfg <-- load X fs read reg ConfigClassC yaml_path (Some opts) None true ;;
      ret (main cfg)
  end.
End Main.

(** ** Which calls reach the filesystem *)

(** The elements of a list up to and including the first that satisfies
    [f]: how far a loop gets that stops there. *)
Fixpoint upto {A} (f : A -> bool) (l : list A) : list A :=
  match l with
  | [] => []
  | a :: l' => if f a then [a] else a :: upto f l'
  end.

(** ** A sample document with sections *)

Module Sections.

(** [sectioned.yaml] holds two sections, [section.yaml] just the first;
    [null_a.yaml] sets [a] to null and [list.yaml] is a list. *)
Definition read (p : string) : file_state :=
  if String.eqb p "sectioned.yaml" then
    Parsed (VDict [("training", VDict [("a", VScalar (SInt 5))]);
                   ("serving", VDict [("a", VScalar (SInt 9))])])
  else if String.eqb p "section.yaml" then
    Parsed (VDict [("a", VScalar (SInt 5))])
  else if String.eqb p "null_a.yaml" then
    Parsed (VDict [("a", VNone)])
  else if String.eqb p "list.yaml" then
    Parsed (VList [VScalar (SStr "a")])
  else Missing.

End Sections.

(** ** The loop of [asdict_inner], by name *)

(** The entries [asdict_inner] builds for a mapping or an instance. *)
Definition asdict_entries :=
  fix go (l : list (string * pyval)) : list (string * pyval) :=
    match l with
    | [] => []
    | (f, v) :: l' => (f, asdict_inner v) :: go l'
    end.

(** ** [StrEnum] *)

(** [StrEnum.__str__]: the value of the member named [m]; [None] if the
    class has no such member. *)
Definition StrEnum_str (e : enum_decl) (m : string) : option string :=
  dict_get m (enum_members e).

(** [StrEnum.__repr__]: [str(self)] between single quotes. *)
Definition StrEnum_repr (e : enum_decl) (m : string) : option string :=
  match StrEnum_str e m with
  | Some v => Some ("'" +:+ v +:+ "'")
  | None => None
  end.

(** * Properties *)

(** ** String primitives *)

Section PyStrFacts.
Import PyStr.
Variable c : ascii.

Lemma append_cons (a : ascii) (s t : string) :
  String a s +:+ t = String a (s +:+ t).
Proof. reflexivity. Qed.

Lemma contains_app a b :
  contains c (a +:+ b) = contains c a || contains c b.
Proof.
  induction a as [|x a IH]; simpl; [done|].
  destruct (Ascii.eqb x c); [done|apply IH].
Qed.

Lemma contains_cons_same s : contains c (String c s) = true.
Proof. simpl. by rewrite Ascii.eqb_refl. Qed.

Lemma split1_absent s : contains c s = false -> split1 c s = [s].
Proof.
  induction s as [|x s IH]; simpl; [done|].
  destruct (Ascii.eqb x c); [done|].
  intros H. by rewrite (IH H).
Qed.

Lemma split1_app k v :
  contains c k = false -> split1 c (k +:+ String c v) = [k; v].
Proof.
  induction k as [|x k IH]; simpl.
  - by rewrite Ascii.eqb_refl.
  - destruct (Ascii.eqb x c); [done|].
    intros H. by rewrite (IH H).
Qed.

Lemma contains_split s :
  contains c s = true ->
  exists k v, s = k +:+ String c v /\ contains c k = false.
Proof.
  induction s as [|x s IH]; simpl; [done|].
  destruct (Ascii.eqb x c) eqn:E.
  - intros _. apply Ascii.eqb_eq in E as ->.
    by exists EmptyString, s.
  - intros H. destruct (IH H) as (k & v & -> & Hk).
    exists (String x k), v. simpl. by rewrite E.
Qed.

Lemma lstrip_decomp s : exists n, s = repeat c n +:+ lstrip c s.
Proof.
  induction s as [|x s [n IH]]; simpl.
  - by exists 0.
  - destruct (Ascii.eqb x c) eqn:E.
    + apply Ascii.eqb_eq in E as ->. exists (S n). simpl. rewrite append_cons. by f_equal.
    + by exists 0.
Qed.

Lemma lstrip_head s r : lstrip c s <> String c r.
Proof.
  induction s as [|x s IH]; simpl; [done|].
  destruct (Ascii.eqb x c) eqn:E; [done|].
  intros [= -> _]. by rewrite Ascii.eqb_refl in E.
Qed.

Lemma append_empty_r s : s +:+ "" = s.
Proof. induction s as [|a s IH]; [reflexivity|]. rewrite append_cons. by f_equal. Qed.

Lemma append_assoc (s1 s2 s3 : string) :
  (s1 +:+ s2) +:+ s3 = s1 +:+ (s2 +:+ s3).
Proof.
  induction s1 as [|a s1 IH]; [reflexivity|]. rewrite !append_cons. by f_equal.
Qed.

Lemma repeat_snoc n : repeat c n +:+ String c "" = String c (repeat c n).
Proof.
  induction n as [|n IH]; [reflexivity|]. simpl. rewrite append_cons. by f_equal.
Qed.

Lemma rstrip_decomp s : exists m, s = rstrip c s +:+ repeat c m.
Proof.
  induction s as [|x s [m IH]]; simpl.
  - by exists 0.
  - destruct (rstrip c s) eqn:R.
    + destruct (Ascii.eqb x c) eqn:E.
      * apply Ascii.eqb_eq in E as ->. exists (S m).
        change (String c s = String c (repeat c m)). f_equal. exact IH.
      * exists m. rewrite append_cons. f_equal. exact IH.
    + exists m. rewrite append_cons. f_equal. exact IH.
Qed.

Lemma append_eq_empty (a b : string) : a +:+ b = "" -> a = "" /\ b = "".
Proof. destruct a; simpl; [done|discriminate]. Qed.

Lemma rstrip_last s r : rstrip c s <> r +:+ String c "".
Proof.
  revert r. induction s as [|x s IH]; intros r; simpl.
  - destruct r; discriminate.
  - destruct (rstrip c s) as [|y t] eqn:R.
    + destruct (Ascii.eqb x c) eqn:E.
      * destruct r; discriminate.
      * destruct r as [|z r]; simpl.
        -- intros [= ->]. by rewrite Ascii.eqb_refl in E.
        -- intros [= _ H]. destruct r; discriminate.
    + destruct r as [|z r]; simpl; [discriminate|].
      intros [= _ H]. by apply (IH r).
Qed.

Lemma rstrip_head s :
  (forall r, s <> String c r) -> forall r, rstrip c s <> String c r.
Proof.
  destruct s as [|x s]; simpl; [done|].
  intros H r.
  assert (x <> c) as Hx by (intros ->; by apply (H s)).
  destruct (rstrip c s); [|congruence].
  destruct (Ascii.eqb x c); [done|congruence].
Qed.

Lemma lstrip_absent s : contains c s = false -> lstrip c s = s.
Proof. destruct s as [|x s]; simpl; [done|]. by destruct (Ascii.eqb x c). Qed.

Lemma rstrip_absent s : contains c s = false -> rstrip c s = s.
Proof.
  induction s as [|x s IH]; simpl; [done|].
  destruct (Ascii.eqb x c); [done|].
  intros H. rewrite (IH H). by destruct s.
Qed.

Lemma strip_absent s : contains c s = false -> strip c s = s.
Proof.
  intros H. unfold strip. rewrite (lstrip_absent _ H). by apply rstrip_absent.
Qed.

Lemma replace_absent d s : contains c s = false -> replace c d s = s.
Proof.
  induction s as [|x s IH]; simpl; [done|].
  destruct (Ascii.eqb x c); [done|].
  intros H. by rewrite (IH H).
Qed.

Lemma replace_removes d s : d <> c -> contains c (replace c d s) = false.
Proof.
  intros Hd. induction s as [|x s IH]; simpl; [done|].
  destruct (Ascii.eqb x c) eqn:E.
  - apply Ascii.eqb_neq in Hd. by rewrite Hd.
  - by rewrite E.
Qed.
End PyStrFacts.

Section PyStrFacts2.
Import PyStr.
Variables c d : ascii.

(** Stripping [d] or rewriting [d] never introduces a [c]. *)
Lemma contains_lstrip s : contains c s = false -> contains c (lstrip d s) = false.
Proof.
  induction s as [|x s IH]; simpl; [done|].
  destruct (Ascii.eqb x c) eqn:E; [done|].
  intros H. destruct (Ascii.eqb x d); [by apply IH|]. simpl. by rewrite E.
Qed.

Lemma contains_rstrip s : contains c s = false -> contains c (rstrip d s) = false.
Proof.
  induction s as [|x s IH]; simpl; [done|].
  destruct (Ascii.eqb x c) eqn:E; [done|].
  intros H. specialize (IH H).
  destruct (rstrip d s) eqn:R.
  - destruct (Ascii.eqb x d); simpl; [done|]. by rewrite E.
  - simpl in *. by rewrite E.
Qed.

Lemma contains_replace e s :
  e <> c -> contains c s = false -> contains c (replace d e s) = false.
Proof.
  intros He. induction s as [|x s IH]; simpl; [done|].
  destruct (Ascii.eqb x c) eqn:E; [done|].
  intros H. destruct (Ascii.eqb x d).
  - apply Ascii.eqb_neq in He. rewrite He. by apply IH.
  - rewrite E. by apply IH.
Qed.
End PyStrFacts2.

(** ** [clean_opt] *)

(** The split never fails: after the optional [=True] suffix the argument
    always holds an [=], and the key is what precedes the first one. *)
Lemma clean_opt_split arg :
  exists key val,
    (if PyStr.contains "=" arg then arg = key +:+ "=" +:+ val
     else key = arg /\ val = "True")
    /\ PyStr.contains "=" key = false
    /\ clean_opt arg
       = inr (PyStr.replace "-" "_" (PyStr.strip "-" key) +:+ "=" +:+ val).
Proof.
  unfold clean_opt. destruct (PyStr.contains "=" arg) eqn:E; simpl negb; cbv iota.
  - destruct (contains_split _ _ E) as (k & v & -> & Hk).
    exists k, v. split; [done|]. split; [done|].
    by rewrite (split1_app _ _ _ Hk).
  - exists arg, "True". split; [done|]. split; [done|].
    change (arg +:+ "=True") with (arg +:+ String "=" "True").
    by rewrite (split1_app _ _ _ E).
Qed.

(** [strip] peels a run of the character off each end and nothing else. *)
Lemma strip_decomp c s :
  exists n m,
    s = PyStr.repeat c n +:+ PyStr.strip c s +:+ PyStr.repeat c m
    /\ (forall r, PyStr.strip c s <> String c r)
    /\ (forall r, PyStr.strip c s <> r +:+ String c "").
Proof.
  destruct (lstrip_decomp c s) as [n Hn].
  destruct (rstrip_decomp c (PyStr.lstrip c s)) as [m Hm].
  exists n, m. unfold PyStr.strip. split; [|split].
  - rewrite <- Hm. exact Hn.
  - apply rstrip_head, lstrip_head.
  - apply rstrip_last.
Qed.

(** The claim's reading and the code part ways on a key that ends in a
    dash: [str.strip] removes trailing dashes too. *)
Lemma clean_opt_trailing_dash_differs :
  clean_opt "a-=b" = inr "a=b"
  /\ clean_opt_spec "a-=b" = "a_=b"
  /\ clean_opt "a-=b" <> inr (clean_opt_spec "a-=b")
  /\ clean_opt "a-=b" <> inr "a-=b".
Proof. repeat split; vm_compute; congruence. Qed.

(** C4 (as amended): [clean_opt] takes the text before the first "=" as
    the key (the whole argument, with value "True", when there is no "="),
    removes the dashes at both ends of the key, turns every dash left inside
    it into an underscore, and keeps the value unchanged. *)
Theorem clean_opt_normalises :
  (forall arg, exists key val n m core,
      (if PyStr.contains "=" arg then arg = key +:+ "=" +:+ val
       else key = arg /\ val = "True")
      /\ PyStr.contains "=" key = false
      /\ key = PyStr.repeat "-" n +:+ core +:+ PyStr.repeat "-" m
      /\ (forall r, core <> String "-" r)
      /\ (forall r, core <> r +:+ "-")
      /\ clean_opt arg = inr (PyStr.replace "-" "_" core +:+ "=" +:+ val))
  /\ clean_opt "foo" = inr "foo=True"
  /\ clean_opt "--list-b=x,y" = inr "list_b=x,y".
Proof.
  split; [|split; reflexivity].
  intros arg. destruct (clean_opt_split arg) as (key & val & Hsplit & Hkey & Hres).
  destruct (strip_decomp "-" key) as (n & m & Hdec & Hhead & Hlast).
  exists key, val, n, m, (PyStr.strip "-" key). repeat split; done.
Qed.

(** C8: [clean_opt] is idempotent; its result always holds an "=", and the
    key before it is free of dashes. *)
Theorem clean_opt_idempotent arg :
  exists out key val,
    clean_opt arg = inr out
    /\ out = key +:+ "=" +:+ val
    /\ PyStr.contains "-" key = false
    /\ PyStr.contains "=" key = false
    /\ PyStr.contains "=" out = true
    /\ clean_opt out = inr out.
Proof.
  destruct (clean_opt_split arg) as (key & val & _ & Hkey & Hres).
  set (key' := PyStr.replace "-" "_" (PyStr.strip "-" key)) in *.
  assert (PyStr.contains "-" key' = false) as Hdash
    by (by apply replace_removes).
  assert (PyStr.contains "=" key' = false) as Heq.
  { apply contains_replace; [done|].
    by apply contains_rstrip, contains_lstrip. }
  assert (PyStr.contains "=" (key' +:+ "=" +:+ val) = true) as Hout.
  { rewrite contains_app, Heq. apply contains_cons_same. }
  exists (key' +:+ "=" +:+ val), key', val.
  repeat split; try done.
  unfold clean_opt. rewrite Hout. simpl negb. cbv iota.
  change (key' +:+ "=" +:+ val) with (key' +:+ String "=" val).
  rewrite (split1_app _ _ _ Heq). simpl.
  by rewrite (strip_absent _ _ Hdash), (replace_absent _ _ _ Hdash).
Qed.

(** ** [is_url] *)

Lemma skip_scheme_decomp s :
  exists run, s = run +:+ skip_scheme s /\ str_forallb scheme_char run = true.
Proof.
  induction s as [|c s (run & IH & Hrun)]; simpl.
  - by exists "".
  - destruct (scheme_char c) eqn:E.
    + exists (String c run). rewrite ?append_cons. split; [by f_equal|].
      simpl. by rewrite E.
    + by exists "".
Qed.

Lemma skip_scheme_app run t :
  str_forallb scheme_char run = true ->
  skip_scheme (run +:+ t) = skip_scheme t.
Proof.
  induction run as [|c run IH]; [done|].
  simpl. intros [Hc Hrun]%andb_prop. rewrite ?append_cons. simpl.
  rewrite Hc. by apply IH.
Qed.

Lemma prefix_split p s :
  String.prefix p s = true <-> exists rest, s = p +:+ rest.
Proof.
  revert s. induction p as [|a p IH]; intros [|b s]; simpl.
  - split; [by exists ""|done].
  - split; [by exists (String b s)|done].
  - split; [done|]. intros [rest H]. discriminate H.
  - destruct (ascii_dec a b) as [->|Hab].
    + rewrite IH. split; intros [rest H]; exists rest.
      * rewrite ?append_cons. by f_equal.
      * rewrite ?append_cons in H. by injection H.
    + split; [done|]. intros [rest H]. rewrite ?append_cons in H.
      injection H as -> _. done.
Qed.

Lemma is_url_shape s : is_url s = true <-> url_shape s.
Proof.
  split.
  - destruct s as [|c s]; [done|]. simpl.
    intros [Hc H]%andb_prop.
    destruct (skip_scheme_decomp s) as (run & Hs & Hrun).
    apply prefix_split in H as [rest H]. rewrite H in Hs.
    exists (String c run), rest. rewrite ?append_cons. split; [by f_equal|].
    split; [done|]. simpl. by rewrite Hc.
  - intros (scheme & rest & -> & Hne & Hall).
    destruct scheme as [|c run]; [done|].
    simpl in Hall. apply andb_prop in Hall as [Hc Hrun].
    rewrite ?append_cons. simpl. rewrite Hc. simpl.
    rewrite (skip_scheme_app _ _ Hrun).
    change (skip_scheme _) with ("://" +:+ rest).
    apply prefix_split. by exists rest.
Qed.




(** ** [sorted] *)

Lemma str_le_alt a b : str_le a b <-> a = b \/ String_as_OT.lt a b.
Proof.
  unfold str_le, String.leb.
  destruct (String.compare a b) eqn:E.
  - apply String_as_OT.cmp_eq in E. tauto.
  - apply String_as_OT.cmp_lt in E. tauto.
  - split; [done|]. intros [->|H].
    + assert (String_as_OT.cmp b b = Eq) as H by (by apply String_as_OT.cmp_eq).
      unfold String_as_OT.cmp in H. congruence.
    + apply String_as_OT.cmp_lt in H. unfold String_as_OT.cmp in H. congruence.
Qed.

#[global] Instance str_le_total : Total str_le.
Proof. intros a b. apply String.leb_total. Qed.

#[global] Instance str_le_trans : Transitive str_le.
Proof.
  intros a b c [->|Hab]%str_le_alt [->|Hbc]%str_le_alt; apply str_le_alt; eauto.
  right. eapply String_as_OT.lt_trans; eauto.
Qed.

Lemma sorted_StronglySorted l : StronglySorted str_le (sorted l).
Proof. apply StronglySorted_merge_sort; apply _. Qed.

Lemma sorted_Permutation l : sorted l ≡ₚ l.
Proof. apply merge_sort_Permutation. Qed.

Lemma sorted_nil_iff l : sorted l = [] <-> l = [].
Proof.
  split.
  - intros H. apply Permutation_nil. rewrite <- H. apply sorted_Permutation.
  - by intros ->.
Qed.

(** ** The resolvers *)

Section ResolverFacts.
Variable fs : filesystem.

Lemma io_bind_glob {B} p (k : list string -> io B) log :
  io_bind (glob fs p) k log = k (fs_glob fs p) (log ++ [AccGlob p]).
Proof. reflexivity. Qed.


Lemma path_glob_loop_result validate_paths out paths log :
  snd (path_glob_loop fs validate_paths out paths log)
  = match (if validate_paths then find (no_match fs) paths else None) with
    | Some p =>
        inl (FileNotFoundError (p +:+ " does not match any files or dirs"))
    | None => inr (out ++ concat (map (fun p => sorted (fs_glob fs p)) paths))
    end.
Proof.
  revert out log. induction paths as [|p rest IH]; intros out log.
  - simpl. rewrite app_nil_r. by destruct validate_paths.
  - cbn [path_glob_loop]. rewrite io_bind_glob. cbn [find map concat].
    unfold no_match at 1.
    destruct (decide (fs_glob fs p = [])) as [Hp|Hp].
    + rewrite (bool_decide_eq_true_2 _ Hp).
      rewrite (bool_decide_eq_true_2 (sorted (fs_glob fs p) = []));
        [|by apply sorted_nil_iff].
      destruct validate_paths; cbn [andb]; [done|].
      rewrite IH. by rewrite app_assoc.
    + rewrite (bool_decide_eq_false_2 _ Hp).
      rewrite (bool_decide_eq_false_2 (sorted (fs_glob fs p) = []));
        [|by rewrite sorted_nil_iff].
      cbn [andb]. rewrite IH. by rewrite app_assoc.
Qed.




End ResolverFacts.

(** C5: [path_glob] returns, in argument order, the concatenation of each
    pattern's glob matches sorted lexicographically; with [validate_paths]
    on, the first pattern without a match raises the resolver's
    [FileNotFoundError] naming that pattern; with it off, such a pattern
    contributes nothing. *)
Theorem path_glob_spec (fs : filesystem) (validate_paths : bool)
    (paths : list string) :
  let matches := fun p => sorted (fs_glob fs p) in
  (forall p, StronglySorted str_le (matches p) /\ matches p ≡ₚ fs_glob fs p)
  /\ snd (run_io (path_glob fs validate_paths paths))
     = match (if validate_paths then find (no_match fs) paths else None) with
       | Some p =>
           inl (FileNotFoundError (p +:+ " does not match any files or dirs"))
       | None => inr (concat (map matches paths))
       end.
Proof.
  split.
  - intros p. split; [apply sorted_StronglySorted|apply sorted_Permutation].
  - unfold run_io, path_glob. by rewrite path_glob_loop_result.
Qed.


(** ** Dictionaries *)

Section DictFacts.
Context {V : Type}.
Implicit Types (d : list (string * V)) (k : string).

Lemma dict_get_None_keys k d : dict_get k d = None <-> k ∉ dict_keys d.
Proof.
  induction d as [|[k' v] d IH]; simpl.
  - split; [intros _; apply not_elem_of_nil|done].
  - rewrite not_elem_of_cons. destruct (String.eqb_spec k' k) as [->|Hne].
    + split; [done|]. by intros [? _].
    + rewrite IH. split; [|tauto]. intros H. split; [congruence|done].
Qed.

Lemma dict_set_keys k v d :
  dict_keys (dict_set k v d)
  = if dict_contains k d then dict_keys d else dict_keys d ++ [k].
Proof.
  unfold dict_contains. induction d as [|[k' v'] d IH]; simpl; [done|].
  destruct (String.eqb_spec k' k) as [->|Hne]; [done|]. simpl. rewrite IH.
  by destruct (dict_get k d).
Qed.

Lemma dict_set_NoDup k v d :
  NoDup (dict_keys d) -> NoDup (dict_keys (dict_set k v d)).
Proof.
  intros H. rewrite dict_set_keys. unfold dict_contains.
  destruct (dict_get k d) eqn:E; [done|].
  apply NoDup_app. split; [done|]. split; [|apply NoDup_singleton].
  intros x Hx ->%list_elem_of_singleton. by apply dict_get_None_keys in E.
Qed.

Lemma dict_of_pairs_NoDup (pairs : list (string * V)) :
  NoDup (dict_keys (dict_of_pairs pairs)).
Proof.
  unfold dict_of_pairs.
  assert (forall acc, NoDup (dict_keys acc) ->
    NoDup (dict_keys (fold_left (fun d kv => dict_set kv.1 kv.2 d) pairs acc)))
    as H.
  { induction pairs as [|[k v] l IH]; intros acc Hacc; simpl; [done|].
    apply IH. by apply dict_set_NoDup. }
  apply H. constructor.
Qed.

Lemma elem_of_dict_keys (kv : string * V) d : kv ∈ d -> kv.1 ∈ dict_keys d.
Proof. intros Hin. unfold dict_keys. apply list_elem_of_fmap. by exists kv. Qed.

Section Filter.
Context (Q : string * V -> Prop) `{!forall x, Decision (Q x)}.

Lemma filter_all_id d : (forall kv, kv ∈ d -> Q kv) -> filter Q d = d.
Proof.
  induction d as [|kv d IH]; intros Hall; [done|].
  rewrite filter_cons_True by (apply Hall; left).
  f_equal. apply IH. intros kv' Hkv'. apply Hall. by right.
Qed.

Lemma filter_keys_subset d k :
  k ∈ dict_keys (filter Q d) -> k ∈ dict_keys d.
Proof.
  induction d as [|kv d IH]; [by intros ?%elem_of_nil|].
  rewrite filter_cons. simpl. destruct (decide (Q kv)); simpl.
  - rewrite !elem_of_cons. intros [->|Hin]; [tauto|]. right. by apply IH.
  - rewrite elem_of_cons. intros Hin. right. by apply IH.
Qed.

Lemma filter_keys_NoDup d :
  NoDup (dict_keys d) -> NoDup (dict_keys (filter Q d)).
Proof.
  induction d as [|kv d IH]; [done|]. simpl.
  intros [Hk Hd]%NoDup_cons. rewrite filter_cons.
  destruct (decide (Q kv)); [|by apply IH]. simpl.
  apply NoDup_cons. split; [|by apply IH].
  intros Hin%filter_keys_subset. done.
Qed.

Lemma dict_get_filter_keep k d :
  (forall v, Q (k, v)) -> dict_get k (filter Q d) = dict_get k d.
Proof.
  intros Hk. induction d as [|[k' v] d IH]; [done|].
  rewrite filter_cons. simpl.
  destruct (String.eqb_spec k' k) as [->|Hne].
  - rewrite decide_True by done. simpl. by rewrite String.eqb_refl.
  - destruct (decide (Q (k', v))); [|done]. simpl.
    by destruct (String.eqb_spec k' k).
Qed.

Lemma dict_get_filter_drop k d :
  (forall v, ~ Q (k, v)) -> dict_get k (filter Q d) = None.
Proof.
  intros Hk. induction d as [|[k' v] d IH]; [done|].
  rewrite filter_cons.
  destruct (decide (Q (k', v))) as [Hq|Hq]; [|done]. simpl.
  destruct (String.eqb_spec k' k) as [->|Hne]; [|done].
  by destruct (Hk v).
Qed.
End Filter.

Lemma dict_del_filter k d :
  NoDup (dict_keys d) -> dict_del k d = filter (fun kv => kv.1 <> k) d.
Proof.
  induction d as [|[k' v] d IH]; simpl; [done|].
  intros [Hk' Hd]%NoDup_cons.
  destruct (String.eqb_spec k' k) as [->|Hne].
  - rewrite filter_cons_False by (simpl; tauto).
    symmetry. apply filter_all_id.
    intros kv Hkv%elem_of_dict_keys Heq. by rewrite Heq in Hkv.
  - rewrite filter_cons_True by done. f_equal. by apply IH.
Qed.

Lemma dict_absent_filter k d :
  dict_contains k d = false -> filter (fun kv => kv.1 <> k) d = d.
Proof.
  unfold dict_contains. destruct (dict_get k d) eqn:E; [done|]. intros _.
  apply dict_get_None_keys in E.
  apply filter_all_id. intros kv Hkv%elem_of_dict_keys Heq.
  by rewrite Heq in Hkv.
Qed.
End DictFacts.

(** ** [asdict] *)

Lemma asdict_exclude_loop_filter out exclude :
  NoDup (dict_keys out) ->
  asdict_exclude_loop out exclude = filter (fun kv => kv.1 ∉ exclude) out.
Proof.
  unfold asdict_exclude_loop. revert out.
  induction exclude as [|name names IH]; intros out Hout; simpl.
  - symmetry. apply filter_all_id. intros kv _. apply not_elem_of_nil.
  - assert ((if dict_contains name out then dict_del name out else out)
            = filter (fun kv => kv.1 <> name) out) as ->.
    { destruct (dict_contains name out) eqn:E.
      - by apply dict_del_filter.
      - symmetry. by apply dict_absent_filter. }
    rewrite IH by (by apply filter_keys_NoDup).
    rewrite list_filter_filter. apply list_filter_iff.
    intros [k v]. simpl. rewrite not_elem_of_cons. tauto.
Qed.

Lemma dataclasses_asdict_instance cls attrs :
  exists out,
    dataclasses_asdict (VObj cls attrs) = inr out /\ NoDup (dict_keys out).
Proof.
  unfold dataclasses_asdict. simpl. eexists. split; [reflexivity|].
  apply dict_of_pairs_NoDup.
Qed.

(** C10: [asdict(exclude)] is [asdict()] without the top-level entries
    whose names are in [exclude]; every other entry, with everything nested
    under it, is kept as it is and in place, and a name that is not a key
    is passed over. *)
Theorem asdict_exclude_frame cls (attrs : list (string * pyval))
    (exclude : list string) :
  exists out,
    asdict (VObj cls attrs) None = inr out
    /\ asdict (VObj cls attrs) (Some exclude)
       = inr (filter (fun kv => kv.1 ∉ exclude) out)
    /\ forall k,
         dict_get k (filter (fun kv => kv.1 ∉ exclude) out)
         = if decide (k ∈ exclude) then None else dict_get k out.
Proof.
  destruct (dataclasses_asdict_instance cls attrs) as (out & Hout & Hnd).
  exists out. unfold asdict. rewrite Hout. simpl.
  split; [done|]. split.
  - by rewrite asdict_exclude_loop_filter.
  - intros k. destruct (decide (k ∈ exclude)).
    + apply dict_get_filter_drop. simpl. tauto.
    + by apply dict_get_filter_keep.
Qed.

(** ** [ConfigClassB] *)

(** C9: [label] is annotated [str], its default is the float [0.0], and
    [ConfigClassB()] stores that float, which is no [str]. *)
Theorem ConfigClassB_label_default :
  field_decl ConfigClassB "label"
    = Some (TPrim PStr, Default (SFloat (S754_zero false)))
  /\ (exists obj,
        dataclass_init ConfigClassB [] = inr obj
        /\ getattr obj "label" = Some (VScalar (SFloat (S754_zero false))))
  /\ scalar_has_type (TPrim PStr) (SFloat (S754_zero false)) = false
  /\ (forall s, SFloat (S754_zero false) <> SStr s).
Proof.
  split; [reflexivity|]. split; [|split; [reflexivity|done]].
  eexists. split; reflexivity.
Qed.

(** ** Induction over annotations and over configuration trees *)

Lemma ty_ind' (P : ty -> Prop) :
  P TAny ->
  (forall p, P (TPrim p)) ->
  (forall e, P (TEnum e)) ->
  (forall t, P t -> P (TOptional t)) ->
  (forall t, P t -> P (TList t)) ->
  (forall t, P t -> P (TDict t)) ->
  (forall name fields,
      Forall (fun f => P f.2.1) fields -> P (TClass name fields)) ->
  forall t, P t.
Proof.
  intros HAny HPrim HEnum HOpt HList HDict HClass.
  fix IH 1. intros [| p | e | t | t | t | name fields].
  - exact HAny.
  - apply HPrim.
  - apply HEnum.
  - apply HOpt, IH.
  - apply HList, IH.
  - apply HDict, IH.
  - apply HClass.
    induction fields as [|[f [ft d]] fields IHf]; constructor.
    + apply IH.
    + exact IHf.
Qed.

Lemma pyval_ind' (P : pyval -> Prop) :
  (forall s, P (VScalar s)) ->
  (forall l, Forall P l -> P (VList l)) ->
  (forall d, Forall (fun kv => P kv.2) d -> P (VDict d)) ->
  (forall cls attrs, P (VObj cls attrs)) ->
  forall v, P v.
Proof.
  intros HS HL HD HO.
  fix IH 1. intros [s | l | d | cls attrs].
  - apply HS.
  - apply HL. induction l as [|x l IHl]; constructor; [apply IH|exact IHl].
  - apply HD. induction d as [|[k x] d IHd]; constructor; [apply IH|exact IHd].
  - apply HO.
Qed.

Lemma node_ind' (P : node -> Prop) :
  (forall t s, P (NVal t s)) ->
  (forall t, P (NMissing t)) ->
  (forall t s, P (NInterp t s)) ->
  (forall t items, Forall (fun kn => P kn.2) items -> P (NDict t items)) ->
  (forall t items, Forall P items -> P (NList t items)) ->
  forall n, P n.
Proof.
  intros HVal HMissing HInterp HDict HList.
  fix IH 1. intros [t s | t | t s | t items | t items].
  - apply HVal.
  - apply HMissing.
  - apply HInterp.
  - apply HDict. induction items as [|[k c] items IHi]; constructor.
    + apply IH.
    + exact IHi.
  - apply HList. induction items as [|c items IHi]; constructor.
    + apply IH.
    + exact IHi.
Qed.

(** ** Which exceptions the library raises *)

Lemma library_error_omegaconf k msg :
  library_error (OmegaConfBaseException k msg).
Proof. by left. Qed.

Lemma library_error_not_modelled w : library_error (NotModelled w).
Proof. right. by exists w. Qed.

#[local] Hint Resolve library_error_omegaconf library_error_not_modelled : core.

(** Peel one [bind] off a failing computation. *)
Lemma bind_inl {A B} (m : result A) (k : A -> result B) e :
  bind m k = inl e -> m = inl e \/ exists a, m = inr a /\ k a = inl e.
Proof. destruct m as [e'|a]; simpl; [intros [= ->]; by left|]. right. by exists a. Qed.

Lemma bind_inr {A B} (m : result A) (k : A -> result B) b :
  bind m k = inr b -> exists a, m = inr a /\ k a = inr b.
Proof. destruct m as [e'|a]; simpl; [done|]. by exists a. Qed.

Section LibraryErrors.
Variable X : externals.

Lemma enum_convert_error e s err :
  om.enum_convert e s = inl err -> library_error err.
Proof.
  destruct s; simpl; try (intros [= <-]; by auto).
  - destruct (dict_contains _ _); [done|]. intros [= <-]. auto.
  - destruct (_ && _); [done|]. intros [= <-]. auto.
Qed.

Lemma convert_prim_error p s err :
  om.convert_prim X p s = inl err -> library_error err.
Proof.
  unfold om.convert_prim.
  destruct p, s; try done; destruct (coerce X _ _); try done;
    intros [= <-]; auto.
Qed.

Lemma validate_value_error t s err :
  om.validate_value X t s = inl err -> library_error err.
Proof.
  unfold om.validate_value.
  destruct s.
  1: { destruct (is_optional t); [done|]. intros [= <-]. auto. }
  all: destruct (base t);
    eauto using convert_prim_error, enum_convert_error;
    try done; intros [= <-]; auto.
Qed.

Lemma validate_scalar_error t s err :
  om.validate_scalar X t s = inl err -> library_error err.
Proof.
  unfold om.validate_scalar. intros [H|(a & _ & H)]%bind_inl; [|done].
  by eapply validate_value_error.
Qed.

Lemma wrap_scalar_error t s err :
  om.wrap_scalar X t s = inl err -> library_error err.
Proof.
  unfold om.wrap_scalar. destruct s; try apply validate_scalar_error.
  destruct (String.eqb _ _); [done|].
  destruct (PyStr.contains_sub _ _); [done|]. apply validate_scalar_error.
Qed.

Lemma structured_error t err :
  om.structured X t = inl err -> library_error err.
Proof.
  revert err. induction t as [| | | t IH | | | name fields IH] using ty_ind';
    intros err; simpl; try (intros [= <-]; by auto).
  - intros [H|(a & _ & H)]%bind_inl; [by apply IH|done].
  - intros [H|(a & _ & H)]%bind_inl; [|done].
    revert err H. induction IH as [|[f [ft d]] fields Hft _ IHf]; intros err; [done|].
    simpl in Hft.
    intros [H|(n & _ & [H|(r & _ & H)]%bind_inl)]%bind_inl; [|by apply IHf|done].
    destruct d.
    + by eapply wrap_scalar_error.
    + destruct (base ft); try done; injection H as <-; auto.
    + apply bind_inl in H as [H|(a & _ & H)]; [by apply Hft|done].
    + done.
Qed.
End LibraryErrors.

Section LibraryErrors2.
Variable X : externals.

#[local] Hint Resolve library_error_omegaconf library_error_not_modelled : core.

Lemma wrap_scalar_any s : exists n, om.wrap_scalar X TAny s = inr n.
Proof.
  unfold om.wrap_scalar, om.validate_scalar, om.validate_value.
  destruct s; simpl; eauto.
  destruct (String.eqb _ _); [by eauto|].
  destruct (PyStr.contains_sub _ _); by eauto.
Qed.

(** [create] fails on nothing but a dataclass instance in the data. *)
Lemma create_not_modelled v err :
  om.create X v = inl err -> exists what, err = NotModelled what.
Proof.
  revert err. induction v as [s | l IH | d IH | cls attrs] using pyval_ind';
    intros err; simpl.
  - destruct (wrap_scalar_any s) as [n ->]. done.
  - intros [H|(a & _ & H)]%bind_inl; [|done].
    revert err H. induction IH as [|x l Hx _ IHl]; intros err; [done|].
    intros [H|(n & _ & [H|(r & _ & H)]%bind_inl)]%bind_inl;
      [by apply Hx|by apply IHl|done].
  - intros [H|(a & _ & H)]%bind_inl; [|done].
    revert err H. induction IH as [|[k x] l Hx _ IHl]; intros err; [done|].
    simpl in Hx.
    intros [H|(n & _ & [H|(r & _ & H)]%bind_inl)]%bind_inl;
      [by apply Hx|by apply IHl|done].
  - intros [= <-]. by eexists.
Qed.


Lemma blank_error et src err : om.blank X et src = inl err -> library_error err.
Proof.
  unfold om.blank. destruct (_ && _); [apply structured_error|done].
Qed.

Lemma expand_error d err : om.expand X d = inl err -> library_error err.
Proof.
  destruct d as [t [] | t | t s | |]; simpl; try done.
  - destruct (base t); try done. apply structured_error.
  - destruct (base t); try done. apply structured_error.
  - intros [= <-]. auto.
Qed.

Lemma merge_node_error src : forall d err,
  om.merge_node X d src = inl err -> library_error err.
Proof.
  induction src as [t s | t | t s | t sitems IH | t sitems IH] using node_ind';
    intros d err; simpl.
  - apply validate_scalar_error.
  - done.
  - done.
  - intros [H|(d' & _ & H)]%bind_inl; [by eapply expand_error|].
    destruct d' as [t' s' | t' | t' s' | td ditems | tl ditems];
      try (destruct (base _); try done; injection H as <-; by auto).
    + apply bind_inl in H as [H|(a & _ & H)]; [|done].
      revert ditems err H.
      induction IH as [|[k sk] l Hsk _ IHl]; intros acc err; [done|].
      simpl in Hsk.
      intros [H|(dk & _ & [H|(r & _ & H)]%bind_inl)]%bind_inl.
      * destruct (dict_get k acc); [done|].
        destruct (is_structured td); [injection H as <-; auto|].
        by eapply blank_error.
      * by eapply Hsk.
      * by eapply IHl.
    + injection H as <-. auto.
  - intros [H|(d' & _ & H)]%bind_inl; [by eapply expand_error|].
    destruct d' as [t' s' | t' | t' s' | td ditems | tl ditems];
      try (destruct (base _); try done; injection H as <-; by auto).
    + injection H as <-. auto.
    + apply bind_inl in H as [H|(a & _ & H)]; [|done].
      revert err H.
      induction IH as [|si l Hsi _ IHl]; intros err; [done|].
      intros [H|(b & _ & [H|(r & _ & [H|(rest & _ & H)]%bind_inl)]%bind_inl)]%bind_inl.
      * by eapply blank_error.
      * by eapply Hsi.
      * by eapply IHl.
      * done.
Qed.

(** A successful [merge] is the merge of two mappings or two lists (or of a
    container into a target that is none). *)
Lemma merge_inr target other r :
  om.merge X target other = inr r -> om.merge_node X target other = inr r.
Proof.
  unfold om.merge. destruct other as [t [] | | | |]; try done;
    by destruct target.
Qed.

Lemma merge_dicts t items t' items' :
  om.merge X (NDict t items) (NDict t' items')
  = om.merge_node X (NDict t items) (NDict t' items').
Proof. reflexivity. Qed.

Lemma merge_error target other err :
  om.merge X target other = inl err ->
  library_error err
  \/ (exists msg, err = ValueError msg) \/ (exists msg, err = TypeError msg).
Proof.
  unfold om.merge. destruct other as [t [] | | | |];
    try (intros [= <-]; right; left; by eexists).
  - destruct target; try (intros H; left; by eapply merge_node_error).
    intros [= <-]. right. right. by eexists.
  - destruct target; try (intros H; left; by eapply merge_node_error).
    intros [= <-]. right. right. by eexists.
Qed.

Lemma dataclass_init_error t : forall kwargs err,
  dataclass_init t kwargs = inl err -> exists msg, err = TypeError msg.
Proof.
  induction t as [| | | t IH | | | name fields IH] using ty_ind';
    intros kwargs err; simpl; try (intros [= <-]; by eexists).
  destruct (List.find _ _); [intros [= <-]; by eexists|].
  intros [H|(a & _ & H)]%bind_inl; [|done].
  revert err H. induction IH as [|[f [ft d]] fs Hft _ IHf]; intros err; [done|].
  simpl in Hft.
  intros [H|(v & _ & [H|(r & _ & H)]%bind_inl)]%bind_inl; [|by apply IHf|done].
  destruct (dict_get f kwargs); [done|].
  destruct d; try done.
  - by eapply Hft.
  - injection H as <-. by eexists.
Qed.

Lemma instantiate_error t kwargs err :
  om.instantiate t kwargs = inl err -> library_error err.
Proof.
  unfold om.instantiate. destruct (dataclass_init t kwargs) as [e|v] eqn:E; [|done].
  destruct (dataclass_init_error _ _ _ E) as [msg ->]. intros [= <-]. auto.
Qed.

Lemma to_object_node_error reg root n : forall err,
  om.to_object_node X reg root n = inl err -> library_error err.
Proof.
  induction n as [t s | t | t s | t items IH | t items IH] using node_ind';
    intros err; simpl.
  - done.
  - intros [= <-]. auto.
  - destruct (resolve X reg root s) as [msg|v]; [intros [= <-]; by auto|].
    destruct (base t), v; try done; try (intros [= <-]; by auto);
      try (destruct (plain _); [done|intros [= <-]; by auto]);
      intros [H|(a & _ & H)]%bind_inl; try done; by eapply validate_value_error.
  - intros [H|(children & _ & H)]%bind_inl.
    + revert err H. induction IH as [|[k c] l Hc _ IHl]; intros err; [done|].
      simpl in Hc.
      intros [H|(v & _ & [H|(r & _ & H)]%bind_inl)]%bind_inl;
        [by apply Hc|by apply IHl|done].
    + destruct (base t); try done. by eapply instantiate_error.
  - intros [H|(children & _ & H)]%bind_inl; [|done].
    revert err H. induction IH as [|c l Hc _ IHl]; intros err; [done|].
    intros [H|(v & _ & [H|(r & _ & H)]%bind_inl)]%bind_inl;
      [by apply Hc|by apply IHl|done].
Qed.

Lemma load_file_error read path err :
  om.load X read path = inl err -> is_omegaconf_exception err = false.
Proof.
  unfold om.load. destruct (read path) as [| | msg | doc]; try (by intros [= <-]).
  destruct doc as [[]| | |]; try (by intros [= <-]);
    by intros [w ->]%create_not_modelled.
Qed.
End LibraryErrors2.

(** ** [new] and [load]: which errors are wrapped *)

Section ErrorWrapping.
Variable X : externals.
Variable fs : filesystem.
Variable read : string -> file_state.
Variable reg : registry.

Lemma except_omegaconf_inl {A} (body : result A) e :
  body = inl e -> except_omegaconf body = inl (reraise e).
Proof. intros ->. unfold except_omegaconf, reraise. by destruct (is_omegaconf_exception e). Qed.

Lemma reraise_library_error e :
  library_error e ->
  (exists what, e = NotModelled what)
  \/ reraise e = ConfigurationError (exn_str e).
Proof.
  intros [H|H]; [right|by left]. unfold reraise. by rewrite H.
Qed.

(** [load], stage by stage. *)
Lemma load_unfold cls path overrides key validate_paths :
  load X fs read reg cls path overrides key validate_paths
  = (schema <-- om.structured X cls ;;
     except_omegaconf
       (raw <-- load_document X read (register_resolvers fs reg validate_paths)
                  path key ;;
        conf <-- om.merge X schema raw ;;
        conf <-- apply_overrides X conf overrides ;;
        om.to_object X (register_resolvers fs reg validate_paths) conf)).
Proof.
  unfold load, load_document, apply_overrides.
  destruct (om.structured X cls) as [e|schema]; [done|]. simpl.
  f_equal. destruct (om.load X read path) as [e|raw]; [done|]. simpl.
  destruct key as [k|]; simpl; [|done].
  by destruct (om.getitem X _ raw k).
Qed.

Lemma new_unfold cls kwargs :
  new X fs reg cls kwargs
  = (conf <-- om.structured X cls ;;
     except_omegaconf
       (conf <-- apply_kwargs X conf kwargs ;;
        om.to_object X (register_resolvers fs reg true) conf)).
Proof. reflexivity. Qed.
End ErrorWrapping.

(** The claim fails where the schema itself is ill-typed: [om.structured]
    runs before the [try], so its [ValidationError] leaves [new] and [load]
    as it is.  It also fails where [key] selects a scalar, and where the
    document is a list: the merge then raises a [ValueError], respectively
    a [TypeError], which the [except] clause does not catch. *)
Lemma schema_error_escapes_unwrapped :
  new Sample.X Sample.fs [] Sample.BadDefault []
  = inl (OmegaConfBaseException ValidationError
           "Invalid value 'fastest', expected one of [default, option_a, option_b]")
  /\ load Sample.X Sample.fs Sample.read [] Sample.BadDefault "a5.yaml" None None true
     = inl (OmegaConfBaseException ValidationError
              "Invalid value 'fastest', expected one of [default, option_a, option_b]")
  /\ load Sample.X Sample.fs Sample.read [] ConfigClassC "scalar_section.yaml"
       None (Some "training") true
     = inl (ValueError "Invalid input. Supports one of [dict,list,DictConfig,ListConfig,dataclass,dataclass instance,attr class,attr class instance]")
  /\ load Sample.X Sample.fs Sections.read [] ConfigClassC "list.yaml"
       None None true
     = inl (TypeError "Cannot merge DictConfig with ListConfig").
Proof. repeat split; vm_compute; reflexivity. Qed.

(** C2 (as amended): inside the [try] block of [new] and [load] every
    exception of OmegaConf's family is re-raised as [ConfigurationError]
    with the same message, and the materialisation raises no other (nor
    does the merge, but for a [ValueError] when the thing merged is no
    mapping or list and a [TypeError] when a list meets a mapping); an
    exception of [om.structured] (which runs before the [try]) and every
    exception outside the family -- the file-access errors of [om.load],
    that [ValueError] and that [TypeError] among them -- leave unchanged. *)
Theorem load_error_wrapping (X : externals) (fs : filesystem)
    (read : string -> file_state) (reg : registry) (cls : ty) (path : string)
    (overrides : option (list string)) (key : option string)
    (validate_paths : bool) (kwargs : list (string * pyval)) :
  let reg' := register_resolvers fs reg validate_paths in
  let outcome := load X fs read reg cls path overrides key validate_paths in
  let outcome_new := new X fs reg cls kwargs in
  (forall e, om.structured X cls = inl e ->
     outcome = inl e /\ outcome_new = inl e)
  /\ (forall schema, om.structured X cls = inr schema ->
      (forall e, om.load X read path = inl e ->
         outcome = inl e /\ is_omegaconf_exception e = false)
      /\ (forall e, load_document X read reg' path key = inl e ->
            outcome = inl (reraise e))
      /\ (forall raw e, load_document X read reg' path key = inr raw ->
            om.merge X schema raw = inl e -> outcome = inl (reraise e))
      /\ (forall raw conf e, load_document X read reg' path key = inr raw ->
            om.merge X schema raw = inr conf ->
            apply_overrides X conf overrides = inl e ->
            outcome = inl (reraise e))
      /\ (forall raw conf conf' e,
            load_document X read reg' path key = inr raw ->
            om.merge X schema raw = inr conf ->
            apply_overrides X conf overrides = inr conf' ->
            om.to_object X reg' conf' = inl e -> outcome = inl (reraise e))
      /\ (forall e, apply_kwargs X schema kwargs = inl e ->
            outcome_new = inl (reraise e))
      /\ (forall conf e, apply_kwargs X schema kwargs = inr conf ->
            om.to_object X (register_resolvers fs reg true) conf = inl e ->
            outcome_new = inl (reraise e)))
  /\ (forall e, library_error e ->
        (exists what, e = NotModelled what)
        \/ reraise e = ConfigurationError (exn_str e))
  /\ (forall target other e, om.merge X target other = inl e ->
        library_error e
        \/ (exists msg, e = ValueError msg) \/ (exists msg, e = TypeError msg))
  /\ (forall t items t' items' e,
        om.merge X (NDict t items) (NList t' items') = inl e
        <-> e = TypeError "Cannot merge DictConfig with ListConfig")
  /\ (forall r conf e, om.to_object X r conf = inl e -> library_error e)
  /\ (forall e, is_omegaconf_exception e = false -> reraise e = e).
Proof.
  intros reg' outcome outcome_new.
  split; [|split; [|split; [|split; [|split; [|split]]]]].
  - intros e He. subst outcome outcome_new.
    rewrite load_unfold, new_unfold, He. done.
  - intros schema Hs. subst outcome outcome_new.
    rewrite load_unfold, new_unfold, Hs. cbn [bind]. fold reg'.
    split; [|split; [|split; [|split; [|split; [|split]]]]].
    + intros e He. split; [|by eapply load_file_error].
      assert (load_document X read reg' path key = inl e) as Hd
        by (unfold load_document; by rewrite He).
      rewrite Hd. cbn [bind]. unfold except_omegaconf.
      by rewrite (load_file_error _ _ _ _ He).
    + intros e He. apply except_omegaconf_inl. by rewrite He.
    + intros raw e Hraw He. apply except_omegaconf_inl.
      rewrite Hraw. cbn [bind]. by rewrite He.
    + intros raw conf e Hraw Hconf He. apply except_omegaconf_inl.
      rewrite Hraw. cbn [bind]. rewrite Hconf. cbn [bind]. by rewrite He.
    + intros raw conf conf' e Hraw Hconf Hconf' He. apply except_omegaconf_inl.
      rewrite Hraw. cbn [bind]. rewrite Hconf. cbn [bind]. rewrite Hconf'.
      cbn [bind]. done.
    + intros e He. apply except_omegaconf_inl. by rewrite He.
    + intros conf e Hconf He. apply except_omegaconf_inl.
      rewrite Hconf. cbn [bind]. done.
  - apply reraise_library_error.
  - apply merge_error.
  - intros t items t' items' e. unfold om.merge. simpl.
    split; [by intros [= <-]|by intros ->].
  - intros r conf e. apply to_object_node_error.
  - intros e He. unfold reraise. by rewrite He.
Qed.

(** ** [load] with a [key] the document lacks *)

(** The lookup error is OmegaConf's [ConfigKeyError], raised inside the
    [try]: it reaches the caller as a [ConfigurationError]. *)
Lemma missing_key_is_wrapped :
  load Sample.X Sample.fs Sample.read [] ConfigClassC "empty.yaml" None
    (Some "training") true
  = inl (ConfigurationError "Missing key training").
Proof. vm_compute. reflexivity. Qed.

(** C3 (as amended): when [key] names no top-level key of the parsed
    document, [load] fails with a [ConfigurationError] that carries the
    message of the library's lookup error. *)
Theorem load_absent_key (X : externals) (fs : filesystem)
    (read : string -> file_state) (reg : registry) (cls : ty) (path : string)
    (overrides : option (list string)) (key : string) (validate_paths : bool)
    (schema : node) (t : ty) (items : list (string * node)) :
  om.structured X cls = inr schema ->
  om.load X read path = inr (NDict t items) ->
  dict_get key items = None ->
  load X fs read reg cls path overrides (Some key) validate_paths
  = inl (ConfigurationError ("Missing key " +:+ key)).
Proof.
  intros Hs Hraw Hkey. unfold load. rewrite Hs, Hraw. simpl.
  by rewrite Hkey.
Qed.

Lemma load_absent_key_witness :
  load Sample.X Sample.fs Sample.read [] ConfigClassC "a5.yaml" None
    (Some "training") true
  = inl (ConfigurationError "Missing key training").
Proof.
  eapply (load_absent_key Sample.X Sample.fs Sample.read [] ConfigClassC
            "a5.yaml" None "training" true).
  - vm_compute. reflexivity.
  - vm_compute. reflexivity.
  - reflexivity.
Defined.

(** ** The merge, unfolded *)

Lemma merge_node_dict X d t sitems :
  om.merge_node X d (NDict t sitems)
  = (d' <-- om.expand X d ;;
     match d' with
     | NDict td ditems =>
         items <-- merge_items X td ditems sitems ;; ret (NDict td items)
     | NList _ _ =>
         raise (NotModelled "merging a mapping into a list below the top level")
     | _ =>
         match base (type_of d') with
         | TAny => ret (NDict t sitems)
         | _ => omegaconf_error ValidationError
                  "Invalid value assigned: a mapping"
         end
     end).
Proof. reflexivity. Qed.

Lemma merge_node_list X d t sitems :
  om.merge_node X d (NList t sitems)
  = (d' <-- om.expand X d ;;
     match d' with
     | NList tl _ =>
         items <-- merge_list_items X tl sitems ;; ret (NList tl items)
     | NDict _ _ =>
         raise (NotModelled "merging a list into a mapping below the top level")
     | _ =>
         match base (type_of d') with
         | TAny => ret (NList t sitems)
         | _ => omegaconf_error ValidationError
                  "Invalid value assigned: a list"
         end
     end).
Proof. reflexivity. Qed.

Lemma merge_items_cons X td acc k sk l :
  merge_items X td acc ((k, sk) :: l)
  = (dk <-- match dict_get k acc with
            | Some dk => ret dk
            | None =>
                if is_structured td then
                  omegaconf_error ConfigKeyError
                    ("Key '" +:+ k +:+ "' not in struct")
                else om.blank X (element_type td) sk
            end ;;
     r <-- om.merge_node X dk sk ;;
     merge_items X td (dict_set k r acc) l).
Proof. reflexivity. Qed.

Lemma structured_class X name fields :
  om.structured X (TClass name fields)
  = (items <-- structured_fields X fields ;;
     ret (NDict (TClass name fields) items)).
Proof. reflexivity. Qed.

Lemma structured_fields_cons X f ft d fs :
  structured_fields X ((f, (ft, d)) :: fs)
  = (n <-- structured_field X ft d ;;
     rest <-- structured_fields X fs ;;
     ret ((f, n) :: rest)).
Proof. reflexivity. Qed.

(** ** Annotations are kept *)

Section Types.
Variable X : externals.

Lemma type_of_retype t n : type_of (retype t n) = t.
Proof. by destruct n. Qed.

Lemma validate_scalar_type t s n :
  om.validate_scalar X t s = inr n -> type_of n = t.
Proof.
  unfold om.validate_scalar. intros (s' & _ & [= <-])%bind_inr. done.
Qed.

Lemma wrap_scalar_type t s n : om.wrap_scalar X t s = inr n -> type_of n = t.
Proof.
  unfold om.wrap_scalar. destruct s; try apply validate_scalar_type.
  destruct (String.eqb _ _); [by intros [= <-]|].
  destruct (PyStr.contains_sub _ _); [by intros [= <-]|].
  apply validate_scalar_type.
Qed.

Lemma structured_type t n : om.structured X t = inr n -> type_of n = t.
Proof.
  destruct t; simpl; try done.
  - intros (n' & _ & [= <-])%bind_inr. apply type_of_retype.
  - intros (items & _ & [= <-])%bind_inr. done.
Qed.

Lemma structured_field_type ft d n :
  structured_field X ft d = inr n -> type_of n = ft.
Proof.
  destruct d; simpl.
  - apply wrap_scalar_type.
  - destruct (base ft); try done; by intros [= <-].
  - intros (n' & _ & [= <-])%bind_inr. apply type_of_retype.
  - by intros [= <-].
Qed.

(** Each declared field has its node, annotated with the field's type. *)
Lemma structured_fields_get fields items f ft d :
  structured_fields X fields = inr items ->
  dict_get f fields = Some (ft, d) ->
  exists c, dict_get f items = Some c /\ type_of c = ft.
Proof.
  revert items. induction fields as [|[f' [ft' d']] fs IH]; intros items; [done|].
  rewrite structured_fields_cons.
  intros (n & Hn & (rest & Hrest & [= <-])%bind_inr)%bind_inr.
  simpl. destruct (String.eqb_spec f' f) as [->|Hne].
  - intros [= -> ->]. exists n. split; [done|]. by eapply structured_field_type.
  - intros Hget. by apply (IH rest).
Qed.
End Types.

(** ** Dictionaries, continued *)

Section DictSet.
Context {V : Type}.
Implicit Types (d : list (string * V)) (k : string).

Lemma dict_get_set_eq k v d : dict_get k (dict_set k v d) = Some v.
Proof.
  induction d as [|[k' v'] d IH]; simpl.
  - by rewrite String.eqb_refl.
  - destruct (String.eqb_spec k' k) as [->|Hne]; simpl.
    + by rewrite String.eqb_refl.
    + by destruct (String.eqb_spec k' k).
Qed.

Lemma dict_get_set_ne k k' v d :
  k <> k' -> dict_get k' (dict_set k v d) = dict_get k' d.
Proof.
  intros Hne. induction d as [|[k0 v0] d IH]; simpl.
  - by destruct (String.eqb_spec k k').
  - destruct (String.eqb_spec k0 k) as [->|Hne0]; simpl.
    + by destruct (String.eqb_spec k k').
    + by rewrite IH.
Qed.

Lemma dict_get_elem_of k v d : dict_get k d = Some v -> (k, v) ∈ d.
Proof.
  induction d as [|[k' v'] d IH]; simpl; [done|].
  destruct (String.eqb_spec k' k) as [->|Hne].
  - intros [= ->]. left.
  - intros H. right. by apply IH.
Qed.

Lemma elem_of_dict_set k v d kv :
  kv ∈ dict_set k v d -> kv = (k, v) \/ kv ∈ d.
Proof.
  induction d as [|[k' v'] d IH]; simpl.
  - intros ->%list_elem_of_singleton. by left.
  - destruct (String.eqb_spec k' k) as [->|Hne].
    + intros [->|H]%elem_of_cons; [by left|]. right. by right.
    + intros [->|H]%elem_of_cons; [right; left|].
      destruct (IH H) as [->|Hin]; [by left|]. right. by right.
Qed.

Lemma dict_keys_set_subset k v d k' :
  k' ∈ dict_keys d -> k' ∈ dict_keys (dict_set k v d).
Proof.
  rewrite dict_set_keys. destruct (dict_contains k d); [done|].
  intros H. apply elem_of_app. by left.
Qed.
End DictSet.

(** ** An enumeration-typed field refuses a string that names no member *)

Section EnumReject.
Variable X : externals.

Lemma validate_scalar_enum_reject t e str :
  base t = TEnum e ->
  dict_contains (om.strip_enum_prefix e str) (enum_members e) = false ->
  exists msg,
    om.validate_scalar X t (SStr str)
    = inl (OmegaConfBaseException ValidationError msg).
Proof.
  intros Ht Hno. unfold om.validate_scalar, om.validate_value.
  rewrite Ht. simpl. rewrite Hno. by eexists.
Qed.

Lemma merge_items_reject td f e str t0 l : forall acc dk,
  dict_get f l = Some (NVal t0 (SStr str)) ->
  dict_get f acc = Some dk ->
  base (type_of dk) = TEnum e ->
  dict_contains (om.strip_enum_prefix e str) (enum_members e) = false ->
  exists err, merge_items X td acc l = inl err /\ library_error err.
Proof.
  induction l as [|[k sk] l IH]; intros acc dk Hl Hacc Hty Hno; [done|].
  rewrite merge_items_cons. simpl in Hl.
  destruct (String.eqb_spec k f) as [->|Hne].
  - injection Hl as ->. rewrite Hacc. simpl.
    destruct (validate_scalar_enum_reject _ _ _ Hty Hno) as [msg ->].
    simpl. eexists. split; [done|]. by left.
  - destruct (match dict_get k acc with
              | Some dk0 => ret dk0
              | None => _
              end) as [err|dk0] eqn:Hdk; simpl.
    { exists err. split; [done|].
      destruct (dict_get k acc); [done|].
      destruct (is_structured td); [injection Hdk as <-; by left|].
      by eapply blank_error. }
    destruct (om.merge_node X dk0 sk) as [err|r] eqn:Hr; simpl.
    { exists err. split; [done|]. by eapply merge_node_error. }
    apply (IH _ dk); try done. by rewrite dict_get_set_ne.
Qed.

(** Keys the source lacks keep their node. *)
Lemma merge_items_frame td k l : forall acc items,
  k ∉ dict_keys l ->
  merge_items X td acc l = inr items ->
  dict_get k items = dict_get k acc.
Proof.
  induction l as [|[k1 s1] l IH]; intros acc items Hk.
  - by intros [= <-].
  - rewrite merge_items_cons.
    intros (dk & _ & (r & _ & Hrest)%bind_inr)%bind_inr.
    rewrite (IH _ _ ltac:(intros Hin; apply Hk; by right) Hrest).
    apply dict_get_set_ne. intros ->. apply Hk. left.
Qed.
End EnumReject.

(** ** Well-formed declarations *)

Lemma base_idem t : base (base t) = base t.
Proof. induction t; simpl; auto. Qed.

Lemma base_not_optional t t' : base t <> TOptional t'.
Proof. induction t; simpl; auto; done. Qed.

Lemma wf_base t : wf_ty t = true -> wf_ty (base t) = true.
Proof. induction t; simpl; auto. Qed.

Lemma element_type_base t : element_type (base t) = element_type t.
Proof. unfold element_type. by rewrite base_idem. Qed.

Lemma wf_element t : wf_ty t = true -> wf_ty (element_type t) = true.
Proof.
  intros H%wf_base. unfold element_type. by destruct (base t).
Qed.

Lemma wf_class_fields name fields :
  wf_ty (TClass name fields) = true ->
  NoDup (dict_keys fields)
  /\ forall f ft d, (f, (ft, d)) ∈ fields -> wf_ty ft = true.
Proof.
  simpl. intros [Hnd Hall]%andb_prop. split; [by eapply bool_decide_eq_true_1|].
  clear Hnd. induction fields as [|[f' [ft' d']] fs IH]; intros f ft d.
  - by intros ?%elem_of_nil.
  - apply andb_prop in Hall as [Hft Hfs].
    intros [[= -> -> ->]|Hin]%elem_of_cons; [done|]. by eapply IH.
Qed.

Lemma NoDup_dict_get {V} (d : list (string * V)) k v :
  NoDup (dict_keys d) -> (k, v) ∈ d -> dict_get k d = Some v.
Proof.
  induction d as [|[k' v'] d IH]; simpl; [by intros _ ?%elem_of_nil|].
  intros [Hk' Hd]%NoDup_cons [[= -> ->]|Hin]%elem_of_cons.
  - by rewrite String.eqb_refl.
  - destruct (String.eqb_spec k' k) as [->|Hne]; [|by apply IH].
    exfalso. apply Hk'. by apply (elem_of_dict_keys (k, v)).
Qed.

Lemma wf_child t k st :
  wf_ty t = true -> child_type t k = Some st -> wf_ty st = true.
Proof.
  intros Hwf. unfold child_type.
  pose proof (wf_base _ Hwf) as Hb. pose proof (wf_element _ Hwf) as He.
  destruct (base t) as [| | | | | |name fields] eqn:E; try (by intros [= <-]).
  destruct (dict_get k fields) as [[ft d]|] eqn:G; [|done]. intros [= <-].
  apply wf_class_fields in Hb as [_ Hall]. eapply Hall.
  by apply dict_get_elem_of.
Qed.

(** ** Validation stores well-typed values *)

Section Validation.
Variable X : externals.

Lemma enum_convert_member e s s' :
  om.enum_convert e s = inr s' ->
  exists m, s' = SEnum e m /\ m ∈ map fst (enum_members e).
Proof.
  assert (forall m, dict_contains m (enum_members e) = true ->
                    m ∈ map fst (enum_members e)) as Hmem.
  { intros m. unfold dict_contains.
    destruct (dict_get m (enum_members e)) eqn:G; [|done]. intros _.
    apply dict_get_elem_of in G. by apply (elem_of_dict_keys (m, s0)). }
  destruct s; simpl; try done.
  - destruct (dict_contains _ _) eqn:C; [|done]. intros [= <-]. eauto.
  - destruct (bool_decide (e0 = e)) eqn:B; simpl; [|done].
    apply bool_decide_eq_true_1 in B as ->.
    destruct (dict_contains _ _) eqn:C; [|done]. intros [= <-]. eauto.
Qed.

Lemma validate_value_ok t s s' :
  om.validate_value X t s = inr s' -> scalar_ok t s'.
Proof.
  unfold om.validate_value, scalar_ok.
  destruct s.
  1: { destruct (is_optional t); [|done]. intros [= <-].
       destruct (base t); auto. }
  all: destruct (base t) eqn:E; try done;
    try (intros H%enum_convert_member; by right).
Qed.

Lemma validate_scalar_ok t s n :
  wf_ty t = true -> om.validate_scalar X t s = inr n -> node_ok n.
Proof.
  intros Hwf. unfold om.validate_scalar.
  intros (s' & Hs' & [= <-])%bind_inr. constructor; [done|].
  by eapply validate_value_ok.
Qed.

Lemma wrap_scalar_ok t s n :
  wf_ty t = true -> om.wrap_scalar X t s = inr n -> node_ok n.
Proof.
  intros Hwf. unfold om.wrap_scalar.
  destruct s; try by apply validate_scalar_ok.
  destruct (String.eqb _ _); [intros [= <-]; by constructor|].
  destruct (PyStr.contains_sub _ _); [intros [= <-]; by constructor|].
  by apply validate_scalar_ok.
Qed.

(** Re-annotating with a type that differs in [Optional] only. *)
Lemma retype_ok t n :
  wf_ty t = true -> base t = base (type_of n) ->
  (is_optional (type_of n) = true -> is_optional t = true) ->
  node_ok n -> node_ok (retype t n).
Proof.
  intros Hwf Hb Hopt Hn.
  destruct Hn as [t' s ? Hs|t'|t' s|t' items ? Hk Hf Hi|t' items ? Hk Hi];
    simpl in *.
  - constructor; [done|]. unfold scalar_ok in *. rewrite Hb.
    destruct (base t'); try done.
    destruct Hs as [[-> Ho]|Hs]; [left; by auto|by right].
  - by constructor.
  - by constructor.
  - constructor; [done| | |].
    + unfold dict_kind in *. by rewrite Hb.
    + unfold fields_present in *. by rewrite Hb.
    + intros k c Hin. destruct (Hi k c Hin) as (Hc & st & Hst & Hslot).
      split; [done|]. exists st. split; [|done].
      unfold child_type, element_type in *. by rewrite Hb.
  - constructor; [done| |].
    + unfold list_kind in *. by rewrite Hb.
    + intros c Hin. destruct (Hi c Hin) as (Hc & Hslot). split; [done|].
      unfold element_type in *. by rewrite Hb.
Qed.
End Validation.

(** ** [structured] builds a well-formed tree *)

Section StructuredOk.
Variable X : externals.

Lemma structured_field_ok ft d n :
  wf_ty ft = true ->
  (forall n', om.structured X ft = inr n' -> node_ok n') ->
  structured_field X ft d = inr n -> node_ok n.
Proof.
  intros Hwf IH. destruct d; simpl.
  - by apply wrap_scalar_ok.
  - destruct (base ft) eqn:E; try done; intros [= <-];
      (constructor; [done| |by intros c ?%elem_of_nil]);
      unfold list_kind; by rewrite E.
  - intros (n' & Hn' & [= <-])%bind_inr.
    apply retype_ok; [done| | |by apply IH];
      by rewrite (structured_type _ _ _ Hn').
  - intros [= <-]. by constructor.
Qed.

Lemma structured_fields_members fields : forall items,
  Forall (fun f => wf_ty f.2.1 = true ->
            forall n, om.structured X f.2.1 = inr n -> node_ok n) fields ->
  (forall f ft d, (f, (ft, d)) ∈ fields -> wf_ty ft = true) ->
  structured_fields X fields = inr items ->
  dict_keys items = dict_keys fields
  /\ forall k c, (k, c) ∈ items ->
       exists ft d, (k, (ft, d)) ∈ fields /\ node_ok c /\ type_of c = ft.
Proof.
  induction fields as [|[f [ft d]] fs IH]; intros items HP Hwf.
  - intros [= <-]. split; [done|]. by intros k c ?%elem_of_nil.
  - rewrite structured_fields_cons.
    intros (n & Hn & (rest & Hrest & [= <-])%bind_inr)%bind_inr.
    apply Forall_cons in HP as [HPf HPfs]. simpl in HPf.
    assert (wf_ty ft = true) as Hft by (eapply Hwf; left).
    destruct (IH rest HPfs) as [Hkeys Hmem]; [|done|].
    { intros f' ft' d' Hin. eapply Hwf. by right. }
    split; [simpl; by f_equal|].
    intros k c [[= -> ->]|Hin]%elem_of_cons.
    + exists ft, d. split; [left|]. split.
      * eapply structured_field_ok; eauto.
      * by eapply structured_field_type.
    + destruct (Hmem k c Hin) as (ft' & d' & Hin' & Hok & Hty).
      exists ft', d'. split; [by right|done].
Qed.

Lemma structured_ok t : forall n,
  wf_ty t = true -> om.structured X t = inr n -> node_ok n.
Proof.
  induction t as [| | | t IH | | | name fields IH] using ty_ind';
    intros n Hwf; try done.
  - simpl. intros (n' & Hn' & [= <-])%bind_inr.
    apply retype_ok; [done| | |by apply IH];
      by rewrite (structured_type _ _ _ Hn').
  - rewrite structured_class. intros (items & Hitems & [= <-])%bind_inr.
    destruct (wf_class_fields _ _ Hwf) as [Hnd Hall].
    destruct (structured_fields_members fields items) as [Hkeys Hmem];
      [|done|done|].
    { eapply Forall_impl; [exact IH|]. intros [f [ft d]] HP Hft n'. simpl in *.
      by apply HP. }
    constructor; [done|done| |].
    + unfold fields_present. simpl. intros f Hf. by rewrite Hkeys.
    + intros k c Hin. destruct (Hmem k c Hin) as (ft & d & Hin' & Hok & Hty).
      split; [done|]. exists ft. split; [|by right].
      unfold child_type. simpl. by rewrite (NoDup_dict_get _ _ _ Hnd Hin').
Qed.

Lemma blank_ok et src b :
  wf_ty et = true -> om.blank X et src = inr b ->
  node_ok b /\ type_of b = et.
Proof.
  intros Hwf. unfold om.blank. destruct (_ && _).
  - intros H. split; [by eapply structured_ok|by eapply structured_type].
  - intros [= <-]. split; [by constructor|done].
Qed.

Lemma node_ok_wf n : node_ok n -> wf_ty (type_of n) = true.
Proof. by destruct 1. Qed.

Lemma expand_ok d d' :
  node_ok d -> om.expand X d = inr d' ->
  node_ok d' /\ type_of d' = type_of d.
Proof.
  intros Hd. pose proof (node_ok_wf _ Hd) as Hwf.
  destruct d as [t s | t | t s | t items | t items]; simpl in *;
    try (by intros [= <-]).
  - destruct s; try (by intros [= <-]).
    destruct (base t) eqn:E; try (by intros [= <-]).
    + intros [= <-]. split; [|done].
      constructor; [done| |by intros c ?%elem_of_nil].
      unfold list_kind. by rewrite E.
    + intros [= <-]. split; [|done].
      constructor; [done| | |by intros k c ?%elem_of_nil].
      * unfold dict_kind. by rewrite E.
      * unfold fields_present. by rewrite E.
    + intros H. split; [by eapply structured_ok|by eapply structured_type].
  - destruct (base t) eqn:E; try (by intros [= <-]).
    + intros [= <-]. split; [|done].
      constructor; [done| |by intros c ?%elem_of_nil].
      unfold list_kind. by rewrite E.
    + intros [= <-]. split; [|done].
      constructor; [done| | |by intros k c ?%elem_of_nil].
      * unfold dict_kind. by rewrite E.
      * unfold fields_present. by rewrite E.
    + intros H. split; [by eapply structured_ok|by eapply structured_type].
Qed.
End StructuredOk.

(** ** The merge keeps a tree well formed *)

Section MergeOk.
Variable X : externals.

Lemma merge_list_items_cons tl si l :
  merge_list_items X tl (si :: l)
  = (b <-- om.blank X (element_type tl) si ;;
     r <-- om.merge_node X b si ;;
     rest <-- merge_list_items X tl l ;;
     ret (r :: rest)).
Proof. reflexivity. Qed.

Lemma slot_ok_merged st dk r :
  slot_ok st dk ->
  base (type_of dk) = TAny \/ type_of r = type_of dk ->
  slot_ok st r.
Proof.
  unfold slot_ok. intros [Hany|<-] [H|H]; auto.
Qed.

Lemma child_type_unstructured td k :
  is_structured td = false -> child_type td k = Some (element_type td).
Proof.
  unfold is_structured, child_type. by destruct (base td).
Qed.

Lemma merge_items_ok td sitems :
  Forall (fun kn => merge_keeps X kn.2) sitems ->
  (forall k c, (k, c) ∈ sitems -> node_ok c) ->
  wf_ty td = true ->
  forall acc items,
    entries_ok td acc ->
    merge_items X td acc sitems = inr items ->
    entries_ok td items
    /\ forall k, k ∈ dict_keys acc -> k ∈ dict_keys items.
Proof.
  intros HP Hsrc Hwf. induction HP as [|[k sk] l Hsk _ IH]; intros acc items Hacc.
  - intros [= <-]. done.
  - rewrite merge_items_cons.
    intros (dk & Hdk & (r & Hr & Hrest)%bind_inr)%bind_inr.
    simpl in Hsk.
    assert (node_ok dk /\ exists st, child_type td k = Some st /\ slot_ok st dk)
      as (Hdkok & st & Hst & Hslot).
    { destruct (dict_get k acc) as [dk0|] eqn:G.
      - injection Hdk as <-. apply Hacc. by apply dict_get_elem_of.
      - destruct (is_structured td) eqn:S; [done|].
        apply blank_ok in Hdk as [Hok Hty]; [|by apply wf_element].
        split; [done|]. exists (element_type td).
        split; [by apply child_type_unstructured|by right]. }
    assert (node_ok sk) as Hskok by (eapply Hsrc; left).
    destruct (Hsk dk r Hdkok Hskok Hr) as [Hrok Hrty].
    destruct (IH (fun k' c' Hin => Hsrc k' c' (list_elem_of_further _ _ _ Hin))
                (dict_set k r acc) items) as [Hitems Hkeys]; [|done|].
    { intros k' c' [[= -> ->]|Hin]%elem_of_dict_set.
      - split; [done|]. exists st. split; [done|]. by eapply slot_ok_merged.
      - by apply Hacc. }
    split; [done|]. intros k' Hk'. apply Hkeys. by apply dict_keys_set_subset.
Qed.

Lemma merge_list_items_ok tl sitems :
  Forall (merge_keeps X) sitems ->
  (forall c, c ∈ sitems -> node_ok c) ->
  wf_ty tl = true ->
  forall items,
    merge_list_items X tl sitems = inr items ->
    forall c, c ∈ items -> node_ok c /\ slot_ok (element_type tl) c.
Proof.
  intros HP Hsrc Hwf. induction HP as [|si l Hsi _ IH]; intros items.
  - intros [= <-]. by intros c ?%elem_of_nil.
  - rewrite merge_list_items_cons.
    intros (b & Hb & (r & Hr & (rest & Hrest & [= <-])%bind_inr)%bind_inr)%bind_inr.
    apply blank_ok in Hb as [Hbok Hbty]; [|by apply wf_element].
    assert (node_ok si) as Hsiok by (apply Hsrc; left).
    destruct (Hsi b r Hbok Hsiok Hr) as [Hrok Hrty].
    intros c [->|Hin]%elem_of_cons.
    + split; [done|]. eapply slot_ok_merged; [|exact Hrty]. by right.
    + eapply IH; [|done|done]. intros c' Hc'. apply Hsrc. by right.
Qed.

Lemma node_ok_dict_inv t items :
  node_ok (NDict t items) ->
  wf_ty t = true /\ dict_kind t /\ fields_present t items
  /\ entries_ok t items.
Proof. inversion 1; subst. done. Qed.

Lemma node_ok_list_inv t items :
  node_ok (NList t items) ->
  wf_ty t = true /\ list_kind t
  /\ forall c, c ∈ items -> node_ok c /\ slot_ok (element_type t) c.
Proof. inversion 1; subst. done. Qed.

Lemma merge_node_ok src : merge_keeps X src.
Proof.
  induction src as [t s | t | t s | t sitems IH | t sitems IH] using node_ind';
    intros d r Hd Hsrc; pose proof (node_ok_wf _ Hd) as Hwf.
  - simpl. intros H. split; [by eapply validate_scalar_ok|].
    right. by eapply validate_scalar_type.
  - simpl. intros [= <-]. auto.
  - simpl. intros [= <-]. split; [by constructor|by right].
  - rewrite merge_node_dict. intros (d' & Hd' & H)%bind_inr.
    destruct (expand_ok _ _ _ Hd Hd') as [Hd'ok Hd'ty].
    apply node_ok_dict_inv in Hsrc as Hinv. destruct Hinv as (_ & _ & _ & Hchildren).
    destruct d' as [t' s' | t' | t' s' | td ditems | tl ditems]; simpl in H.
    1-3: simpl in Hd'ty; destruct (base t') eqn:E; try done; injection H as <-;
         (split; [done|]; left; by rewrite <- Hd'ty).
    + apply bind_inr in H as (items & Hitems & [= <-]).
      apply node_ok_dict_inv in Hd'ok as (Hwfd & Hkind & Hpresent & Hentries).
      destruct (merge_items_ok td sitems IH) with (acc := ditems) (items := items)
        as [Hok Hkeys]; try done.
      { intros k c Hin. by destruct (Hchildren k c Hin). }
      split; [|by right]. constructor; try done.
      unfold fields_present in *. destruct (base td); try done.
      intros f Hf. by apply Hkeys, Hpresent.
    + done.
  - rewrite merge_node_list. intros (d' & Hd' & H)%bind_inr.
    destruct (expand_ok _ _ _ Hd Hd') as [Hd'ok Hd'ty].
    apply node_ok_list_inv in Hsrc as Hinv. destruct Hinv as (_ & _ & Hchildren).
    destruct d' as [t' s' | t' | t' s' | td ditems | tl ditems]; simpl in H.
    1-3: simpl in Hd'ty; destruct (base t') eqn:E; try done; injection H as <-;
         (split; [done|]; left; by rewrite <- Hd'ty).
    + done.
    + apply bind_inr in H as (items & Hitems & [= <-]).
      apply node_ok_list_inv in Hd'ok as (Hwfd & Hkind & Hentries).
      split; [|by right]. constructor; try done.
      eapply merge_list_items_ok; eauto.
      intros c Hin. by destruct (Hchildren c Hin).
Qed.
End MergeOk.

(** ** Untyped trees: what [create], [from_dotlist] and [om.load] build *)

Lemma untyped_type n : untyped n = true -> type_of n = TAny.
Proof. destruct n as [t ?|t|t ?|t ?|t ?]; simpl; by destruct t. Qed.

Lemma untyped_dict_iff t items :
  untyped (NDict t items) = true
  <-> t = TAny /\ NoDup (dict_keys items)
      /\ forall k c, (k, c) ∈ items -> untyped c = true.
Proof.
  simpl. split.
  - intros [[Ht Hnd%bool_decide_eq_true_1]%andb_prop Hall]%andb_prop.
    split; [by destruct t|]. split; [done|].
    clear Ht Hnd. induction items as [|[k' c'] l IH]; intros k c.
    + by intros ?%elem_of_nil.
    + apply andb_prop in Hall as [Hc Hl].
      intros [[= -> ->]|Hin]%elem_of_cons; [done|]. by eapply IH.
  - intros (-> & Hnd & Hall). simpl. rewrite bool_decide_eq_true_2 by done.
    simpl. clear Hnd.
    induction items as [|[k' c'] l IH]; [done|].
    rewrite (Hall k' c') by left. simpl. apply IH.
    intros k c Hin. eapply Hall. by right.
Qed.

Lemma untyped_list_iff t items :
  untyped (NList t items) = true
  <-> t = TAny /\ forall c, c ∈ items -> untyped c = true.
Proof.
  simpl. split.
  - intros [Ht Hall]%andb_prop. split; [by destruct t|].
    intros c Hin. rewrite forallb_forall in Hall. apply Hall.
    by apply list_elem_of_In.
  - intros [-> Hall]. simpl. apply forallb_forall. intros c Hin.
    apply Hall. by apply list_elem_of_In.
Qed.

Lemma untyped_ok n : untyped n = true -> node_ok n.
Proof.
  induction n as [t s | t | t s | t items IH | t items IH] using node_ind'.
  - intros H%untyped_type. simpl in H. subst. by constructor.
  - intros H%untyped_type. simpl in H. subst. by constructor.
  - intros H%untyped_type. simpl in H. subst. by constructor.
  - intros (-> & _ & Hall)%untyped_dict_iff. constructor; try done.
    intros k c Hin. split.
    + rewrite Forall_forall in IH. apply (IH (k, c)); [done|]. by eapply Hall.
    + exists TAny. split; [done|by left].
  - intros [-> Hall]%untyped_list_iff. constructor; try done.
    intros c Hin. split; [|by left].
    rewrite Forall_forall in IH. apply IH; [done|]. by apply Hall.
Qed.

Section Untyped.
Variable X : externals.

Lemma validate_scalar_any s : om.validate_scalar X TAny s = inr (NVal TAny s).
Proof. by destruct s. Qed.

Lemma wrap_scalar_untyped s n :
  om.wrap_scalar X TAny s = inr n -> untyped n = true.
Proof.
  unfold om.wrap_scalar.
  destruct s; try (rewrite validate_scalar_any; by intros [= <-]).
  destruct (String.eqb _ _); [by intros [= <-]|].
  destruct (PyStr.contains_sub _ _); [by intros [= <-]|].
  rewrite validate_scalar_any. by intros [= <-].
Qed.

Lemma elem_of_dict_of_pairs {V} (pairs : list (string * V)) kv :
  kv ∈ dict_of_pairs pairs -> kv ∈ pairs.
Proof.
  unfold dict_of_pairs.
  assert (forall acc, kv ∈ fold_left (fun d p => dict_set p.1 p.2 d) pairs acc ->
                      kv ∈ acc \/ kv ∈ pairs) as H.
  { induction pairs as [|[k v] l IH]; intros acc; simpl; [by left|].
    intros [[->|Hin]%elem_of_dict_set|Hin]%IH.
    - right. left.
    - by left.
    - right. by right. }
  intros [?%elem_of_nil|Hin]%H; done.
Qed.

Lemma create_untyped v : forall n, om.create X v = inr n -> untyped n = true.
Proof.
  induction v as [s | l IH | d IH | cls attrs] using pyval_ind'; intros n; simpl.
  - apply wrap_scalar_untyped.
  - intros (items & Hitems & [= <-])%bind_inr.
    apply untyped_list_iff. split; [done|].
    revert items Hitems. induction IH as [|x l Hx _ IHl]; intros items.
    + intros [= <-]. by intros c ?%elem_of_nil.
    + intros (n' & Hn' & (r & Hr & [= <-])%bind_inr)%bind_inr.
      intros c [->|Hin]%elem_of_cons; [by apply Hx|by eapply IHl].
  - intros (items & Hitems & [= <-])%bind_inr.
    apply untyped_dict_iff. split; [done|].
    split; [by apply dict_of_pairs_NoDup|].
    intros k c Hin%elem_of_dict_of_pairs.
    revert items Hitems Hin. induction IH as [|[k' x] l Hx _ IHl]; intros items.
    + intros [= <-]. by intros ?%elem_of_nil.
    + intros (n' & Hn' & (r & Hr & [= <-])%bind_inr)%bind_inr.
      intros [[= -> ->]|Hin]%elem_of_cons; [by apply Hx|by eapply IHl].
  - done.
Qed.

Lemma expand_untyped d d' :
  untyped d = true -> om.expand X d = inr d' -> d' = d.
Proof.
  intros Hd. pose proof (untyped_type _ Hd) as Ht.
  destruct d as [t [] | t | t s | |]; simpl in *; subst; try done;
    by intros [= <-].
Qed.

Lemma merge_node_untyped src : forall d r,
  untyped d = true -> untyped src = true ->
  om.merge_node X d src = inr r -> untyped r = true.
Proof.
  induction src as [t s | t | t s | t sitems IH | t sitems IH] using node_ind';
    intros d r Hd Hsrc.
  - simpl. rewrite (untyped_type _ Hd), validate_scalar_any. by intros [= <-].
  - simpl. by intros [= <-].
  - simpl. rewrite (untyped_type _ Hd). by intros [= <-].
  - rewrite merge_node_dict. intros (d' & Hd' & H)%bind_inr.
    apply expand_untyped in Hd' as ->; [|done].
    pose proof (untyped_type _ Hd) as Hty.
    apply untyped_dict_iff in Hsrc as Hs. destruct Hs as (-> & _ & Hchildren).
    destruct d as [t' s' | t' | t' s' | td ditems | tl ditems]; simpl in H, Hty;
      subst; try (by injection H as <-); [|done].
    apply bind_inr in H as (items & Hitems & [= <-]).
    apply untyped_dict_iff in Hd as (_ & Hnd & Hacc).
    cut (NoDup (dict_keys items)
         /\ forall k c, (k, c) ∈ items -> untyped c = true).
    { intros [? ?]. by apply untyped_dict_iff. }
    clear Hsrc. revert ditems items Hnd Hacc Hitems Hchildren.
    induction IH as [|[k sk] l Hsk _ IHl]; intros acc items Hnd Hacc.
    + intros [= <-]. done.
    + rewrite merge_items_cons.
      intros (dk & Hdk & (r & Hr & Hrest)%bind_inr)%bind_inr Hchildren.
      simpl in Hsk.
      assert (untyped dk = true) as Hdkok.
      { destruct (dict_get k acc) as [dk0|] eqn:G.
        - injection Hdk as <-. eapply Hacc. by apply dict_get_elem_of.
        - simpl in Hdk. by injection Hdk as <-. }
      assert (untyped r = true) as Hrok.
      { eapply (Hsk dk); [done| |done]. eapply Hchildren. left. }
      eapply (IHl (dict_set k r acc)); [| |done|].
      * by apply dict_set_NoDup.
      * intros k' c' [[= -> ->]|Hin]%elem_of_dict_set; [done|by eapply Hacc].
      * intros k' c' Hin. eapply Hchildren. by right.
  - rewrite merge_node_list. intros (d' & Hd' & H)%bind_inr.
    apply expand_untyped in Hd' as ->; [|done].
    pose proof (untyped_type _ Hd) as Hty.
    apply untyped_list_iff in Hsrc as Hs. destruct Hs as [-> Hchildren].
    destruct d as [t' s' | t' | t' s' | td ditems | tl ditems]; simpl in H, Hty;
      subst; try (by injection H as <-); [done|].
    apply bind_inr in H as (items & Hitems & [= <-]).
    apply untyped_list_iff. split; [done|].
    clear Hsrc Hd. revert items Hitems Hchildren.
    induction IH as [|si l Hsi _ IHl]; intros items.
    + intros [= <-]. by intros _ c ?%elem_of_nil.
    + rewrite merge_list_items_cons.
      intros (b & Hb & (r & Hr & (rest & Hrest & [= <-])%bind_inr)%bind_inr)%bind_inr.
      intros Hchildren. simpl in Hb. injection Hb as <-.
      intros c [->|Hin]%elem_of_cons.
      * eapply (Hsi (NMissing TAny)); [done| |done]. apply Hchildren. left.
      * eapply IHl; [done| |done]. intros c' Hc'. apply Hchildren. by right.
Qed.
End Untyped.

Section Untyped2.
Variable X : externals.

Lemma untyped_dict_set k c items :
  untyped (NDict TAny items) = true -> untyped c = true ->
  untyped (NDict TAny (dict_set k c items)) = true.
Proof.
  intros (_ & Hnd & Hall)%untyped_dict_iff Hc. apply untyped_dict_iff.
  split; [done|]. split; [by apply dict_set_NoDup|].
  intros k' c' [[= -> ->]|Hin]%elem_of_dict_set; [done|by eapply Hall].
Qed.

Lemma untyped_dict_get k c t items :
  untyped (NDict t items) = true -> dict_get k items = Some c ->
  untyped c = true.
Proof.
  intros (_ & _ & Hall)%untyped_dict_iff Hget. eapply Hall.
  by apply dict_get_elem_of.
Qed.

Lemma update_path_untyped ks : forall n v n',
  untyped n = true -> om.update_path X n ks v = inr n' -> untyped n' = true.
Proof.
  induction ks as [|k rest IH]; intros n v n' Hn; [by destruct n|].
  destruct n as [| | |t items|]; try (by destruct rest).
  pose proof (untyped_type _ Hn) as Ht. simpl in Ht. subst t.
  destruct rest as [|k2 rest].
  - simpl.
    assert (forall new, om.create X v = inr new ->
              untyped (NDict TAny (dict_set k new items)) = true) as Hset.
    { intros new Hnew. apply untyped_dict_set; [done|by eapply create_untyped]. }
    assert ((new <-- om.create X v ;; ret (NDict TAny (dict_set k new items)))
            = inr n' -> untyped n' = true) as Hplain.
    { intros (new & Hnew & [= <-])%bind_inr. by apply Hset. }
    destruct v as [s|l|d|cls attrs]; try exact Hplain.
    + destruct (dict_get k items) as [[| | |tc ci|tc ci]|] eqn:G; try exact Hplain.
      all: intros (other & Hother & (r & Hr & [= <-])%bind_inr)%bind_inr;
        apply untyped_dict_set; [done|];
        eapply merge_node_untyped; [| |exact Hr];
        [by eapply untyped_dict_get|by eapply create_untyped].
    + destruct (dict_get k items) as [[| | |tc ci|tc ci]|] eqn:G; try exact Hplain.
      all: intros (other & Hother & (r & Hr & [= <-])%bind_inr)%bind_inr;
        apply untyped_dict_set; [done|];
        eapply merge_node_untyped; [| |exact Hr];
        [by eapply untyped_dict_get|by eapply create_untyped].
  - change (om.update_path X (NDict TAny items) (k :: k2 :: rest) v)
      with (r <-- om.update_path X
                    match dict_get k items with
                    | Some ((NDict _ _ | NList _ _) as c) => c
                    | _ => NDict TAny []
                    end (k2 :: rest) v ;;
            ret (NDict TAny (dict_set k r items))).
    intros (r & Hr & [= <-])%bind_inr.
    apply untyped_dict_set; [done|]. eapply IH; [|exact Hr].
    destruct (dict_get k items) as [[| | |tc ci|tc ci]|] eqn:G; try done;
      by eapply untyped_dict_get.
Qed.

Lemma merge_with_dotlist_untyped dotlist : forall conf conf',
  untyped conf = true ->
  om.merge_with_dotlist X conf dotlist = inr conf' -> untyped conf' = true.
Proof.
  induction dotlist as [|arg rest IH]; intros conf conf' Hconf; simpl.
  - by intros [= <-].
  - intros (kv & _ & (c & Hc & Hrest)%bind_inr)%bind_inr.
    eapply IH; [|exact Hrest]. by eapply update_path_untyped.
Qed.

Lemma from_dotlist_untyped dotlist conf :
  om.from_dotlist X dotlist = inr conf -> untyped conf = true.
Proof. by apply merge_with_dotlist_untyped. Qed.

Lemma load_untyped read path raw :
  om.load X read path = inr raw -> untyped raw = true.
Proof.
  unfold om.load. destruct (read path) as [| | |doc]; try done.
  destruct doc as [[]| | |]; try done; try apply create_untyped.
  by intros [= <-].
Qed.

Lemma getitem_untyped reg raw key raw' :
  untyped raw = true -> om.getitem X reg raw key = inr raw' ->
  untyped raw' = true.
Proof.
  intros Hraw. destruct raw as [| | |t items|]; try done. simpl.
  destruct (dict_get key items) as [c|] eqn:G; [|done].
  pose proof (untyped_dict_get _ _ _ _ Hraw G) as Hc.
  destruct c; try done; try (by intros [= <-]).
  destruct (resolve X reg _ _); [done|]. apply create_untyped.
Qed.
End Untyped2.

(** ** Materialisation keeps the types *)

Lemma dataclass_init_class name fields kwargs :
  dataclass_init (TClass name fields) kwargs
  = match List.find (fun k => negb (dict_contains k fields)) (dict_keys kwargs) with
    | Some k =>
        raise (TypeError
          (name +:+ ".__init__() got an unexpected keyword argument '"
           +:+ k +:+ "'"))
    | None => attrs <-- init_fields name kwargs fields ;; ret (VObj name attrs)
    end.
Proof. reflexivity. Qed.

Lemma to_object_node_dict X reg root t items :
  om.to_object_node X reg root (NDict t items)
  = (children <-- to_object_items X reg root items ;;
     match base t with
     | TClass _ _ => om.instantiate (base t) children
     | _ => ret (VDict children)
     end).
Proof. reflexivity. Qed.

Lemma to_object_node_list X reg root t items :
  om.to_object_node X reg root (NList t items)
  = (children <-- to_object_list X reg root items ;; ret (VList children)).
Proof. reflexivity. Qed.

(** Every attribute of a fresh instance is a keyword argument when all the
    fields are given. *)
Lemma init_fields_given name kwargs fields : forall attrs,
  (forall f, f ∈ dict_keys fields -> f ∈ dict_keys kwargs) ->
  init_fields name kwargs fields = inr attrs ->
  forall f v, (f, v) ∈ attrs ->
    dict_get f kwargs = Some v /\ f ∈ dict_keys fields.
Proof.
  induction fields as [|[f0 [ft d]] fs IH]; intros attrs Hall; simpl.
  - intros [= <-] f v Hin. by apply elem_of_nil in Hin.
  - intros (v0 & Hv0 & (rest & Hrest & [= <-])%bind_inr)%bind_inr f v Hin.
    apply elem_of_cons in Hin as [[= -> ->]|Hin].
    + destruct (dict_get f0 kwargs) as [w|] eqn:G.
      * injection Hv0 as <-. split; [done|]. by left.
      * apply dict_get_None_keys in G. destruct G. apply Hall. by left.
    + destruct (IH rest) with (f := f) (v := v) as [? ?]; try done.
      * intros g Hg. apply Hall. by right.
      * split; [done|]. by right.
Qed.

Lemma to_object_items_members X reg root items : forall children,
  to_object_items X reg root items = inr children ->
  (forall k v, (k, v) ∈ children ->
     exists c, (k, c) ∈ items /\ om.to_object_node X reg root c = inr v)
  /\ dict_keys children = dict_keys items.
Proof.
  induction items as [|[k0 c0] l IH]; intros children; simpl.
  - intros [= <-]. split; [|done]. intros k v Hin. by apply elem_of_nil in Hin.
  - intros (v0 & Hv0 & (r & Hr & [= <-])%bind_inr)%bind_inr.
    destruct (IH r Hr) as [Hmem Hkeys]. split.
    + intros k v [[= -> ->]|Hin]%elem_of_cons.
      * exists c0. split; [by left|done].
      * destruct (Hmem k v Hin) as (c & Hc & Hv). exists c. split; [by right|done].
    + unfold dict_keys in *. simpl. by rewrite Hkeys.
Qed.

Lemma to_object_list_members X reg root items : forall children,
  to_object_list X reg root items = inr children ->
  forall v, v ∈ children ->
    exists c, c ∈ items /\ om.to_object_node X reg root c = inr v.
Proof.
  induction items as [|c0 l IH]; intros children; simpl.
  - intros [= <-] v Hin. by apply elem_of_nil in Hin.
  - intros (v0 & Hv0 & (r & Hr & [= <-])%bind_inr)%bind_inr.
    intros v [->|Hin]%elem_of_cons.
    + exists c0. split; [by left|done].
    + destruct (IH r Hr v Hin) as (c & Hc & Hv). exists c. split; [by right|done].
Qed.

Lemma well_valued_slot st c v :
  slot_ok st c -> well_valued (type_of c) v -> well_valued st v.
Proof. intros [Hany| <-] Hv; [by apply wv_any|done]. Qed.

Section ToObjectOk.
Variable X : externals.

Lemma to_object_node_ok reg root n : forall v,
  node_ok n -> om.to_object_node X reg root n = inr v ->
  well_valued (type_of n) v.
Proof.
  induction n as [t s | t | t s | t items IH | t items IH] using node_ind';
    intros v Hok.
  - simpl. intros [= <-]. inversion Hok; subst. by apply wv_scalar.
  - done.
  - simpl. destruct (resolve X reg root s) as [msg|w]; [done|].
    destruct (base t) eqn:Hb.
    + intros _. by apply wv_any.
    + destruct w; try done.
      intros (s' & Hs' & [= <-])%bind_inr. apply wv_scalar.
      by eapply validate_value_ok.
    + destruct w; try done.
      intros (s' & Hs' & [= <-])%bind_inr. apply wv_scalar.
      by eapply validate_value_ok.
    + by apply base_not_optional in Hb.
    + destruct (plain w) eqn:Hp; [|by destruct w]. intros Hw.
      assert (w = v) as -> by (destruct w; by injection Hw).
      apply wv_plain; [|done]. unfold is_container_ty. by rewrite Hb.
    + destruct (plain w) eqn:Hp; [|by destruct w]. intros Hw.
      assert (w = v) as -> by (destruct w; by injection Hw).
      apply wv_plain; [|done]. unfold is_container_ty. by rewrite Hb.
    + destruct (plain w) eqn:Hp; [|by destruct w]. intros Hw.
      assert (w = v) as -> by (destruct w; by injection Hw).
      apply wv_plain; [|done]. unfold is_container_ty. by rewrite Hb.
  - apply node_ok_dict_inv in Hok as (Hwf & Hkind & Hpres & Hent).
    rewrite to_object_node_dict.
    intros (children & Hch & Hv)%bind_inr.
    destruct (to_object_items_members _ _ _ _ _ Hch) as [Hmem Hkeys].
    assert (forall k w, (k, w) ∈ children ->
              exists st, child_type t k = Some st /\ well_valued st w) as Hall.
    { intros k w Hin. destruct (Hmem k w Hin) as (c & Hc & Hw).
      destruct (Hent k c Hc) as (Hcok & st & Hst & Hslot).
      exists st. split; [done|]. eapply well_valued_slot; [done|].
      rewrite Forall_forall in IH. by apply (IH (k, c)). }
    simpl. unfold dict_kind in Hkind. unfold fields_present in Hpres.
    destruct (base t) as [| | | | |et|name fields] eqn:Hb; try done.
    + injection Hv as <-. by apply wv_any.
    + injection Hv as <-. eapply wv_dict; [done|].
      intros k w Hin. destruct (Hall k w Hin) as (st & Hst & Hw).
      unfold child_type, element_type in Hst. rewrite Hb in Hst.
      by injection Hst as <-.
    + unfold om.instantiate in Hv. rewrite dataclass_init_class in Hv.
      destruct (List.find _ _); [done|].
      destruct (init_fields name children fields) as [e|attrs] eqn:Hinit;
        [by destruct e|].
      simpl in Hv. injection Hv as <-.
      eapply wv_obj; [done|]. intros f w Hin.
      destruct (init_fields_given _ _ _ _ ltac:(by rewrite Hkeys) Hinit f w Hin)
        as [Hget Hf].
      apply dict_get_elem_of in Hget.
      destruct (Hall f w Hget) as (st & Hst & Hw).
      unfold child_type in Hst. rewrite Hb in Hst.
      destruct (dict_get f fields) as [[ft d]|] eqn:G; [|done].
      injection Hst as <-. by exists ft, d.
  - apply node_ok_list_inv in Hok as (Hwf & Hkind & Hent).
    rewrite to_object_node_list.
    intros (children & Hch & [= <-])%bind_inr.
    pose proof (to_object_list_members _ _ _ _ _ Hch) as Hmem.
    simpl. unfold list_kind in Hkind.
    destruct (base t) as [| | | |et| |] eqn:Hb; try done.
    + by apply wv_any.
    + eapply wv_list; [done|]. intros w Hin.
      destruct (Hmem w Hin) as (c & Hc & Hw).
      destruct (Hent c Hc) as (Hcok & Hslot).
      unfold element_type in Hslot. rewrite Hb in Hslot.
      eapply well_valued_slot; [done|].
      rewrite Forall_forall in IH. by apply IH.
Qed.
End ToObjectOk.

(** ** A loaded configuration agrees with its declaration *)

Lemma except_omegaconf_inr {A} (body : result A) (a : A) :
  except_omegaconf body = inr a -> body = inr a.
Proof.
  destruct body as [e|a']; [|done]. unfold except_omegaconf.
  by destruct (is_omegaconf_exception e).
Qed.

Section LoadOk.
Variable X : externals.
Variable fs : filesystem.
Variable read : string -> file_state.
Variable reg : registry.

Lemma merge_ok target other r :
  node_ok target -> node_ok other -> om.merge X target other = inr r ->
  node_ok r /\ (base (type_of target) = TAny \/ type_of r = type_of target).
Proof.
  intros Ht Ho Hr%merge_inr. by eapply merge_node_ok.
Qed.

Lemma load_document_untyped reg' path key raw :
  load_document X read reg' path key = inr raw -> untyped raw = true.
Proof.
  unfold load_document.
  intros (raw0 & Hraw0%load_untyped & (raw1 & Hraw1 & [= <-])%bind_inr)%bind_inr.
  destruct key as [k|]; [by eapply getitem_untyped|by injection Hraw1 as <-].
Qed.


Lemma apply_kwargs_ok conf kwargs conf' :
  node_ok conf -> apply_kwargs X conf kwargs = inr conf' ->
  node_ok conf' /\ (base (type_of conf) = TAny \/ type_of conf' = type_of conf).
Proof.
  intros Hconf. unfold apply_kwargs.
  destruct kwargs as [|kw kws]; [intros [= <-]; by auto|].
  intros (other & Hother%create_untyped%untyped_ok & Hm)%bind_inr.
  by eapply merge_ok.
Qed.


Lemma new_well_valued cls kwargs obj :
  wf_ty cls = true -> new X fs reg cls kwargs = inr obj ->
  well_valued cls obj.
Proof.
  intros Hwf. rewrite new_unfold.
  intros (schema & Hs & Hbody%except_omegaconf_inr)%bind_inr.
  apply bind_inr in Hbody as (conf & Hconf & Hobj).
  pose proof (structured_ok _ _ _ Hwf Hs) as Hsok.
  pose proof (structured_type _ _ _ Hs) as Hsty.
  destruct (apply_kwargs_ok _ _ _ Hsok Hconf) as [Hcok Hcty].
  pose proof (to_object_node_ok _ _ _ _ _ Hcok Hobj) as Hv.
  rewrite Hsty in Hcty.
  destruct Hcty as [Hany|Hcty]; [by apply wv_any|].
  by rewrite Hcty in Hv.
Qed.


End LoadOk.

(** Attribute paths through a well-valued instance stay well valued. *)
Lemma well_valued_at ks : forall t obj ft v,
  well_valued t obj ->
  field_type_at t ks = Some ft -> attr_at obj ks = Some v ->
  well_valued ft v.
Proof.
  induction ks as [|k ks IH]; intros t obj ft v Hobj; simpl.
  - by intros [= <-] [= <-].
  - destruct (field_decl (base t) k) as [[ft' d']|] eqn:Hdecl; [|done].
    destruct (getattr obj k) as [v'|] eqn:Hattr; [|done].
    intros Hft Hv. apply (IH ft' v'); try done.
    destruct obj as [| | |cname attrs]; try done. simpl in Hattr.
    apply dict_get_elem_of in Hattr.
    inversion Hobj as [? ? Hany|? ? Hs|? ? Hc Hp|? name fields ? ? Hb Hall| |];
      subst.
    + by rewrite Hany in Hdecl.
    + done.
    + rewrite Hb in Hdecl. simpl in Hdecl.
      destruct (Hall k v' Hattr) as (ft'' & d'' & Hget & Hwv).
      rewrite Hget in Hdecl. by injection Hdecl as <- <-.
Qed.

(** What a well-valued enumeration-typed slot holds. *)
Lemma well_valued_enum t e v :
  base t = TEnum e -> well_valued t v ->
  (v = VNone /\ is_optional t = true)
  \/ exists m, v = VScalar (SEnum e m) /\ m ∈ map fst (enum_members e).
Proof.
  intros Hb Hv.
  inversion Hv as [? ? Hany|? s Hs|? ? Hc Hp|? ? ? ? ? Hb'|? ? ? Hb'|? ? ? Hb'];
    subst; try congruence.
  - unfold scalar_ok in Hs. rewrite Hb in Hs.
    destruct Hs as [[-> Ho]|(m & -> & Hm)]; [by left|right; by exists m].
  - unfold is_container_ty in Hc. by rewrite Hb in Hc.
Qed.

(** ** Enumeration-typed fields *)




(** ** Dot-lists: the last entry for a key decides *)

Lemma node_at_set_eq t k r items ks :
  node_at (NDict t (dict_set k r items)) (k :: ks) = node_at r ks.
Proof. simpl. by rewrite dict_get_set_eq. Qed.

Lemma node_at_set_ne t k k' r items ks :
  k' <> k ->
  node_at (NDict t (dict_set k' r items)) (k :: ks)
  = node_at (NDict t items) (k :: ks).
Proof. intros Hne. simpl. by rewrite dict_get_set_ne. Qed.

Lemma untyped_at ks : forall n c,
  untyped n = true -> node_at n ks = Some c -> untyped c = true.
Proof.
  induction ks as [|k ks IH]; intros n c Hn; simpl; [by intros [= <-]|].
  destruct n as [| | |t items|]; try done.
  destruct (dict_get k items) as [c1|] eqn:G; [|done].
  apply IH. by eapply untyped_dict_get.
Qed.

Section Dotlist.
Variable X : externals.

Lemma create_literal s :
  literal s = true -> om.create X (VScalar s) = inr (NVal TAny s).
Proof.
  intros Hs. simpl. unfold om.wrap_scalar.
  destruct s; try apply validate_scalar_any.
  simpl in Hs. apply andb_prop in Hs as [H1 H2].
  destruct (String.eqb _ _); [done|].
  destruct (PyStr.contains_sub _ _); [done|]. apply validate_scalar_any.
Qed.

Lemma update_path_cons k k2 rest t items v :
  om.update_path X (NDict t items) (k :: k2 :: rest) v
  = (r <-- om.update_path X
             match dict_get k items with
             | Some ((NDict _ _ | NList _ _) as c) => c
             | _ => NDict TAny []
             end (k2 :: rest) v ;;
     ret (NDict t (dict_set k r items))).
Proof. reflexivity. Qed.

(** Whatever the value, the last segment's entry is (re)bound and nothing
    else at that level changes. *)
Lemma update_path_shape k rest t items v n' :
  om.update_path X (NDict t items) (k :: rest) v = inr n' ->
  exists r, n' = NDict t (dict_set k r items).
Proof.
  destruct rest as [|k2 rest].
  - simpl.
    assert ((new <-- om.create X v ;; ret (NDict t (dict_set k new items)))
            = inr n' -> exists r, n' = NDict t (dict_set k r items)) as Hplain.
    { intros (new & _ & [= <-])%bind_inr. by eexists. }
    destruct v as [s|l|d|cls attrs]; try exact Hplain.
    all: destruct (dict_get k items) as [[| | |tc ci|tc ci]|]; try exact Hplain.
    all: intros (other & _ & (r & _ & [= <-])%bind_inr)%bind_inr; by eexists.
  - rewrite update_path_cons. intros (r & _ & [= <-])%bind_inr. by eexists.
Qed.

Lemma update_path_sets ks : forall n s n',
  literal s = true ->
  om.update_path X n ks (VScalar s) = inr n' ->
  node_at n' ks = Some (NVal TAny s).
Proof.
  induction ks as [|k rest IH]; intros n s n' Hs; [by destruct n|].
  destruct n as [| | |t items|]; try (by destruct rest).
  destruct rest as [|k2 rest].
  - cbn [om.update_path]. rewrite (create_literal _ Hs). cbn [bind].
    intros [= <-]. by rewrite node_at_set_eq.
  - rewrite update_path_cons. intros (r & Hr & [= <-])%bind_inr.
    rewrite node_at_set_eq. by eapply IH.
Qed.

Lemma update_path_frame ks' : forall n v n' ks,
  disjoint_paths ks' ks = true ->
  om.update_path X n ks' v = inr n' ->
  node_at n' ks = node_at n ks.
Proof.
  induction ks' as [|k' rest' IH]; intros n v n' ks Hdis; [done|].
  destruct ks as [|k rest]; [done|]. simpl in Hdis.
  destruct n as [| | |t items|]; try (by destruct rest').
  destruct (String.eqb_spec k' k) as [->|Hne].
  - destruct rest' as [|k2 rest']; [done|].
    rewrite update_path_cons. intros (r & Hr & [= <-])%bind_inr.
    rewrite node_at_set_eq, (IH _ _ _ _ Hdis Hr).
    destruct rest as [|k3 rest]; [by destruct rest'|].
    simpl. by destruct (dict_get k items) as [[| | | |]|].
  - intros [r ->]%update_path_shape. by apply node_at_set_ne.
Qed.

Lemma merge_with_dotlist_app l1 : forall conf l2,
  om.merge_with_dotlist X conf (l1 ++ l2)
  = (c <-- om.merge_with_dotlist X conf l1 ;; om.merge_with_dotlist X c l2).
Proof.
  induction l1 as [|arg l1 IH]; intros conf l2; [done|]. simpl.
  destruct (om.parse_dotlist_entry X arg) as [e|kv]; [done|]. simpl.
  destruct (om.update X conf kv.1 kv.2) as [e|c]; [done|]. simpl. apply IH.
Qed.

Lemma merge_with_dotlist_frame ks post : forall conf conf',
  (forall o k v, o ∈ post -> om.parse_dotlist_entry X o = inr (k, v) ->
     disjoint_paths (split_key X k) ks = true) ->
  om.merge_with_dotlist X conf post = inr conf' ->
  node_at conf' ks = node_at conf ks.
Proof.
  induction post as [|o post IH]; intros conf conf' Hpost; simpl.
  - by intros [= <-].
  - intros ([k v] & Hkv & (c & Hc & Hrest)%bind_inr)%bind_inr.
    rewrite (IH c conf'); [|by intros; eapply Hpost; [right|]|done].
    eapply update_path_frame; [|exact Hc]. eapply Hpost; [left|done].
Qed.

Lemma from_dotlist_last_write pre o2 post k2 s other :
  om.from_dotlist X (pre ++ o2 :: post) = inr other ->
  om.parse_dotlist_entry X o2 = inr (k2, VScalar s) ->
  literal s = true ->
  (forall o k v, o ∈ post -> om.parse_dotlist_entry X o = inr (k, v) ->
     disjoint_paths (split_key X k) (split_key X k2) = true) ->
  node_at other (split_key X k2) = Some (NVal TAny s).
Proof.
  unfold om.from_dotlist. rewrite merge_with_dotlist_app.
  intros (c & Hc & Hrest)%bind_inr Ho2 Hs Hpost. simpl in Hrest.
  rewrite Ho2 in Hrest. cbn [bind] in Hrest.
  apply bind_inr in Hrest as (c2 & Hc2 & Hrest).
  rewrite (merge_with_dotlist_frame _ _ _ _ Hpost Hrest).
  by eapply update_path_sets.
Qed.
End Dotlist.

(** ** Merging: the source's scalar lands in the destination's slot *)

Lemma validate_value_any X s : om.validate_value X TAny s = inr s.
Proof. by destruct s. Qed.

Section MergeAt.
Variable X : externals.

Lemma merge_items_at td k l : forall acc items sk,
  NoDup (dict_keys l) ->
  merge_items X td acc l = inr items ->
  dict_get k l = Some sk ->
  exists dk r,
    om.merge_node X dk sk = inr r /\ dict_get k items = Some r
    /\ forall dk0, dict_get k acc = Some dk0 -> dk = dk0.
Proof.
  induction l as [|[k1 s1] l IH]; intros acc items sk Hnd; [done|].
  rewrite merge_items_cons.
  intros (dk & Hdk & (r & Hr & Hrest)%bind_inr)%bind_inr.
  apply NoDup_cons in Hnd as [Hk1 Hnd]. simpl in Hk1. simpl.
  destruct (String.eqb_spec k1 k) as [->|Hne].
  - intros [= ->]. exists dk, r. split; [done|]. split.
    + rewrite (merge_items_frame _ _ _ _ _ _ Hk1 Hrest). apply dict_get_set_eq.
    + intros dk0 Hdk0. rewrite Hdk0 in Hdk. by injection Hdk as <-.
  - intros Hget.
    destruct (IH _ _ _ Hnd Hrest Hget) as (dk' & r' & Hr' & Hget' & Hdk').
    exists dk', r'. split; [done|]. split; [done|].
    intros dk0 Hdk0. apply Hdk'. by rewrite dict_get_set_ne.
Qed.

Lemma merge_node_at ks : forall d src r t0 s,
  ks <> [] ->
  untyped src = true ->
  om.merge_node X d src = inr r ->
  node_at src ks = Some (NVal t0 s) ->
  exists t s',
    node_at r ks = Some (NVal t s') /\ om.validate_value X t s = inr s'.
Proof.
  induction ks as [|k ks IH]; intros d src r t0 s Hne Hsrc Hr Hat; [done|].
  destruct src as [| | |ts sitems|]; try done.
  assert (exists s', node_at (NDict ts sitems) (k :: ks) = Some (NVal TAny s')
                     /\ om.validate_value X TAny s = inr s') as Hself.
  { exists s. split; [|apply validate_value_any].
    pose proof (untyped_at _ _ _ Hsrc Hat) as Ht%untyped_type.
    simpl in Ht. by subst. }
  rewrite merge_node_dict in Hr. apply bind_inr in Hr as (d' & _ & Hr).
  simpl in Hat. destruct (dict_get k sitems) as [sk|] eqn:G; [|done].
  apply untyped_dict_iff in Hsrc as Hs. destruct Hs as (_ & Hnd & Hall).
  destruct d' as [t' s'|t'|t' str|td ditems|tl ditems]; simpl in Hr;
    try (destruct (base _); try done; injection Hr as <-;
         destruct Hself as (s1 & ? & ?); by exists TAny, s1); [|done].
  apply bind_inr in Hr as (items & Hitems & [= <-]).
  destruct (merge_items_at _ _ _ _ _ _ Hnd Hitems G)
    as (dk & r1 & Hr1 & Hget & _).
  simpl. rewrite Hget.
  destruct ks as [|k2 ks].
  - simpl in Hat. injection Hat as ->. simpl in Hr1.
    unfold om.validate_scalar in Hr1.
    apply bind_inr in Hr1 as (s' & Hs' & [= <-]). by exists (type_of dk), s'.
  - eapply IH; [done| |exact Hr1|exact Hat].
    eapply Hall. by apply dict_get_elem_of.
Qed.

Lemma merge_at target other r ks t0 s :
  ks <> [] ->
  untyped other = true ->
  om.merge X target other = inr r ->
  node_at other ks = Some (NVal t0 s) ->
  exists t s',
    node_at r ks = Some (NVal t s') /\ om.validate_value X t s = inr s'.
Proof.
  intros Hne Ho Hr%merge_inr Hat. by eapply merge_node_at.
Qed.
End MergeAt.

(** ** The declared type along a key path *)

Lemma node_at_type ks : forall n t c ft,
  node_ok n -> (base t = TAny \/ type_of n = t) ->
  field_type_at t ks = Some ft -> node_at n ks = Some c ->
  node_ok c /\ (base ft = TAny \/ type_of c = ft).
Proof.
  induction ks as [|k ks IH]; intros n t c ft Hn Ht; simpl.
  - by intros [= <-] [= <-].
  - destruct (field_decl (base t) k) as [[ft1 d1]|] eqn:Hdecl; [|done].
    destruct Ht as [Hany|Ht]; [by rewrite Hany in Hdecl|].
    destruct n as [| | |tn items|]; try done. simpl in Ht. subst tn.
    destruct (dict_get k items) as [c1|] eqn:G; [|done].
    apply node_ok_dict_inv in Hn as (_ & _ & _ & Hent).
    destruct (Hent k c1 (dict_get_elem_of _ _ _ G)) as (Hc1 & st & Hst & Hslot).
    unfold child_type in Hst. destruct (base t); try done. simpl in Hdecl.
    rewrite Hdecl in Hst. injection Hst as <-.
    by apply IH.
Qed.

(** ** Materialisation along a key path *)

Lemma to_object_items_get X reg root k items : forall children c,
  to_object_items X reg root items = inr children ->
  dict_get k items = Some c ->
  exists v, om.to_object_node X reg root c = inr v
            /\ dict_get k children = Some v.
Proof.
  induction items as [|[k1 c1] l IH]; intros children c; [done|]. simpl.
  intros (v1 & Hv1 & (r & Hr & [= <-])%bind_inr)%bind_inr. simpl.
  destruct (String.eqb_spec k1 k) as [->|Hne].
  - intros [= <-]. by exists v1.
  - by apply IH.
Qed.

Lemma init_fields_get name kwargs k v fields : forall attrs fd,
  init_fields name kwargs fields = inr attrs ->
  dict_get k fields = Some fd ->
  dict_get k kwargs = Some v ->
  dict_get k attrs = Some v.
Proof.
  induction fields as [|[f [ft d]] fs IH]; intros attrs fd; [done|]. simpl.
  intros (v1 & Hv1 & (rest & Hrest & [= <-])%bind_inr)%bind_inr. simpl.
  destruct (String.eqb_spec f k) as [->|Hne].
  - intros _ Hget. rewrite Hget in Hv1. by injection Hv1 as <-.
  - intros Hfd Hget. by eapply IH.
Qed.

Lemma to_object_at X reg root ks : forall n t ft obj tc s,
  node_ok n -> (base t = TAny \/ type_of n = t) ->
  field_type_at t ks = Some ft ->
  om.to_object_node X reg root n = inr obj ->
  node_at n ks = Some (NVal tc s) ->
  attr_at obj ks = Some (VScalar s).
Proof.
  induction ks as [|k ks IH]; intros n t ft obj tc s Hn Ht; simpl.
  - intros _ Hobj [= ->]. simpl in Hobj. by injection Hobj as <-.
  - destruct (field_decl (base t) k) as [[ft1 d1]|] eqn:Hdecl; [|done].
    destruct Ht as [Hany|Ht]; [by rewrite Hany in Hdecl|].
    destruct n as [| | |tn items|]; try done. simpl in Ht. subst tn.
    destruct (dict_get k items) as [c1|] eqn:G; [|done].
    intros Hft Hobj Hat.
    apply node_ok_dict_inv in Hn as (_ & _ & _ & Hent).
    destruct (Hent k c1 (dict_get_elem_of _ _ _ G)) as (Hc1 & st & Hst & Hslot).
    rewrite to_object_node_dict in Hobj.
    apply bind_inr in Hobj as (children & Hch & Hobj).
    destruct (to_object_items_get _ _ _ _ _ _ _ Hch G) as (v1 & Hv1 & Hget).
    unfold child_type in Hst.
    destruct (base t) as [| | | | | |name fields] eqn:Hb; try done.
    simpl in Hdecl. rewrite Hdecl in Hst. injection Hst as <-.
    unfold om.instantiate in Hobj. rewrite dataclass_init_class in Hobj.
    destruct (List.find _ _); [done|].
    destruct (init_fields name children fields) as [e|attrs] eqn:Hinit;
      [by destruct e|].
    simpl in Hobj. injection Hobj as <-. simpl.
    rewrite (init_fields_get _ _ _ _ _ _ _ Hinit Hdecl Hget).
    by eapply IH.
Qed.

(** ** What a merge leaves alone *)

Section MergeFrame.
Variable X : externals.




End MergeFrame.

(** ** Precedence: overrides over the file over the defaults *)

Section Precedence.
Variable X : externals.
Variable fs : filesystem.
Variable read : string -> file_state.
Variable reg : registry.

Lemma apply_overrides_some conf dotlist :
  dotlist <> [] ->
  apply_overrides X conf (Some dotlist)
  = (other <-- om.from_dotlist X dotlist ;; om.merge X conf other).
Proof. by destruct dotlist. Qed.

(** A scalar of [other] at a key path is, after the merge, the value of the
    target's slot at that path -- as the slot's type converts it. *)
Lemma merge_then_at cls target other conf ks t0 s ft :
  node_ok target -> (base cls = TAny \/ type_of target = cls) ->
  untyped other = true ->
  om.merge X target other = inr conf ->
  node_at other ks = Some (NVal t0 s) ->
  field_type_at cls ks = Some ft ->
  ks <> []
  /\ node_ok conf /\ (base cls = TAny \/ type_of conf = cls)
  /\ exists t s',
       (base ft = TAny \/ t = ft) /\ om.validate_value X t s = inr s'
       /\ node_at conf ks = Some (NVal t s').
Proof.
  intros Htok Hty Ho Hm Hat Hft.
  assert (ks <> []) as Hne.
  { intros ->. simpl in Hat. injection Hat as ->. by destruct s. }
  destruct (merge_ok _ _ _ _ Htok (untyped_ok _ Ho) Hm) as [Hcok Hcty].
  assert (base cls = TAny \/ type_of conf = cls) as Hty'.
  { destruct Hty as [?|Hty]; [by left|]. rewrite Hty in Hcty.
    destruct Hcty as [?|Hcty]; [by left|by right]. }
  split; [done|]. split; [done|]. split; [done|].
  destruct (merge_at _ _ _ _ _ _ _ Hne Ho Hm Hat) as (t & s' & Hat' & Hv).
  exists t, s'. split; [|done].
  by destruct (node_at_type _ _ _ _ _ Hcok Hty' Hft Hat') as [_ ?].
Qed.

Lemma load_stages cls path overrides key validate_paths obj :
  wf_ty cls = true ->
  load X fs read reg cls path overrides key validate_paths = inr obj ->
  exists schema raw conf conf',
    om.structured X cls = inr schema
    /\ node_ok schema /\ type_of schema = cls
    /\ load_document X read (register_resolvers fs reg validate_paths) path key
       = inr raw
    /\ untyped raw = true
    /\ om.merge X schema raw = inr conf
    /\ apply_overrides X conf overrides = inr conf'
    /\ om.to_object_node X (register_resolvers fs reg validate_paths)
         conf' conf' = inr obj.
Proof.
  intros Hwf. rewrite load_unfold.
  intros (schema & Hs & Hbody%except_omegaconf_inr)%bind_inr.
  apply bind_inr in Hbody as (raw & Hraw & Hbody).
  apply bind_inr in Hbody as (conf & Hconf & Hbody).
  apply bind_inr in Hbody as (conf' & Hconf' & Hobj).
  exists schema, raw, conf, conf'.
  split; [done|]. split; [by eapply structured_ok|].
  split; [by eapply structured_type|]. split; [done|].
  split; [by eapply load_document_untyped|]. done.
Qed.

Lemma override_wins cls path pre o2 post key validate_paths k2 s ft obj :
  wf_ty cls = true ->
  load X fs read reg cls path (Some (pre ++ o2 :: post)) key validate_paths
    = inr obj ->
  om.parse_dotlist_entry X o2 = inr (k2, VScalar s) ->
  literal s = true ->
  leaves_alone X post (split_key X k2) ->
  field_type_at cls (split_key X k2) = Some ft ->
  exists t s',
    (base ft = TAny \/ t = ft) /\ om.validate_value X t s = inr s'
    /\ attr_at obj (split_key X k2) = Some (VScalar s').
Proof.
  intros Hwf Hload Ho2 Hs Hpost Hft.
  destruct (load_stages _ _ _ _ _ _ Hwf Hload)
    as (schema & raw & conf & conf' & _ & Hsok & Hsty & _ & Hraw & Hconf
        & Hconf' & Hobj).
  destruct (merge_ok _ _ _ _ Hsok (untyped_ok _ Hraw) Hconf) as [Hcok Hcty].
  rewrite apply_overrides_some in Hconf' by (by destruct pre).
  apply bind_inr in Hconf' as (other & Hother & Hm).
  pose proof (from_dotlist_last_write _ _ _ _ _ _ _ Hother Ho2 Hs Hpost) as Hat.
  assert (base cls = TAny \/ type_of conf = cls) as Hcty2.
  { rewrite Hsty in Hcty. destruct Hcty as [?|?]; [by left|by right]. }
  pose proof (from_dotlist_untyped _ _ _ Hother) as Hou.
  destruct (merge_then_at cls conf other conf' _ _ _ _ Hcok Hcty2 Hou Hm Hat Hft)
    as (_ & Hcok' & Hcty' & t & s' & Ht & Hv & Hat').
  exists t, s'. split; [done|]. split; [done|].
  by eapply to_object_at.
Qed.

End Precedence.




(** * Further properties of the module *)

(** ** [is_url] *)

(** X1: [is_url] reads the argument up to the first ["://"] only: whatever is
    appended to a URL, the result is a URL; and nothing is a URL that is
    empty or starts with a character outside [a-z0-9] -- an upper-case
    scheme, a leading blank or slash, a bare ["://"]. *)
Theorem is_url_prefix_decides :
  (forall s t, is_url s = true -> is_url (s +:+ t) = true)
  /\ (forall c s, scheme_char c = false -> is_url (String c s) = false)
  /\ is_url "" = false.
Proof.
  split; [|split].
  - intros s t (scheme & rest & -> & Hne & Hall)%is_url_shape.
    apply is_url_shape. exists scheme, (rest +:+ t).
    split; [|done]. by rewrite !append_assoc.
  - intros c s Hc. simpl. by rewrite Hc.
  - done.
Qed.

(** ** [clean_opt], as [from_dotlist] reads its result *)

Section FindFacts.
Variable c : ascii.

Lemma find_app k v :
  PyStr.contains c k = false ->
  PyStr.find c (k +:+ String c v) = Some (String.length k).
Proof.
  induction k as [|a k IH]; simpl.
  - by rewrite Ascii.eqb_refl.
  - destruct (Ascii.eqb a c); [done|]. intros H. by rewrite (IH H).
Qed.

Lemma find_absent s : PyStr.contains c s = false -> PyStr.find c s = None.
Proof.
  induction s as [|a s IH]; simpl; [done|].
  destruct (Ascii.eqb a c); [done|]. intros H. by rewrite (IH H).
Qed.
End FindFacts.

Lemma take_app k v : PyStr.take (String.length k) (k +:+ v) = k.
Proof. induction k as [|a k IH]; simpl; [by destruct v|]. by rewrite IH. Qed.

Lemma drop_app k a v : PyStr.drop (S (String.length k)) (k +:+ String a v) = v.
Proof. induction k as [|b k IH]; simpl; [done|]. exact IH. Qed.

(** X2: Every cleaned option is a well-formed dot-list entry.  [from_dotlist]
    cuts it at the ["="] that [clean_opt] kept or put: the key it updates is
    the normalised name -- free of dashes -- and the text it reads as YAML
    is what followed the first ["="] of the argument, or ["True"] for a bare
    flag.  This is for an option without a backslash; how the library reads
    an entry that holds one is not described. *)
Theorem clean_opt_dotlist_entry (X : externals) (arg : string) :
  exists name val out,
    (if PyStr.contains "=" arg then arg = name +:+ "=" +:+ val
     else name = arg /\ val = "True")
    /\ PyStr.contains "=" name = false
    /\ clean_opt arg = inr out
    /\ PyStr.contains "-" (PyStr.replace "-" "_" (PyStr.strip "-" name)) = false
    /\ om.parse_dotlist_entry X out
       = if PyStr.contains "092" out then
           inl (NotModelled "a dot-list entry that holds a backslash")
         else
           match yaml_load X val with
           | inl msg => inl (YAMLError msg)
           | inr v => inr (PyStr.replace "-" "_" (PyStr.strip "-" name), v)
           end.
Proof.
  destruct (clean_opt_split arg) as (name & val & Harg & Hname & Hout).
  exists name, val, (PyStr.replace "-" "_" (PyStr.strip "-" name) +:+ "=" +:+ val).
  split; [done|]. split; [done|]. split; [done|].
  split; [by apply replace_removes|].
  assert (PyStr.contains "=" (PyStr.replace "-" "_" (PyStr.strip "-" name))
          = false) as Hkey.
  { apply contains_replace; [done|].
    unfold PyStr.strip. by apply contains_rstrip, contains_lstrip. }
  unfold om.parse_dotlist_entry.
  destruct (PyStr.contains "092" _); [done|].
  change (?k +:+ "=" +:+ val) with (k +:+ String "=" val).
  rewrite (find_app _ _ _ Hkey), take_app, drop_app.
  by destruct (yaml_load X val).
Qed.

(** ** The resolvers: composition and filesystem accesses *)

Section ResolverMore.
Variable fs : filesystem.

Lemma find_app_list {A} (f : A -> bool) (l1 l2 : list A) :
  find f (l1 ++ l2) = match find f l1 with Some a => Some a | None => find f l2 end.
Proof. induction l1 as [|a l1 IH]; simpl; [done|]. by destruct (f a). Qed.

Lemma path_glob_loop_log validate_paths paths : forall out log,
  fst (path_glob_loop fs validate_paths out paths log)
  = log ++ map AccGlob
             (if validate_paths then upto (no_match fs) paths else paths).
Proof.
  induction paths as [|p rest IH]; intros out log.
  - destruct validate_paths; simpl; by rewrite app_nil_r.
  - cbn [path_glob_loop upto]. rewrite io_bind_glob. unfold no_match at 1.
    destruct (decide (fs_glob fs p = [])) as [Hp|Hp].
    + rewrite (bool_decide_eq_true_2 _ Hp).
      rewrite (bool_decide_eq_true_2 (sorted (fs_glob fs p) = []));
        [|by apply sorted_nil_iff].
      destruct validate_paths; cbn [andb]; [done|].
      rewrite IH. by rewrite <- app_assoc.
    + rewrite (bool_decide_eq_false_2 _ Hp).
      rewrite (bool_decide_eq_false_2 (sorted (fs_glob fs p) = []));
        [|by rewrite sorted_nil_iff].
      cbn [andb]. rewrite IH. rewrite <- app_assoc. by destruct validate_paths.
Qed.

End ResolverMore.

(** X3: [path_glob] distributes over the argument list: the matches of
    [ps ++ qs] are those of [ps] followed by those of [qs], the first
    failure among them is the failure of the whole, and no argument at all
    gives the empty list. *)
Theorem path_glob_app (fs : filesystem) (validate_paths : bool)
    (ps qs : list string) :
  snd (run_io (path_glob fs validate_paths (ps ++ qs)))
  = match snd (run_io (path_glob fs validate_paths ps)) with
    | inl e => inl e
    | inr a =>
        match snd (run_io (path_glob fs validate_paths qs)) with
        | inl e => inl e
        | inr b => inr (a ++ b)
        end
    end
  /\ run_io (path_glob fs validate_paths []) = ([], inr []).
Proof.
  split; [|done]. unfold run_io, path_glob.
  rewrite !path_glob_loop_result. destruct validate_paths.
  - rewrite find_app_list. destruct (find (no_match fs) ps); [done|].
    destruct (find (no_match fs) qs); [done|].
    by rewrite map_app, concat_app.
  - by rewrite map_app, concat_app.
Qed.

(** X4: [path_glob] reaches the filesystem through [glob] only: once per
    argument, in argument order, and with [validate_paths] on not at all
    after the first pattern without a match. *)
Theorem path_glob_accesses (fs : filesystem) (validate_paths : bool)
    (paths : list string) :
  fst (run_io (path_glob fs validate_paths paths))
  = map AccGlob (if validate_paths then upto (no_match fs) paths else paths).
Proof. unfold run_io, path_glob. by rewrite path_glob_loop_log. Qed.


(** ** [_register_resolvers] *)

Section DictSetMore.
Context {V : Type}.
Implicit Types (d : list (string * V)) (k : string).

Lemma dict_set_set k v w d : dict_set k w (dict_set k v d) = dict_set k w d.
Proof.
  induction d as [|[k' v'] d IH]; simpl.
  - by rewrite String.eqb_refl.
  - destruct (String.eqb_spec k' k) as [->|Hne]; simpl.
    + by rewrite String.eqb_refl.
    + destruct (String.eqb_spec k' k); [done|]. by rewrite IH.
Qed.

Lemma dict_set_comm k1 k2 v w d :
  k1 <> k2 -> dict_contains k1 d = true ->
  dict_set k1 v (dict_set k2 w d) = dict_set k2 w (dict_set k1 v d).
Proof.
  intros Hne. unfold dict_contains.
  induction d as [|[k' v'] d IH]; simpl; [done|].
  destruct (String.eqb_spec k' k1) as [->|Hne1].
  - intros _. destruct (String.eqb_spec k1 k2) as [|_]; [done|]. simpl.
    rewrite String.eqb_refl. by destruct (String.eqb_spec k1 k2).
  - intros Hd. destruct (String.eqb_spec k' k2) as [->|Hne2]; simpl.
    + destruct (String.eqb_spec k2 k1); [done|]. simpl.
      by rewrite String.eqb_refl.
    + destruct (String.eqb_spec k' k1); [done|]. simpl.
      destruct (String.eqb_spec k' k2); [done|]. by rewrite IH.
Qed.

Lemma dict_contains_set k v d : dict_contains k (dict_set k v d) = true.
Proof. unfold dict_contains. by rewrite dict_get_set_eq. Qed.
End DictSetMore.

(** X6: Registration replaces and never accumulates: registering again, with
    whatever [validate_paths], leaves the table as one registration with the
    last setting makes it; the two names are bound to the closures of the
    last call; every other resolver of the table stays as it was. *)
Theorem register_resolvers_last_wins (fs : filesystem) (reg : registry)
    (v1 v2 : bool) :
  register_resolvers fs (register_resolvers fs reg v1) v2
  = register_resolvers fs reg v2
  /\ (forall name, name <> "path.glob" -> name <> "path.choose" ->
        dict_get name (register_resolvers fs reg v2) = dict_get name reg)
  /\ (exists g c,
        dict_get "path.glob" (register_resolvers fs reg v2) = Some g
        /\ dict_get "path.choose" (register_resolvers fs reg v2) = Some c
        /\ (forall paths,
              snd (run_io (g paths))
              = match snd (run_io (path_glob fs v2 paths)) with
                | inl e => inl e
                | inr r => inr (VList (map (fun p => VScalar (SStr p)) r))
                end)
        /\ (forall paths,
              snd (run_io (c paths))
              = match snd (run_io (path_choose fs v2 paths)) with
                | inl e => inl e
                | inr r => inr (VScalar (SStr r))
                end)).
Proof.
  split; [|split].
  - unfold register_resolvers.
    rewrite (dict_set_comm "path.glob" "path.choose");
      [|done|apply dict_contains_set].
    by rewrite dict_set_set, dict_set_set.
  - intros name Hg Hc. unfold register_resolvers.
    rewrite dict_get_set_ne by done. by rewrite dict_get_set_ne.
  - unfold register_resolvers. eexists _, _.
    split; [rewrite dict_get_set_ne by done; apply dict_get_set_eq|].
    split; [apply dict_get_set_eq|]. split.
    + intros paths. unfold run_io, io_bind.
      by destruct (path_glob fs v2 paths []) as [log [e|r]].
    + intros paths. unfold run_io, io_bind.
      by destruct (path_choose fs v2 paths []) as [log [e|r]].
Qed.

(** ** [new] and [load]: what comes back *)

Section Returned.
Variable X : externals.

(** A schema is a mapping annotated with its (possibly [Optional]) class. *)
Lemma structured_dict t : forall n,
  om.structured X t = inr n ->
  exists name fields items, base t = TClass name fields /\ n = NDict t items.
Proof.
  induction t as [| | | t IH | | | name fields _] using ty_ind';
    intros n; try done.
  - simpl. intros (n' & Hn' & [= <-])%bind_inr.
    destruct (IH _ Hn') as (name & fields & items & Hb & ->).
    by exists name, fields, items.
  - rewrite structured_class. intros (items & _ & [= <-])%bind_inr.
    by exists name, fields, items.
Qed.

Lemma merge_dict_shape t items other r :
  om.merge X (NDict t items) other = inr r ->
  exists items', r = NDict t items'.
Proof.
  unfold om.merge. destruct other as [t0 [] | | | t0 sitems | t0 sitems];
    try done.
  rewrite merge_node_dict. intros (d' & [= <-] & H)%bind_inr.
  apply bind_inr in H as (items' & _ & [= <-]). by eexists.
Qed.

Lemma apply_overrides_shape t items overrides r :
  apply_overrides X (NDict t items) overrides = inr r ->
  exists items', r = NDict t items'.
Proof.
  unfold apply_overrides. destruct overrides as [[|o l]|];
    try (intros [= <-]; by eexists).
  intros (other & _ & Hm)%bind_inr. by eapply merge_dict_shape.
Qed.

Lemma apply_kwargs_shape t items kwargs r :
  apply_kwargs X (NDict t items) kwargs = inr r ->
  exists items', r = NDict t items'.
Proof.
  unfold apply_kwargs. destruct kwargs as [|kw l];
    [intros [= <-]; by eexists|].
  intros (other & _ & Hm)%bind_inr. by eapply merge_dict_shape.
Qed.

Lemma init_fields_keys name kwargs fields : forall attrs,
  init_fields name kwargs fields = inr attrs ->
  dict_keys attrs = dict_keys fields.
Proof.
  induction fields as [|[f [ft d]] fs IH]; intros attrs; simpl.
  - by intros [= <-].
  - intros (v & _ & (rest & Hrest & [= <-])%bind_inr)%bind_inr.
    unfold dict_keys in *. simpl. by rewrite (IH _ Hrest).
Qed.

Lemma to_object_instance reg root t items name fields obj :
  base t = TClass name fields ->
  om.to_object_node X reg root (NDict t items) = inr obj ->
  exists attrs, obj = VObj name attrs /\ dict_keys attrs = dict_keys fields.
Proof.
  intros Hb. rewrite to_object_node_dict.
  intros (children & _ & Hobj)%bind_inr. rewrite Hb in Hobj.
  unfold om.instantiate in Hobj. rewrite dataclass_init_class in Hobj.
  destruct (List.find _ _); [done|].
  destruct (init_fields name children fields) as [e|attrs] eqn:Hinit;
    [by destruct e|].
  simpl in Hobj. injection Hobj as <-. exists attrs. split; [done|].
  by eapply init_fields_keys.
Qed.
End Returned.

Section Instance.
Variable X : externals.
Variable fs : filesystem.
Variable read : string -> file_state.
Variable reg : registry.

Lemma load_instance cls path overrides key validate_paths obj :
  load X fs read reg cls path overrides key validate_paths = inr obj ->
  exists name fields attrs,
    base cls = TClass name fields
    /\ obj = VObj name attrs /\ dict_keys attrs = dict_keys fields.
Proof.
  rewrite load_unfold.
  intros (schema & Hs & Hbody%except_omegaconf_inr)%bind_inr.
  apply bind_inr in Hbody as (raw & _ & Hbody).
  apply bind_inr in Hbody as (conf & Hconf & Hbody).
  apply bind_inr in Hbody as (conf' & Hconf' & Hobj).
  destruct (structured_dict _ _ _ Hs) as (name & fields & items & Hb & ->).
  apply merge_dict_shape in Hconf as [items1 ->].
  apply apply_overrides_shape in Hconf' as [items2 ->].
  destruct (to_object_instance _ _ _ _ _ _ _ _ Hb Hobj) as (attrs & -> & Hk).
  by exists name, fields, attrs.
Qed.

Lemma new_instance cls kwargs obj :
  new X fs reg cls kwargs = inr obj ->
  exists name fields attrs,
    base cls = TClass name fields
    /\ obj = VObj name attrs /\ dict_keys attrs = dict_keys fields.
Proof.
  rewrite new_unfold.
  intros (schema & Hs & Hbody%except_omegaconf_inr)%bind_inr.
  apply bind_inr in Hbody as (conf & Hconf & Hobj).
  destruct (structured_dict _ _ _ Hs) as (name & fields & items & Hb & ->).
  apply apply_kwargs_shape in Hconf as [items1 ->].
  destruct (to_object_instance _ _ _ _ _ _ _ _ Hb Hobj) as (attrs & -> & Hk).
  by exists name, fields, attrs.
Qed.
End Instance.

(** X7: What [new] and [load] return is an instance of the class they are
    called on: it has the class's name and exactly the declared fields, in
    declaration order -- no key of the file, the overrides or the keyword
    arguments adds an attribute, none removes one. *)
Theorem loaded_instance_shape (X : externals) (fs : filesystem)
    (read : string -> file_state) (reg : registry) (cls : ty) :
  (forall path overrides key validate_paths obj,
     load X fs read reg cls path overrides key validate_paths = inr obj ->
     exists name fields attrs,
       base cls = TClass name fields
       /\ obj = VObj name attrs /\ dict_keys attrs = dict_keys fields)
  /\ (forall kwargs obj,
        new X fs reg cls kwargs = inr obj ->
        exists name fields attrs,
          base cls = TClass name fields
          /\ obj = VObj name attrs /\ dict_keys attrs = dict_keys fields).
Proof.
  split.
  - intros path overrides key validate_paths obj. apply load_instance.
  - intros kwargs obj. apply new_instance.
Qed.



(** ** [new]: keyword arguments *)

Section DictOfPairs.
Context {V : Type}.


End DictOfPairs.

Section Kwargs.
Variable X : externals.
Variable fs : filesystem.
Variable reg : registry.




End Kwargs.



(** X10: In a configuration that [new] returns, every field declared with an
    enumeration -- whatever attribute path leads to it -- holds a member of
    that enumeration, or [None] if it is declared [Optional]. *)
Theorem new_enum_fields (X : externals) (fs : filesystem) (reg : registry)
    (cls : ty) (kwargs : list (string * pyval)) (obj : pyval) :
  wf_ty cls = true ->
  new X fs reg cls kwargs = inr obj ->
  well_valued cls obj
  /\ forall ks ft e v,
       field_type_at cls ks = Some ft -> base ft = TEnum e ->
       attr_at obj ks = Some v ->
       (v = VNone /\ is_optional ft = true)
       \/ exists m, v = VScalar (SEnum e m) /\ m ∈ map fst (enum_members e).
Proof.
  intros Hwf Hnew.
  pose proof (new_well_valued _ _ _ _ _ _ Hwf Hnew) as Hv.
  split; [done|]. intros ks ft e v Hft Hb Hat.
  eapply well_valued_enum; [done|]. by eapply well_valued_at.
Qed.

(** [ConfigClassC.new(option_selector="option_b")]. *)
Lemma new_enum_fields_witness :
  wf_ty ConfigClassC = true
  /\ new Sample.X Sample.fs [] ConfigClassC
       [("option_selector", VScalar (SStr "option_b"))]
     = inr (VObj "ConfigClassC"
              [("a", VScalar (SInt 0));
               ("b", VNone);
               ("c", VScalar (SBool false));
               ("option_selector", VScalar (SEnum OptionSelector "option_b"));
               ("config_class_a", VObj "ConfigClassA" [("list_a", VNone)]);
               ("config_class_b", VList [])])
  /\ well_valued ConfigClassC
       (VObj "ConfigClassC"
          [("a", VScalar (SInt 0));
           ("b", VNone);
           ("c", VScalar (SBool false));
           ("option_selector", VScalar (SEnum OptionSelector "option_b"));
           ("config_class_a", VObj "ConfigClassA" [("list_a", VNone)]);
           ("config_class_b", VList [])]).
Proof.
  split; [reflexivity|]. split; [reflexivity|].
  apply (new_enum_fields Sample.X Sample.fs [] ConfigClassC
           [("option_selector", VScalar (SStr "option_b"))] _ eq_refl eq_refl).
Defined.

(** ** Keys the class does not declare *)

Section UnknownKey.
Variable X : externals.





End UnknownKey.



(** ** [asdict]: plain data out *)

Lemma pyval_ind_all (P : pyval -> Prop) :
  (forall s, P (VScalar s)) ->
  (forall l, Forall P l -> P (VList l)) ->
  (forall d, Forall (fun kv => P kv.2) d -> P (VDict d)) ->
  (forall cls attrs, Forall (fun kv => P kv.2) attrs -> P (VObj cls attrs)) ->
  forall v, P v.
Proof.
  intros HS HL HD HO.
  fix IH 1. intros [s | l | d | cls attrs].
  - apply HS.
  - apply HL. induction l as [|x l IHl]; constructor; [apply IH|exact IHl].
  - apply HD. induction d as [|[k x] d IHd]; constructor; [apply IH|exact IHd].
  - apply HO.
    induction attrs as [|[k x] d IHd]; constructor; [apply IH|exact IHd].
Qed.

Lemma plain_dict_iff d :
  plain (VDict d) = true <-> forall k v, (k, v) ∈ d -> plain v = true.
Proof.
  simpl. split.
  - induction d as [|[k' v'] d IH]; intros H k v.
    + by intros ?%elem_of_nil.
    + apply andb_prop in H as [Hv Hd].
      intros [[= -> ->]|Hin]%elem_of_cons; [done|]. by eapply IH.
  - induction d as [|[k' v'] d IH]; intros H; [done|].
    rewrite (H k' v') by left. simpl. apply IH.
    intros k v Hin. eapply H. by right.
Qed.

Lemma asdict_entries_elem l k v :
  (k, v) ∈ asdict_entries l -> exists x, (k, x) ∈ l /\ v = asdict_inner x.
Proof.
  induction l as [|[k1 x1] l IH]; simpl; [by intros ?%elem_of_nil|].
  intros [[= -> ->]|Hin]%elem_of_cons.
  - exists x1. split; [left|done].
  - destruct (IH Hin) as (x & Hx & ->). exists x. split; [by right|done].
Qed.

Lemma asdict_entries_keys l : dict_keys (asdict_entries l) = dict_keys l.
Proof.
  induction l as [|[k1 x1] l IH]; [done|].
  unfold dict_keys in *. simpl. by rewrite IH.
Qed.

Lemma asdict_inner_plain v : plain (asdict_inner v) = true.
Proof.
  induction v as [s | l IH | d IH | cls attrs IH] using pyval_ind_all.
  - done.
  - simpl. apply forallb_forall. intros x (y & <- & Hy)%in_map_iff.
    rewrite Forall_forall in IH. apply IH. by apply list_elem_of_In.
  - change (asdict_inner (VDict d))
      with (VDict (dict_of_pairs (asdict_entries d))).
    apply plain_dict_iff.
    intros k v (x & Hx & ->)%elem_of_dict_of_pairs%asdict_entries_elem.
    rewrite Forall_forall in IH. by apply (IH (k, x)).
  - change (asdict_inner (VObj cls attrs))
      with (VDict (dict_of_pairs (asdict_entries attrs))).
    apply plain_dict_iff.
    intros k v (x & Hx & ->)%elem_of_dict_of_pairs%asdict_entries_elem.
    rewrite Forall_forall in IH. by apply (IH (k, x)).
Qed.

Lemma asdict_exclude_loop_sub out exclude kv :
  kv ∈ asdict_exclude_loop out exclude -> kv ∈ out.
Proof.
  unfold asdict_exclude_loop. revert out.
  induction exclude as [|name names IH]; intros out; simpl; [done|].
  intros Hin%IH. destruct (dict_contains name out); [|done].
  clear IH. induction out as [|[k v] out IHo]; simpl in *; [done|].
  destruct (String.eqb k name); [by right|].
  apply elem_of_cons in Hin as [->|Hin]; [left|right; by apply IHo].
Qed.

(** X12: What [asdict] returns holds no dataclass instance at any depth, under
    any exclusion: nested instances, also inside lists and mappings, have
    become mappings.  Called on something that is no dataclass instance it
    raises the [TypeError] of [dataclasses.asdict]. *)
Theorem asdict_is_plain :
  (forall cls attrs exclude,
     exists out,
       asdict (VObj cls attrs) exclude = inr out /\ plain (VDict out) = true)
  /\ (forall self exclude,
        (forall cls attrs, self <> VObj cls attrs) ->
        asdict self exclude
        = inl (TypeError "asdict() should be called on dataclass instances")).
Proof.
  split.
  - intros cls attrs exclude.
    pose proof (asdict_inner_plain (VObj cls attrs)) as Hp.
    change (asdict_inner (VObj cls attrs))
      with (VDict (dict_of_pairs (asdict_entries attrs))) in Hp.
    unfold asdict, dataclasses_asdict.
    change (asdict_inner (VObj cls attrs))
      with (VDict (dict_of_pairs (asdict_entries attrs))).
    cbn [bind ret]. destruct exclude as [names|]; eexists; split; try done.
    apply plain_dict_iff. intros k v Hin%asdict_exclude_loop_sub.
    rewrite plain_dict_iff in Hp. by eapply Hp.
  - intros self exclude Hself. unfold asdict, dataclasses_asdict.
    destruct self as [| | |cls attrs]; try done. by destruct (Hself cls attrs).
Qed.

(** ** [asdict] of what [load] returns *)

Section DictOfPairsId.
Context {V : Type}.

Lemma dict_set_absent k (v : V) d :
  k ∉ dict_keys d -> dict_set k v d = d ++ [(k, v)].
Proof.
  induction d as [|[k' v'] d IH]; simpl; [done|].
  intros [Hne Hd]%not_elem_of_cons.
  destruct (String.eqb_spec k' k) as [->|_]; [done|]. by rewrite IH.
Qed.

Lemma dict_of_pairs_id (l : list (string * V)) :
  NoDup (dict_keys l) -> dict_of_pairs l = l.
Proof.
  unfold dict_of_pairs.
  assert (forall acc : list (string * V),
            NoDup (dict_keys l) ->
            (forall k, k ∈ dict_keys l -> k ∉ dict_keys acc) ->
            fold_left (fun d kv => dict_set kv.1 kv.2 d) l acc = acc ++ l) as H.
  { induction l as [|[k1 v1] l IH]; intros acc Hnd Hdis; simpl.
    - by rewrite app_nil_r.
    - apply NoDup_cons in Hnd as [Hk1 Hnd]. simpl in Hk1.
      rewrite dict_set_absent by (apply Hdis; left).
      rewrite IH; [by rewrite <- app_assoc|done|].
      intros k Hk. unfold dict_keys. rewrite map_app.
      intros [Hin|Hin%list_elem_of_singleton]%elem_of_app.
      + eapply Hdis; [by right|done].
      + simpl in Hin. by subst. }
  intros Hnd. apply (H [] Hnd). intros k _. apply not_elem_of_nil.
Qed.
End DictOfPairsId.

Lemma dict_keys_filter {V} (l : list (string * V)) (exclude : list string) :
  dict_keys (filter (fun kv => kv.1 ∉ exclude) l)
  = filter (fun k => k ∉ exclude) (dict_keys l).
Proof.
  induction l as [|[k v] l IH]; [done|]. unfold dict_keys in *.
  rewrite filter_cons. simpl. rewrite filter_cons.
  destruct (decide (k ∉ exclude)); simpl; by rewrite IH.
Qed.

(** X13: The plain mapping of a loaded configuration has the declared fields of
    its class as keys, in declaration order; with [exclude], those of them
    that [exclude] does not name. *)
Theorem asdict_of_loaded (X : externals) (fs : filesystem)
    (read : string -> file_state) (reg : registry) (cls : ty) (path : string)
    (overrides : option (list string)) (key : option string)
    (validate_paths : bool) (obj : pyval) :
  wf_ty cls = true ->
  load X fs read reg cls path overrides key validate_paths = inr obj ->
  exists name fields out,
    base cls = TClass name fields
    /\ asdict obj None = inr out
    /\ dict_keys out = dict_keys fields
    /\ forall exclude,
         exists out',
           asdict obj (Some exclude) = inr out'
           /\ dict_keys out' = filter (fun k => k ∉ exclude) (dict_keys fields).
Proof.
  intros Hwf Hload.
  destruct (load_instance _ _ _ _ _ _ _ _ _ _ Hload)
    as (name & fields & attrs & Hb & -> & Hk).
  assert (NoDup (dict_keys fields)) as Hnd.
  { apply wf_base in Hwf. rewrite Hb in Hwf.
    by destruct (wf_class_fields _ _ Hwf). }
  assert (dataclasses_asdict (VObj name attrs) = inr (asdict_entries attrs))
    as Hout.
  { unfold dataclasses_asdict.
    change (asdict_inner (VObj name attrs))
      with (VDict (dict_of_pairs (asdict_entries attrs))).
    rewrite dict_of_pairs_id; [done|]. by rewrite asdict_entries_keys, Hk. }
  exists name, fields, (asdict_entries attrs).
  split; [done|]. unfold asdict. rewrite Hout. cbn [bind].
  split; [done|]. split; [by rewrite asdict_entries_keys|].
  intros exclude. eexists. split; [done|].
  rewrite asdict_exclude_loop_filter by (by rewrite asdict_entries_keys, Hk).
  by rewrite dict_keys_filter, asdict_entries_keys, Hk.
Qed.

(** The sample document [a: 5], loaded, and [asdict(exclude=["b"])]. *)
Lemma asdict_of_loaded_witness :
  wf_ty ConfigClassC = true
  /\ exists name fields out,
       base ConfigClassC = TClass name fields
       /\ asdict
            (VObj "ConfigClassC"
               [("a", VScalar (SInt 5));
                ("b", VNone);
                ("c", VScalar (SBool false));
                ("option_selector", VScalar (SEnum OptionSelector "default"));
                ("config_class_a", VObj "ConfigClassA" [("list_a", VNone)]);
                ("config_class_b", VList [])])
            None = inr out
       /\ dict_keys out = dict_keys fields
       /\ forall exclude,
            exists out',
              asdict
                (VObj "ConfigClassC"
                   [("a", VScalar (SInt 5));
                    ("b", VNone);
                    ("c", VScalar (SBool false));
                    ("option_selector",
                     VScalar (SEnum OptionSelector "default"));
                    ("config_class_a", VObj "ConfigClassA" [("list_a", VNone)]);
                    ("config_class_b", VList [])])
                (Some exclude) = inr out'
              /\ dict_keys out'
                 = filter (fun k => k ∉ exclude) (dict_keys fields).
Proof.
  split; [reflexivity|].
  apply (asdict_of_loaded Sample.X Sample.fs Sample.read [] ConfigClassC
           "a5.yaml" None None true _ eq_refl eq_refl).
Defined.

(** ** The entry point *)

Lemma map_result_clean_opt args :
  exists opts,
    map_result clean_opt args = inr opts
    /\ Forall2 (fun a o => clean_opt a = inr o) args opts.
Proof.
  induction args as [|a args (opts & Hopts & Hall)].
  - exists []. split; [done|constructor].
  - destruct (clean_opt_split a) as (key & val & _ & _ & Ha).
    eexists (_ :: opts). simpl. rewrite Ha, Hopts. split; [done|].
    by constructor.
Qed.

Lemma map_result_snoc {A B} (f : A -> result B) l a opts :
  map_result f (l ++ [a]) = inr opts ->
  exists pre o,
    opts = pre ++ [o] /\ map_result f l = inr pre /\ f a = inr o.
Proof.
  revert opts. induction l as [|x l IH]; intros opts; simpl.
  - intros (o & Ho & [= <-])%bind_inr. by exists [], o.
  - intros (y & Hy & (r & Hr & [= <-])%bind_inr)%bind_inr.
    destruct (IH _ Hr) as (pre & o & -> & Hpre & Ho).
    exists (y :: pre), o. rewrite Hy, Hpre. done.
Qed.

Section Script.
Variable X : externals.
Variable fs : filesystem.
Variable read : string -> file_state.
Variable reg : registry.

Lemma script_printed prog yaml_path args_list out :
  script X fs read reg prog (yaml_path :: args_list) = inr out ->
  exists opts cfg,
    map_result clean_opt args_list = inr opts
    /\ load X fs read reg ConfigClassC yaml_path (Some opts) None true
       = inr cfg
    /\ out = [cfg].
Proof.
  unfold script, main.
  intros (opts & Hopts & (cfg & Hcfg & [= <-])%bind_inr)%bind_inr.
  by exists opts, cfg.
Qed.
End Script.

(** X14: The script: without a configuration path it raises [CliError]
    with the usage line and prints nothing; otherwise it loads
    [ConfigClassC] from the first argument with [validate_paths] on and no
    [key], the remaining arguments being the overrides, each passed through
    [clean_opt] and in the order given, and prints the one instance loaded.
    Cleaning never fails, so every failure of the script is the usage error
    or the failure of [load]; and with no option at all the overrides are an
    empty list, which [load] treats as no overrides. *)
Theorem script_behaviour (X : externals) (fs : filesystem)
    (read : string -> file_state) (reg : registry) (prog : string) :
  script X fs read reg prog []
  = inl (CliError ("Usage: " +:+ prog +:+ " [CONFIG_PATH] [OPTIONS]"))
  /\ (forall yaml_path args_list,
        exists opts,
          Forall2 (fun a o => clean_opt a = inr o) args_list opts
          /\ script X fs read reg prog (yaml_path :: args_list)
             = match load X fs read reg ConfigClassC yaml_path (Some opts)
                       None true with
               | inl e => inl e
               | inr cfg => inr [cfg]
               end)
  /\ (forall yaml_path,
        script X fs read reg prog [yaml_path]
        = match load X fs read reg ConfigClassC yaml_path None None true with
          | inl e => inl e
          | inr cfg => inr [cfg]
          end).
Proof.
  split; [done|]. split.
  - intros yaml_path args_list.
    destruct (map_result_clean_opt args_list) as (opts & Hopts & Hall).
    exists opts. split; [done|]. unfold script. rewrite Hopts. cbn [bind].
    by destruct (load X fs read reg ConfigClassC yaml_path (Some opts) None true).
  - intros yaml_path. unfold script. simpl map_result. cbn [bind ret].
    change (load X fs read reg ConfigClassC yaml_path (Some []) None true)
      with (load X fs read reg ConfigClassC yaml_path None None true).
    by destruct (load X fs read reg ConfigClassC yaml_path None None true).
Qed.

(** X15: The last option on the command line decides.  When the script
    succeeds and its last argument is [--some-name=text] (or a bare
    [--some-name], read as [=True]) whose text is a plain YAML scalar and
    whose normalised name addresses a declared field, the configuration it
    prints holds that scalar at the field, as the field's type converts it
    -- whatever the file and the options before say. *)
Theorem script_last_option_wins (X : externals) (fs : filesystem)
    (read : string -> file_state) (reg : registry) (prog : string)
    (yaml_path : string) (pre : list string) (arg name val : string)
    (s : scalar) (ft : ty) (out : list pyval) :
  script X fs read reg prog (yaml_path :: pre ++ [arg]) = inr out ->
  (if PyStr.contains "=" arg
   then arg = name +:+ "=" +:+ val /\ PyStr.contains "=" name = false
   else name = arg /\ val = "True") ->
  yaml_load X val = inr (VScalar s) ->
  literal s = true ->
  let key := PyStr.replace "-" "_" (PyStr.strip "-" name) in
  field_type_at ConfigClassC (split_key X key) = Some ft ->
  exists cfg t s',
    out = [cfg]
    /\ (base ft = TAny \/ t = ft) /\ om.validate_value X t s = inr s'
    /\ attr_at cfg (split_key X key) = Some (VScalar s').
Proof.
  intros Hrun Harg Hval Hs key Hft.
  apply script_printed in Hrun as (opts & cfg & Hopts & Hload & ->).
  destruct (map_result_snoc _ _ _ _ Hopts) as (opre & o & -> & _ & Ho).
  assert (om.parse_dotlist_entry X o = inr (key, VScalar s)) as Hentry.
  { destruct (clean_opt_split arg) as (name' & val' & Harg' & Hname' & Hout).
    assert (name' = name /\ val' = val) as [-> ->].
    { destruct (PyStr.contains "=" arg) eqn:E.
      - destruct Harg as [-> Hname]. change (?k +:+ "=" +:+ ?v)
          with (k +:+ String "=" v) in Harg'.
        pose proof (f_equal (PyStr.split1 "=") Harg') as Hsplit.
        rewrite !split1_app in Hsplit by done. by injection Hsplit as -> ->.
      - destruct Harg as [-> ->]. by destruct Harg' as [-> ->]. }
    rewrite Ho in Hout. injection Hout as ->.
    assert (PyStr.contains "=" key = false) as Hkey.
    { apply contains_replace; [done|].
      unfold PyStr.strip. by apply contains_rstrip, contains_lstrip. }
    assert (exists kv,
              om.parse_dotlist_entry X (key +:+ "=" +:+ val) = inr kv)
      as [kv Hparsed].
    { destruct (load_stages X fs read reg ConfigClassC _ _ _ _ _ eq_refl Hload)
        as (schema & raw & conf & conf' & _ & _ & _ & _ & _ & _ & Hover & _).
      rewrite apply_overrides_some in Hover by by destruct opre.
      apply bind_inr in Hover as (other & Hother & _).
      unfold om.from_dotlist in Hother.
      rewrite merge_with_dotlist_app in Hother.
      apply bind_inr in Hother as (c & _ & Hlast). simpl in Hlast.
      apply bind_inr in Hlast as (kv & Hkv & _). by exists kv. }
    unfold om.parse_dotlist_entry in Hparsed |- *. fold key.
    destruct (PyStr.contains "092" (key +:+ "=" +:+ val)); [done|].
    change (key +:+ "=" +:+ val) with (key +:+ String "=" val).
    by rewrite (find_app _ _ _ Hkey), take_app, drop_app, Hval. }
  destruct (override_wins X fs read reg ConfigClassC yaml_path opre o []
              None true key s ft cfg) as (t & s' & Ht & Hv & Hat); try done.
  { intros o' k v Hin. by apply elem_of_nil in Hin. }
  by exists cfg, t, s'.
Qed.

(** [prog a5.yaml --a=7] with the sample document [a: 5]: [cfg.a == 7]. *)
Lemma script_last_option_wins_witness :
  script Sample.X Sample.fs Sample.read [] "main.py" ["a5.yaml"; "--a=7"]
  = inr [VObj "ConfigClassC"
           [("a", VScalar (SInt 7));
            ("b", VNone);
            ("c", VScalar (SBool false));
            ("option_selector", VScalar (SEnum OptionSelector "default"));
            ("config_class_a", VObj "ConfigClassA" [("list_a", VNone)]);
            ("config_class_b", VList [])]]
  /\ exists cfg t s',
       [VObj "ConfigClassC"
          [("a", VScalar (SInt 7));
           ("b", VNone);
           ("c", VScalar (SBool false));
           ("option_selector", VScalar (SEnum OptionSelector "default"));
           ("config_class_a", VObj "ConfigClassA" [("list_a", VNone)]);
           ("config_class_b", VList [])]] = [cfg]
       /\ (base (TPrim PInt) = TAny \/ t = TPrim PInt)
       /\ om.validate_value Sample.X t (SInt 7) = inr s'
       /\ attr_at cfg ["a"] = Some (VScalar s').
Proof.
  split; [reflexivity|].
  apply (script_last_option_wins Sample.X Sample.fs Sample.read [] "main.py"
           "a5.yaml" [] "--a=7" "--a" "7" (SInt 7) (TPrim PInt) _ eq_refl);
    try reflexivity.
  split; reflexivity.
Defined.

(** ** [load] with a [key] *)

Section KeyScope.
Variable X : externals.


End KeyScope.



(** ** [None] for a field that is not [Optional] *)

Section NoneReject.
Variable X : externals.

Lemma merge_items_invalid td f s t0 l : forall acc dk e,
  dict_get f l = Some (NVal t0 s) ->
  dict_get f acc = Some dk ->
  om.validate_value X (type_of dk) s = inl e ->
  exists err, merge_items X td acc l = inl err /\ library_error err.
Proof.
  induction l as [|[k sk] l IH]; intros acc dk e Hl Hacc Hbad; [done|].
  rewrite merge_items_cons. simpl in Hl.
  destruct (String.eqb_spec k f) as [->|Hne].
  - injection Hl as ->. rewrite Hacc. simpl.
    unfold om.validate_scalar. rewrite Hbad. simpl.
    exists e. split; [done|]. by eapply validate_value_error.
  - destruct (match dict_get k acc with
              | Some dk0 => ret dk0
              | None => _
              end) as [err|dk0] eqn:Hdk; simpl.
    { exists err. split; [done|].
      destruct (dict_get k acc); [done|].
      destruct (is_structured td); [injection Hdk as <-; by left|].
      by eapply blank_error. }
    destruct (om.merge_node X dk0 sk) as [err|r] eqn:Hr; simpl.
    { exists err. split; [done|]. by eapply merge_node_error. }
    apply (IH _ dk e); try done. by rewrite dict_get_set_ne.
Qed.
End NoneReject.

(** X17: A document that sets a field to [null] is refused when the field is not
    declared [Optional] (nor [Any]): [load] fails, with
    [ConfigurationError] unless the run leaves the modelled part of the
    library. *)
Theorem load_rejects_none (X : externals) (fs : filesystem)
    (read : string -> file_state) (reg : registry) (cls : ty) (path : string)
    (overrides : option (list string)) (key : option string)
    (validate_paths : bool) (f : string) (ft : ty) (d : default_spec)
    (schema : node) (t0 t1 : ty) (items : list (string * node)) :
  field_decl cls f = Some (ft, d) ->
  is_optional ft = false ->
  om.structured X cls = inr schema ->
  load_document X read (register_resolvers fs reg validate_paths) path key
    = inr (NDict t0 items) ->
  dict_get f items = Some (NVal t1 SNone) ->
  exists err,
    load X fs read reg cls path overrides key validate_paths = inl err
    /\ ((exists msg, err = ConfigurationError msg)
        \/ exists what, err = NotModelled what).
Proof.
  intros Hf Hopt Hs Hraw Hget.
  destruct cls as [| | | | | |name fields]; try done. simpl in Hf.
  rewrite load_unfold, Hs. cbn [bind]. rewrite Hraw. cbn [bind].
  rewrite structured_class in Hs.
  apply bind_inr in Hs as (sitems & Hsitems & [= <-]).
  destruct (structured_fields_get _ _ _ _ _ _ Hsitems Hf) as (c & Hc & Hcty).
  destruct (merge_items_invalid X (TClass name fields) f SNone t1 items sitems c
              (OmegaConfBaseException ValidationError "field is not Optional"))
    as (err & Herr & Hlib); try done.
  { rewrite Hcty. unfold om.validate_value. by rewrite Hopt. }
  assert (om.merge X (NDict (TClass name fields) sitems) (NDict t0 items)
          = inl err) as Hm.
  { rewrite merge_dicts, merge_node_dict. simpl. by rewrite Herr. }
  rewrite Hm. cbn [bind]. exists (reraise err). split.
  - by apply except_omegaconf_inl.
  - destruct (reraise_library_error _ Hlib) as [Hnm|Hce].
    + right. destruct Hnm as [w ->]. by exists w.
    + left. by eexists.
Qed.

(** The document [a: null] for [ConfigClassC], whose [a] is an [int]. *)
Lemma load_rejects_none_witness :
  field_decl ConfigClassC "a" = Some (TPrim PInt, Default (SInt 0))
  /\ is_optional (TPrim PInt) = false
  /\ (exists err,
        load Sample.X Sample.fs Sections.read [] ConfigClassC "null_a.yaml"
          None None true = inl err
        /\ ((exists msg, err = ConfigurationError msg)
            \/ exists what, err = NotModelled what))
  /\ load Sample.X Sample.fs Sections.read [] ConfigClassC "null_a.yaml"
       None None true
     = inl (ConfigurationError "field is not Optional").
Proof.
  split; [reflexivity|]. split; [reflexivity|]. split; [|reflexivity].
  apply (load_rejects_none Sample.X Sample.fs Sections.read [] ConfigClassC
           "null_a.yaml" None None true "a" (TPrim PInt) (Default (SInt 0))
           match om.structured Sample.X ConfigClassC with
           | inr s => s
           | inl _ => NMissing TAny
           end
           TAny TAny [("a", NVal TAny SNone)]); reflexivity.
Defined.

(** ** Edges of [path_glob] and [clean_opt] *)

(** X18: With [validate_paths] on, [path_glob] never returns an empty list for
    a non-empty argument list: it returns at least one match or raises. *)
Theorem path_glob_nonempty (fs : filesystem) (paths out : list string) :
  paths <> [] ->
  snd (run_io (path_glob fs true paths)) = inr out ->
  out <> [].
Proof.
  intros Hne. unfold run_io, path_glob. rewrite path_glob_loop_result.
  destruct paths as [|p rest]; [done|]. simpl.
  unfold no_match at 1. destruct (decide (fs_glob fs p = [])) as [Hp|Hp].
  - by rewrite (bool_decide_eq_true_2 _ Hp).
  - rewrite (bool_decide_eq_false_2 _ Hp).
    destruct (find (no_match fs) rest); [done|]. intros [= Hout].
    rewrite <- Hout. intros H. apply List.app_eq_nil in H as [Hs _].
    apply Hp. by apply sorted_nil_iff.
Qed.

Lemma path_glob_nonempty_witness :
  ["*.yaml"] <> []
  /\ snd (run_io (path_glob
                    {| fs_glob := fun _ => ["b.yaml"; "a.yaml"];
                       fs_exists := fun _ => true |} true ["*.yaml"]))
     = inr ["a.yaml"; "b.yaml"]
  /\ ["a.yaml"; "b.yaml"] <> [].
Proof.
  split; [done|]. split; [reflexivity|].
  apply (path_glob_nonempty
           {| fs_glob := fun _ => ["b.yaml"; "a.yaml"];
              fs_exists := fun _ => true |} ["*.yaml"]); [done|reflexivity].
Defined.

Lemma lstrip_repeat c n : PyStr.lstrip c (PyStr.repeat c n) = "".
Proof. induction n as [|n IH]; simpl; [done|]. by rewrite Ascii.eqb_refl. Qed.

Lemma contains_repeat c d n :
  d <> c -> PyStr.contains d (PyStr.repeat c n) = false.
Proof.
  intros Hne. induction n as [|n IH]; simpl; [done|].
  by destruct (Ascii.eqb_spec c d) as [->|_].
Qed.

(** X19: An option without a name is not refused: an argument that is all
    dashes before its ["="] (or all dashes, or empty) is cleaned to an entry
    with the empty key. *)
Theorem clean_opt_dashes_only (n : nat) (val : string) :
  clean_opt (PyStr.repeat "-" n +:+ "=" +:+ val) = inr ("=" +:+ val)
  /\ clean_opt (PyStr.repeat "-" n) = inr "=True".
Proof.
  assert (PyStr.contains "=" (PyStr.repeat "-" n) = false) as Hc
    by (by apply contains_repeat).
  split.
  - unfold clean_opt.
    change (PyStr.repeat "-" n +:+ "=" +:+ val)
      with (PyStr.repeat "-" n +:+ String "=" val).
    rewrite contains_app, Hc. simpl negb. cbv iota.
    rewrite (split1_app _ _ _ Hc). simpl.
    unfold PyStr.strip. by rewrite lstrip_repeat.
  - unfold clean_opt. rewrite Hc. simpl negb. cbv iota.
    change (PyStr.repeat "-" n +:+ "=True")
      with (PyStr.repeat "-" n +:+ String "=" "True").
    rewrite (split1_app _ _ _ Hc). simpl.
    unfold PyStr.strip. by rewrite lstrip_repeat.
Qed.

(** ** [StrEnum]: the string of a member loads back *)

(** X20: [str] of a member is its value and [repr] is that value between
    single quotes.  For a member whose value is its name -- every member of
    [OptionSelector] is one -- the string [str] gives is accepted by a
    field of the enumeration and converts back to that very member. *)
Theorem str_of_member_loads_back (X : externals) :
  (forall e m v,
     StrEnum_str e m = Some v ->
     StrEnum_repr e m = Some ("'" +:+ v +:+ "'")
     /\ (v = m -> String.prefix (enum_name e +:+ ".") m = false ->
         om.validate_value X (TEnum e) (SStr v) = inr (SEnum e m)))
  /\ (forall m,
        m ∈ map fst (enum_members OptionSelector) ->
        StrEnum_str OptionSelector m = Some m
        /\ om.validate_value X (TEnum OptionSelector) (SStr m)
           = inr (SEnum OptionSelector m)).
Proof.
  assert (forall e m,
            StrEnum_str e m = Some m ->
            String.prefix (enum_name e +:+ ".") m = false ->
            om.validate_value X (TEnum e) (SStr m) = inr (SEnum e m)) as Hback.
  { intros e m Hstr Hpre. unfold StrEnum_str in Hstr.
    unfold om.validate_value. simpl. unfold om.strip_enum_prefix.
    rewrite Hpre. unfold dict_contains. by rewrite Hstr. }
  split.
  - intros e m v Hstr. split; [unfold StrEnum_repr; by rewrite Hstr|].
    intros -> Hpre. by apply Hback.
  - intros m Hm. simpl in Hm.
    assert (m = "default" \/ m = "option_a" \/ m = "option_b") as Hcases.
    { apply elem_of_cons in Hm as [->|Hm]; [by left|].
      apply elem_of_cons in Hm as [->|Hm]; [right; by left|].
      apply list_elem_of_singleton in Hm as ->. right. by right. }
    destruct Hcases as [->|[->| ->]]; (split; [done|by apply Hback]).
Qed.

(** ** The declared defaults, through [new] *)

(** X21: [ConfigClassC.new()] and [ConfigClassA.new()] return what the
    dataclass constructors [ConfigClassC()] and [ConfigClassA()] build:
    every declared default passes the schema's validation unchanged,
    whatever conversions the library has.  [ConfigClassB.new()] does not
    work that way: its [label] default is no [str], so the outcome is what
    the library's conversion of the float to [str] makes it -- and when the
    conversion refuses, the [ValidationError] leaves [new] as it is, not as
    a [ConfigurationError]. *)
Theorem new_builds_the_defaults (X : externals) (fs : filesystem)
    (reg : registry) :
  new X fs reg ConfigClassC [] = dataclass_init ConfigClassC []
  /\ new X fs reg ConfigClassA [] = dataclass_init ConfigClassA []
  /\ dataclass_init ConfigClassC []
     = inr (VObj "ConfigClassC"
              [("a", VScalar (SInt 0));
               ("b", VNone);
               ("c", VScalar (SBool false));
               ("option_selector", VScalar (SEnum OptionSelector "default"));
               ("config_class_a", VObj "ConfigClassA" [("list_a", VNone)]);
               ("config_class_b", VList [])])
  /\ new X fs reg ConfigClassB []
     = match coerce X PStr (SFloat (S754_zero false)) with
       | Some s' =>
           inr (VObj "ConfigClassB" [("label", VScalar s'); ("list_b", VNone)])
       | None =>
           inl (OmegaConfBaseException ValidationError
                  "Value could not be converted")
       end.
Proof.
  split; [reflexivity|]. split; [reflexivity|]. split; [reflexivity|].
  unfold new. simpl.
  unfold om.wrap_scalar, om.validate_scalar, om.validate_value. simpl.
  by destruct (coerce X PStr (SFloat (S754_zero false))).
Qed.
